(** * Platform to search any circuit component RCL values

    A shallow embedding of
    [automatic_circuit_design_by_RCL_component_search.py] and the properties
    of its value expansion, enumeration, search passes and safety gate.

    Numbers are Python floats, that is IEEE 754 binary64: they are the
    primitive [float] of the kernel, whose operations round as Python's do.
    The integer literals of a configuration (the scales 100 ... 100000) enter
    every computation through a product with a float, where Python converts
    them exactly; they are written as the float of the same value.  A Python
    value that may be [None] is an [option].  The global dictionaries keep
    their insertion order, which [items()] follows, so they are association
    lists.  [print] is not modelled, but for the operations of its arguments
    that can raise; [input] reads from the list of lines still to come on
    standard input; the two readings of [time.time()] are parameters. *)

From Stdlib Require Import List ZArith String Ascii Bool Lia Floats.
From Stdlib Require Import DecimalString.
From Stdlib Require Import Permutation Sorting.Sorted.
Import ListNotations.
Set Warnings "-inexact-float".

Local Open Scope list_scope.

(** ** Python exceptions and outcomes *)

(** The exception classes this program can raise: [ValueError] is the one
    the source raises itself (every [raise] statement of the file),
    [SystemExit] is what [exit()] raises, the others come from the
    interpreter and the [math] module. *)
Inductive exn : Type :=
| ValueError
| TypeError
| KeyError
| ZeroDivisionError
| OverflowError
| EOFError
| SystemExit.

Inductive outcome (A : Type) : Type :=
| Return (a : A)
| Raise (e : exn).
Arguments Return {A} a.
Arguments Raise {A} e.

Definition obind {A B} (o : outcome A) (k : A -> outcome B) : outcome B :=
  match o with
  | Return a => k a
  | Raise e => Raise e
  end.

Notation "x <~ c1 ;; c2" := (obind c1 (fun x => c2))
  (at level 61, c1 at next level, right associativity).


(** An error the program reports itself, with a message of its own, as
    opposed to one the interpreter raises on an ill-typed operation. *)
Definition raised_by_program (e : exn) : bool :=
  match e with
  | ValueError => true
  | _ => false
  end.

(** ** Arithmetic of Python numbers *)

(** [x * y] where an operand may be [None]. *)
Definition py_mul (x y : option float) : outcome float :=
  match x, y with
  | Some a, Some b => Return (a * b)%float
  | _, _ => Raise TypeError
  end.

(** [x / y] on floats: Python raises where IEEE would give an infinity or a NaN. *)
Definition py_div (x y : float) : outcome float :=
  if (y =? 0)%float then Raise ZeroDivisionError else Return (x / y)%float.

(** [math.sqrt]: a negative argument is a domain error. *)
Definition math_sqrt (x : float) : outcome float :=
  if (x <? 0)%float then Raise ValueError else Return (PrimFloat.sqrt x).

Definition math_fabs (x : float) : float := PrimFloat.abs x.

(** The conversion of a Python integer that meets a float in an arithmetic
    operation: the nearest double, ties to even, and an [OverflowError]
    when the integer is beyond the range of a double. *)
Definition py_float_of_int (n : Z) : outcome float :=
  let x := SF2Prim (binary_normalize prec emax n 0 false) in
  if PrimFloat.is_infinity x then Raise OverflowError else Return x.

(** A float taken to an integer, by the rounding [round] of a quotient of
    integers: [OverflowError] on an infinity, [ValueError] on a NaN. *)
Definition integer_of (round : Z -> Z -> Z) (x : float) : outcome Z :=
  match Prim2SF x with
  | S754_zero _ => Return 0%Z
  | S754_finite s m e =>
      let numerator := ((if s then Z.neg m else Z.pos m) * 2 ^ Z.max e 0)%Z in
      Return (round numerator (2 ^ Z.max (- e) 0)%Z)
  | S754_infinity _ => Raise OverflowError
  | S754_nan => Raise ValueError
  end.

(** [math.floor]: towards minus infinity. *)
Definition math_floor : float -> outcome Z := integer_of Z.div.

(** [int] of a float, and [%d] of a float in a format: towards zero. *)
Definition py_int : float -> outcome Z := integer_of Z.quot.

(** [a % b] on integers. *)
Definition py_mod (a b : Z) : outcome Z :=
  if (b =? 0)%Z then Raise ZeroDivisionError else Return (a mod b)%Z.

(** ** Dictionaries *)

Definition dict (V : Type) : Type := list (string * V).

Fixpoint dict_get {V} (k : string) (d : dict V) : option V :=
  match d with
  | [] => None
  | (k', v) :: d' => if String.eqb k k' then Some v else dict_get k d'
  end.

(** [d[k] = f(d[k])] in place: the entry keeps its position. *)
Fixpoint dict_alter {V} (f : V -> V) (k : string) (d : dict V) : dict V :=
  match d with
  | [] => []
  | (k', v) :: d' =>
      if String.eqb k k' then (k', f v) :: d' else (k', v) :: dict_alter f k d'
  end.

(** ** The records of the configuration dictionaries *)

(** An inner dictionary is a record whose fields are its string keys
    ("name", "value", ...); the key constants [C_...] that the program passes
    around as a field argument are the constructors of a key type. *)

Module InFixP.
Record t : Type := make {
  name : string;
  value : option float;
  units : string;
  description : string
}.
End InFixP.

Module Comp.
Record t : Type := make {
  name : string;
  value : option float;
  value_set : option (list float);
  value_scale : option (list float);
  tolerance : option float;
  description : string;
  curr_value : option float;
  best_value : option float;
  worst_value : option float;
  expanded_values : option (list float);
  expanded_tolerance : option (list float)
}.

(** The two fields a search pass takes its candidate lists from. *)
Inductive expansion_key : Type := C_EXPANDED_VALUES | C_EXPANDED_TOLERANCE.

(** The three fields a combination is written to. *)
Inductive value_key : Type := C_CURR_VALUE | C_BEST_VALUE | C_WORST_VALUE.

Definition get_expansion (f : expansion_key) (c : t) : option (list float) :=
  match f with
  | C_EXPANDED_VALUES => expanded_values c
  | C_EXPANDED_TOLERANCE => expanded_tolerance c
  end.

Definition set_expansion (f : expansion_key) (l : list float) (c : t) : t :=
  match f with
  | C_EXPANDED_VALUES =>
      make (name c) (value c) (value_set c) (value_scale c) (tolerance c)
           (description c) (curr_value c) (best_value c) (worst_value c)
           (Some l) (expanded_tolerance c)
  | C_EXPANDED_TOLERANCE =>
      make (name c) (value c) (value_set c) (value_scale c) (tolerance c)
           (description c) (curr_value c) (best_value c) (worst_value c)
           (expanded_values c) (Some l)
  end.

Definition get_value (f : value_key) (c : t) : option float :=
  match f with
  | C_CURR_VALUE => curr_value c
  | C_BEST_VALUE => best_value c
  | C_WORST_VALUE => worst_value c
  end.

Definition set_value (f : value_key) (v : float) (c : t) : t :=
  match f with
  | C_CURR_VALUE =>
      make (name c) (value c) (value_set c) (value_scale c) (tolerance c)
           (description c) (Some v) (best_value c) (worst_value c)
           (expanded_values c) (expanded_tolerance c)
  | C_BEST_VALUE =>
      make (name c) (value c) (value_set c) (value_scale c) (tolerance c)
           (description c) (curr_value c) (Some v) (worst_value c)
           (expanded_values c) (expanded_tolerance c)
  | C_WORST_VALUE =>
      make (name c) (value c) (value_set c) (value_scale c) (tolerance c)
           (description c) (curr_value c) (best_value c) (Some v)
           (expanded_values c) (expanded_tolerance c)
  end.
End Comp.

Module TCalcValues.
Record t : Type := make {
  name : string;
  target_value : option float;
  units : string;
  description : string;
  calc_value : option float;
  best_value : option float;
  worst_value : option float
}.

Inductive key : Type := C_TARGET_VALUE | C_CALC_VALUE | C_BEST_VALUE | C_WORST_VALUE.

Definition get (f : key) (c : t) : option float :=
  match f with
  | C_TARGET_VALUE => target_value c
  | C_CALC_VALUE => calc_value c
  | C_BEST_VALUE => best_value c
  | C_WORST_VALUE => worst_value c
  end.

Definition set (f : key) (v : float) (c : t) : t :=
  match f with
  | C_TARGET_VALUE =>
      make (name c) (Some v) (units c) (description c) (calc_value c) (best_value c)
           (worst_value c)
  | C_CALC_VALUE =>
      make (name c) (target_value c) (units c) (description c) (Some v) (best_value c)
           (worst_value c)
  | C_BEST_VALUE =>
      make (name c) (target_value c) (units c) (description c) (calc_value c) (Some v)
           (worst_value c)
  | C_WORST_VALUE =>
      make (name c) (target_value c) (units c) (description c) (calc_value c) (best_value c)
           (Some v)
  end.
End TCalcValues.

(** ** Value expansion *)

(** The inner loop of [expand_component]: [values_list.append(val * scale)]
    for each [val] of the standard series. *)
Definition append_scaled (scale : float) (standard_scale_values values_list : list float)
  : list float :=
  fold_left (fun acc val => acc ++ [(val * scale)%float]) standard_scale_values values_list.

(** The outer loop, over the scales; iterating a series that is [None]
    raises, which happens once a first scale is reached. *)
Fixpoint scale_loop (standard_scale_values : option (list float))
    (values_scale values_list : list float) : outcome (list float) :=
  match values_scale with
  | [] => Return values_list
  | scale :: rest =>
      match standard_scale_values with
      | None => Raise TypeError
      | Some series => scale_loop standard_scale_values rest (append_scaled scale series values_list)
      end
  end.

(** The body of the loop of [expand_component] for one component: the list
    stored under [C_EXPANDED_VALUES].  A scale list that is [None] cannot be
    iterated. *)
Definition expand_values (component : Comp.t) (standard_scale_values : option (list float))
  : outcome (list float) :=
  match Comp.value component with
  | None =>
      match Comp.value_set component with
      | None =>
          match Comp.value_scale component with
          | None => Raise TypeError
          | Some values_scale => scale_loop standard_scale_values values_scale []
          end
      | Some values => Return values
      end
  | Some value => Return [value]
  end.

(** [expand_component]: the components are expanded in dictionary order; an
    exception leaves the components already expanded as they are. *)
Fixpoint expand_component (component_dic : dict Comp.t)
    (standard_scale_values : option (list float)) : outcome unit * dict Comp.t :=
  match component_dic with
  | [] => (Return tt, [])
  | (k, component) :: rest =>
      match expand_values component standard_scale_values with
      | Return values_list =>
          let (o, rest') := expand_component rest standard_scale_values in
          (o, (k, Comp.set_expansion Comp.C_EXPANDED_VALUES values_list component) :: rest')
      | Raise e => (Raise e, component_dic)
      end
  end.

(** ** Tolerance expansion *)

Definition expand_each_component_tolerance (comp_val comp_tolerance_perc : option float)
  : outcome (list float) :=
  p <~ py_mul comp_val comp_tolerance_perc ;;
  let delta := (p * 0.01)%float in
  match comp_val with
  | Some v =>
      let comp_value_list := [] in
      let comp_value_list := comp_value_list ++ [(v - delta)%float] in
      let comp_value_list := comp_value_list ++ [v] in
      let comp_value_list := comp_value_list ++ [(v + delta)%float] in
      Return comp_value_list
  | None => Raise TypeError
  end.

Fixpoint expand_component_tolerance_value_list (dic_component : dict Comp.t)
  : outcome unit * dict Comp.t :=
  match dic_component with
  | [] => (Return tt, [])
  | (k, compone) :: rest =>
      let comp_best_value := Comp.best_value compone in
      let comp_tolerance_perc := Comp.tolerance compone in
      match expand_each_component_tolerance comp_best_value comp_tolerance_perc with
      | Return expanded_tolerance_list =>
          let (o, rest') := expand_component_tolerance_value_list rest in
          (o, (k, Comp.set_expansion Comp.C_EXPANDED_TOLERANCE expanded_tolerance_list compone) :: rest')
      | Raise e => (Raise e, dic_component)
      end
  end.

(** The tolerance band as the specification words it, with
    [t = tolerance_percent / 100]. *)
Definition band_by_fraction (nominal tolerance_percent : float) : list float :=
  let t := (tolerance_percent / 100)%float in
  [(nominal * (1 - t))%float; nominal; (nominal * (1 + t))%float].

(** ** The global state and the monad of the stateful functions *)

(** What the program does that can be observed from outside a pass: a
    confirmation prompt (with the count it shows), and a call of the circuit
    equations. *)
Inductive event : Type :=
| Prompt (max_number_evaluations : Z)
| Evaluate.

(** The module's globals, the lines still to be read by [input], and the
    events so far, oldest first. *)
Record state : Type := mk_state {
  dic_in_fix_param : dict InFixP.t;
  dic_resistors : dict Comp.t;
  dic_capacitors : dict Comp.t;
  dic_inductors : dict Comp.t;
  dic_target_calc_values : dict TCalcValues.t;
  g_best_prev_error : float;
  g_worst_prev_error : float;
  stdin : list string;
  log : list event
}.

Definition with_resistors (d : dict Comp.t) (st : state) : state :=
  mk_state (dic_in_fix_param st) d (dic_capacitors st) (dic_inductors st)
           (dic_target_calc_values st) (g_best_prev_error st) (g_worst_prev_error st)
           (stdin st) (log st).

Definition with_capacitors (d : dict Comp.t) (st : state) : state :=
  mk_state (dic_in_fix_param st) (dic_resistors st) d (dic_inductors st)
           (dic_target_calc_values st) (g_best_prev_error st) (g_worst_prev_error st)
           (stdin st) (log st).

Definition with_inductors (d : dict Comp.t) (st : state) : state :=
  mk_state (dic_in_fix_param st) (dic_resistors st) (dic_capacitors st) d
           (dic_target_calc_values st) (g_best_prev_error st) (g_worst_prev_error st)
           (stdin st) (log st).

Definition with_targets (d : dict TCalcValues.t) (st : state) : state :=
  mk_state (dic_in_fix_param st) (dic_resistors st) (dic_capacitors st) (dic_inductors st)
           d (g_best_prev_error st) (g_worst_prev_error st) (stdin st) (log st).

Definition with_best_prev_error (e : float) (st : state) : state :=
  mk_state (dic_in_fix_param st) (dic_resistors st) (dic_capacitors st) (dic_inductors st)
           (dic_target_calc_values st) e (g_worst_prev_error st) (stdin st) (log st).

Definition with_worst_prev_error (e : float) (st : state) : state :=
  mk_state (dic_in_fix_param st) (dic_resistors st) (dic_capacitors st) (dic_inductors st)
           (dic_target_calc_values st) (g_best_prev_error st) e (stdin st) (log st).

Definition with_stdin (l : list string) (st : state) : state :=
  mk_state (dic_in_fix_param st) (dic_resistors st) (dic_capacitors st) (dic_inductors st)
           (dic_target_calc_values st) (g_best_prev_error st) (g_worst_prev_error st)
           l (log st).

Definition with_event (e : event) (st : state) : state :=
  mk_state (dic_in_fix_param st) (dic_resistors st) (dic_capacitors st) (dic_inductors st)
           (dic_target_calc_values st) (g_best_prev_error st) (g_worst_prev_error st)
           (stdin st) (log st ++ [e]).

(** A function of the program: it may read and write the globals, and it
    returns or raises.  The globals survive an exception. *)
Definition M (A : Type) : Type := state -> outcome A * state.

Definition ret {A} (a : A) : M A := fun st => (Return a, st).

Definition raise {A} (e : exn) : M A := fun st => (Raise e, st).

Definition lift {A} (o : outcome A) : M A := fun st => (o, st).

Definition bind {A B} (m : M A) (k : A -> M B) : M B :=
  fun st =>
    match m st with
    | (Return a, st') => k a st'
    | (Raise e, st') => (Raise e, st')
    end.

Notation "x <- c1 ;; c2" := (bind c1 (fun x => c2))
  (at level 61, c1 at next level, right associativity).
Notation "c1 ;;; c2" := (bind c1 (fun _ => c2))
  (at level 61, right associativity).

(** [for x in l: body(x)] *)
Fixpoint for_each {A} (l : list A) (body : A -> M unit) : M unit :=
  match l with
  | [] => ret tt
  | x :: l' => body x ;;; for_each l' body
  end.

(** ** Accessors of the global dictionaries *)

Definition get_best_prev_error : M float := fun st => (Return (g_best_prev_error st), st).

Definition set_best_prev_error (best_prev_error : float) : M unit :=
  fun st => (Return tt, with_best_prev_error best_prev_error st).

Definition get_worst_prev_error : M float := fun st => (Return (g_worst_prev_error st), st).

Definition set_worst_prev_error (worst_prev_error : float) : M unit :=
  fun st => (Return tt, with_worst_prev_error worst_prev_error st).

(** [inner_dic.get(field)], where a missing entry and a field that is [None]
    are both reported by the program. *)
Definition process_inner_dic {D} (inner_dic : option D) (field : D -> option float)
  : outcome float :=
  match inner_dic with
  | Some d =>
      match field d with
      | Some val => Return val
      | None => Raise ValueError
      end
  | None => Raise ValueError
  end.

Definition get_dic_in_fix_param (id : string) (field : InFixP.t -> option float) : M float :=
  fun st => (process_inner_dic (dict_get id (dic_in_fix_param st)) field, st).

Definition get_dic_resistors (id : string) (field : Comp.value_key) : M float :=
  fun st => (process_inner_dic (dict_get id (dic_resistors st)) (Comp.get_value field), st).

Definition get_dic_capacitors (id : string) (field : Comp.value_key) : M float :=
  fun st => (process_inner_dic (dict_get id (dic_capacitors st)) (Comp.get_value field), st).

Definition get_dic_inductors (id : string) (field : Comp.value_key) : M float :=
  fun st => (process_inner_dic (dict_get id (dic_inductors st)) (Comp.get_value field), st).

Definition get_dic_target_calc_values (id : string) (field : TCalcValues.key) : M float :=
  fun st =>
    (process_inner_dic (dict_get id (dic_target_calc_values st)) (TCalcValues.get field), st).

Definition set_dic_target_calc_values (id : string) (field : TCalcValues.key) (value : float)
  : M unit :=
  fun st =>
    match dict_get id (dic_target_calc_values st) with
    | Some _ =>
        (Return tt,
         with_targets (dict_alter (TCalcValues.set field value) id (dic_target_calc_values st)) st)
    | None => (Raise ValueError, st)
    end.

(** [dic[id][field] = val]: a key that is absent is a [KeyError]. *)
Definition set_item (dic : dict Comp.t) (id : string) (field : Comp.value_key) (val : float)
  : outcome (dict Comp.t) :=
  match dict_get id dic with
  | Some _ => Return (dict_alter (Comp.set_value field val) id dic)
  | None => Raise KeyError
  end.

(** The body of the loop of [map_ids_and_component_combination_vals__set_fields]. *)
Definition set_component_field (id : string) (field : Comp.value_key) (val : float) : M unit :=
  fun st =>
    if String.prefix "R" id then
      match set_item (dic_resistors st) id field val with
      | Return d => (Return tt, with_resistors d st)
      | Raise e => (Raise e, st)
      end
    else if String.prefix "C" id then
      match set_item (dic_capacitors st) id field val with
      | Return d => (Return tt, with_capacitors d st)
      | Raise e => (Raise e, st)
      end
    else if String.prefix "L" id then
      match set_item (dic_inductors st) id field val with
      | Return d => (Return tt, with_inductors d st)
      | Raise e => (Raise e, st)
      end
    else (Raise ValueError, st).

(** [for id, val in zip(list_components_ids, combination)]: the shorter of
    the two ends the loop. *)
Fixpoint map_ids_and_component_combination_vals__set_fields
    (list_components_ids : list string) (combination : list float) (field : Comp.value_key)
  : M unit :=
  match list_components_ids, combination with
  | id :: ids, val :: vals =>
      set_component_field id field val ;;;
      map_ids_and_component_combination_vals__set_fields ids vals field
  | _, _ => ret tt
  end.

(** ** Lists of components and their enumeration *)

(** [list.sort()] on the pairs (name, list): a stable sort.  Python compares
    the names first and looks at the lists only when two names are equal;
    the names of a dictionary's components are distinct in every
    configuration the program is written for, and the model leaves entries
    of equal name in their dictionary order.  Strings compare as Python's
    do, character code by character code. *)
Fixpoint insert_by_name {V} (x : string * V) (l : list (string * V)) : list (string * V) :=
  match l with
  | [] => [x]
  | y :: l' => if String.ltb (fst x) (fst y) then x :: l else y :: insert_by_name x l'
  end.

Definition list_sort {V} (l : list (string * V)) : list (string * V) :=
  fold_left (fun sorted x => insert_by_name x sorted) l [].

Definition make_list_component_expanded_values (dic_component : dict Comp.t)
    (field_of_expansion_values_or_tolerance : Comp.expansion_key)
  : list (string * option (list float)) :=
  let list_component :=
    fold_left
      (fun list_component kc =>
         list_component
           ++ [(Comp.name (snd kc),
                Comp.get_expansion field_of_expansion_values_or_tolerance (snd kc))])
      dic_component [] in
  list_sort list_component.

(** One of the three loops of [make_two_combined_list_of_components]. *)
Definition append_components (l : list (string * option (list float)))
    (acc : list string * list (option (list float)))
  : list string * list (option (list float)) :=
  fold_left (fun acc x => (fst acc ++ [fst x], snd acc ++ [snd x])) l acc.

Definition make_two_combined_list_of_components
    (list_resistors list_capacitors list_inductors : list (string * option (list float)))
  : list string * list (option (list float)) :=
  append_components list_inductors
    (append_components list_capacitors (append_components list_resistors ([], []))).

(** The arguments of [itertools.product] on the unpacked lists must be iterable. *)
Fixpoint iterables (lists : list (option (list float))) : outcome (list (list float)) :=
  match lists with
  | [] => Return []
  | None :: _ => Raise TypeError
  | Some l :: rest => ls <~ iterables rest ;; Return (l :: ls)
  end.

(** [itertools.product], as the library documents it:
    [result = [[]]], then for each pool
    [result = [x+[y] for x in result for y in pool]]. *)
Definition product_step {A} (result : list (list A)) (pool : list A) : list (list A) :=
  flat_map (fun x => map (fun y => x ++ [y]) pool) result.

Definition itertools_product {A} (pools : list (list A)) : list (list A) :=
  fold_left product_step pools [[]].

(** The loop that multiplies the lengths of the sub-lists, before anything
    is enumerated. *)
Fixpoint count_evaluations (lists : list (option (list float))) (max_number_evaluations : Z)
  : outcome Z :=
  match lists with
  | [] => Return max_number_evaluations
  | None :: _ => Raise TypeError
  | Some lst :: rest =>
      let length := Z.of_nat (List.length lst) in
      count_evaluations rest (max_number_evaluations * length)%Z
  end.

(** ** The confirmation prompt *)

Definition input (max_number_evaluations : Z) (lines : list string) (st : state) : state :=
  with_event (Prompt max_number_evaluations) (with_stdin lines st).

(** [while(flag)]: the question is asked again until the answer is one of
    y, Y, n, N; the end of the input is an [EOFError] of [input]. *)
Fixpoint confirm (max_number_evaluations : Z) (lines : list string) (st : state)
  : outcome unit * state :=
  match lines with
  | [] => (Raise EOFError, input max_number_evaluations [] st)
  | resp :: rest =>
      let st' := input max_number_evaluations rest st in
      if String.eqb resp "y" || String.eqb resp "Y" then (Return tt, st')
      else if String.eqb resp "n" || String.eqb resp "N" then (Raise SystemExit, st')
      else confirm max_number_evaluations rest st'
  end.

Definition safety_gate (max_number_evaluations : Z) : M unit :=
  fun st =>
    if (25000000 <? max_number_evaluations)%Z
    then confirm max_number_evaluations (stdin st) st
    else (Return tt, st).

(** ** The customized part: the circuit and the two error measures *)

Definition tell (e : event) : M unit := fun st => (Return tt, with_event e st).

(** Step 2: the consistency test of the fixed parameters. *)
Definition consistency_testing_of_fixed_parameters : M bool :=
  VCC <- get_dic_in_fix_param "VCC" InFixP.value ;;
  V_low_threshold_target <-
    get_dic_target_calc_values "V_low_threshold" TCalcValues.C_TARGET_VALUE ;;
  V_high_threshold_target <-
    get_dic_target_calc_values "V_high_threshold" TCalcValues.C_TARGET_VALUE ;;
  let passed_tests := true in
  let passed_tests := if negb (0 <? VCC)%float then false else passed_tests in
  let passed_tests :=
    if negb (V_low_threshold_target <? V_high_threshold_target)%float
    then false else passed_tests in
  let passed_tests :=
    if negb ((0 <=? V_low_threshold_target)%float && (V_low_threshold_target <=? VCC)%float)
    then false else passed_tests in
  let passed_tests :=
    if negb ((0 <=? V_high_threshold_target)%float && (V_high_threshold_target <=? VCC)%float)
    then false else passed_tests in
  ret passed_tests.

(** Step 3: the equations of the circuit, on the current combination.
    First the reads of the fixed parameters and of the current values, then
    the two thresholds. *)
Definition circuit_equations : M (float * float) :=
  VCC <- get_dic_in_fix_param "VCC" InFixP.value ;;
  R1 <- get_dic_resistors "R1" Comp.C_CURR_VALUE ;;
  R2 <- get_dic_resistors "R2" Comp.C_CURR_VALUE ;;
  R3 <- get_dic_resistors "R3" Comp.C_CURR_VALUE ;;
  C1 <- get_dic_capacitors "C1" Comp.C_CURR_VALUE ;;
  C2 <- get_dic_capacitors "C2" Comp.C_CURR_VALUE ;;
  L1 <- get_dic_inductors "L1" Comp.C_CURR_VALUE ;;
  R_total_low <- lift (py_div (R2 * R3)%float (R2 + R3)%float) ;;
  V_low_threshold <- lift (py_div (VCC * R_total_low)%float (R1 + R_total_low)%float) ;;
  R_total_high <- lift (py_div (R1 * R3)%float (R1 + R3)%float) ;;
  V_high_threshold <- lift (py_div (VCC * R2)%float (R2 + R_total_high)%float) ;;
  ret (V_low_threshold, V_high_threshold).

(** The whole of step 3: the call is recorded in the log, and the two
    values are written in the dictionary of the targets. *)
Definition calc_evaluation_of_circuit_equations : M unit :=
  tell Evaluate ;;;
  v <- circuit_equations ;;
  set_dic_target_calc_values "V_low_threshold" TCalcValues.C_CALC_VALUE (fst v) ;;;
  set_dic_target_calc_values "V_high_threshold" TCalcValues.C_CALC_VALUE (snd v).

(** The four reads both error measures start with: the two targets and the
    two values the circuit equations obtained. *)
Definition read_targets_and_obtained : M (float * float * float * float) :=
  V_low_threshold_target <-
    get_dic_target_calc_values "V_low_threshold" TCalcValues.C_TARGET_VALUE ;;
  V_high_threshold_target <-
    get_dic_target_calc_values "V_high_threshold" TCalcValues.C_TARGET_VALUE ;;
  V_low_threshold_obtained <-
    get_dic_target_calc_values "V_low_threshold" TCalcValues.C_CALC_VALUE ;;
  V_high_threshold_obtained <-
    get_dic_target_calc_values "V_high_threshold" TCalcValues.C_CALC_VALUE ;;
  ret (V_low_threshold_target, V_high_threshold_target,
       V_low_threshold_obtained, V_high_threshold_obtained).

(** The Manhattan distance of step 5. *)
Definition absolute_distance (tl th ol oh : float) : float :=
  (math_fabs (tl - ol) + math_fabs (th - oh))%float.

(** Step 5: the error of the worst case. *)
Definition calc_absolute_distance_error_worst : M bool :=
  worst_prev_error <- get_worst_prev_error ;;
  r <- read_targets_and_obtained ;;
  let '(tl, th, ol, oh) := r in
  let current_error := absolute_distance tl th ol oh in
  if (worst_prev_error <? current_error)%float then
    set_worst_prev_error current_error ;;;
    set_dic_target_calc_values "V_low_threshold" TCalcValues.C_WORST_VALUE ol ;;;
    set_dic_target_calc_values "V_high_threshold" TCalcValues.C_WORST_VALUE oh ;;;
    ret true
  else ret false.

(** ** The constants and globals of the module *)

(** E24 standard resistor series. *)
Definition E24_resistor_values : list float :=
  [1.0; 1.1; 1.2; 1.3; 1.5; 1.6; 1.8; 2.0; 2.2;
   2.4; 2.7; 3.0; 3.3; 3.6; 3.9; 4.3; 4.7; 5.1;
   5.6; 6.2; 6.8; 7.5; 8.2; 9.1]%float.

Definition E12_capacitor_values : list float :=
  [1.0; 1.2; 1.5; 1.8; 2.2; 2.7; 3.3; 3.9; 4.7;
   5.6; 6.8; 8.2]%float.

(** Global best previous error, as the module sets it when it is loaded. *)
Definition initial_best_prev_error : float := 10000000000.0%float.

(** Global worst previous error, as the module sets it when it is loaded. *)
Definition initial_worst_prev_error : float := 0.0%float.

Section Passes.

(** [math.pow] is the C library's [pow]: it is a parameter of the model.  It
    raises ([OverflowError], [ValueError]) where the C function reports a
    range or domain error. *)
Variable math_pow : float -> float -> outcome float.

(** [time.time()] reads the clock of the system.  The best pass reads it
    twice, before its loop and at its thousandth combination: the two
    readings are parameters of the model. *)
Variables start_time end_time : float.

(** The Euclidean distance of step 4. *)
Definition distance (tl th ol oh : float) : outcome float :=
  p_low <~ math_pow (tl - ol)%float 2%float ;;
  p_high <~ math_pow (th - oh)%float 2%float ;;
  math_sqrt (p_low + p_high)%float.

(** Step 4: the error of the current combination against the best so far. *)
Definition calc_distance_error_best : M bool :=
  best_prev_error <- get_best_prev_error ;;
  r <- read_targets_and_obtained ;;
  let '(tl, th, ol, oh) := r in
  current_error <- lift (distance tl th ol oh) ;;
  if (current_error <? best_prev_error)%float then
    set_best_prev_error current_error ;;;
    set_dic_target_calc_values "V_low_threshold" TCalcValues.C_BEST_VALUE ol ;;;
    set_dic_target_calc_values "V_high_threshold" TCalcValues.C_BEST_VALUE oh ;;;
    ret true
  else ret false.

(** ** The two search passes *)

(** The error a pass computes for a combination, from a given state: the
    combination becomes the current values, the circuit equations run, and
    the measure is taken between the targets and the values obtained. *)
Definition scored (measure : float -> float -> float -> float -> outcome float)
    (list_components_ids : list string) (combination : list float) : M float :=
  map_ids_and_component_combination_vals__set_fields
    list_components_ids combination Comp.C_CURR_VALUE ;;;
  calc_evaluation_of_circuit_equations ;;;
  r <- read_targets_and_obtained ;;
  let '(tl, th, ol, oh) := r in
  lift (measure tl th ol oh).

Definition best_error_of (ids : list string) (combination : list float) (st : state)
  : outcome float :=
  fst (scored distance ids combination st).

Definition worst_error_of (ids : list string) (combination : list float) (st : state)
  : outcome float :=
  fst (scored (fun tl th ol oh => Return (absolute_distance tl th ol oh))
              ids combination st).

(** The body of the loop of [full_search_of_R_C_L_component_values], after
    the estimate of the running time and the progress marks. *)
Definition best_iteration (list_components_ids : list string) (combination : list float)
  : M unit :=
  map_ids_and_component_combination_vals__set_fields
    list_components_ids combination Comp.C_CURR_VALUE ;;;
  calc_evaluation_of_circuit_equations ;;;
  better_combination_values <- calc_distance_error_best ;;
  if better_combination_values then
    map_ids_and_component_combination_vals__set_fields
      list_components_ids combination Comp.C_BEST_VALUE
  else ret tt.

(** Whether the combination is taken as the best so far: the steps of an
    iteration up to the answer of [calc_distance_error_best]. *)
Definition qualifies_best (ids : list string) (combination : list float) : M bool :=
  map_ids_and_component_combination_vals__set_fields ids combination Comp.C_CURR_VALUE ;;;
  calc_evaluation_of_circuit_equations ;;;
  calc_distance_error_best.

(** The sorted lists of the three dictionaries, combined. *)
Definition combined_lists (field : Comp.expansion_key) (st : state)
  : list string * list (option (list float)) :=
  let list_resistors := make_list_component_expanded_values (dic_resistors st) field in
  let list_capacitors := make_list_component_expanded_values (dic_capacitors st) field in
  let list_inductors := make_list_component_expanded_values (dic_inductors st) field in
  make_two_combined_list_of_components list_resistors list_capacitors list_inductors.

(** [iter_combinations = itertools.product] of the lists, then the loop over
    the combinations, as the tolerance analysis writes it. *)
Definition enumerate (iteration : list string -> list float -> M unit)
    (list_components_ids : list string)
    (list_components_list_values : list (option (list float))) : M unit :=
  pools <- lift (iterables list_components_list_values) ;;
  let iter_combinations := itertools_product pools in
  for_each iter_combinations (iteration list_components_ids).

(** [five_perc = int(max_number_evaluations / 20.0)]: the count is
    converted to a float for the division. *)
Definition five_percent (max_number_evaluations : Z) : outcome Z :=
  n <~ py_float_of_int max_number_evaluations ;;
  py_int (n / 20.0)%float.

(** The estimate of the running time that is printed at index 1000: what
    its arithmetic and its format can raise. *)
Definition time_estimate (max_number_evaluations : Z) : outcome unit :=
  n <~ py_float_of_int max_number_evaluations ;;
  let total_seconds := ((end_time - start_time) * n / 1000.0)%float in
  hours <~ math_floor (total_seconds / 3600.0)%float ;;
  h <~ py_float_of_int (hours * 3600)%Z ;;
  minuts <~ math_floor ((total_seconds - h) / 60.0)%float ;;
  h' <~ py_float_of_int (hours * 3600)%Z ;;
  m <~ py_float_of_int (minuts * 60)%Z ;;
  let seconds := (total_seconds - h' - m)%float in
  shown <~ py_int seconds ;;
  Return tt.

(** The progress marks printed after index 1001: what their remainders can
    raise. *)
Definition progress_marks (index five_perc : Z) : outcome unit :=
  if (1001 <? index)%Z then
    r10 <~ py_mod index (five_perc * 10)%Z ;;
    r5 <~ py_mod index (five_perc * 5)%Z ;;
    if (r5 =? 0)%Z then Return tt
    else r1 <~ py_mod index five_perc ;; Return tt
  else Return tt.

(** The loop of the best pass over the combinations, with its index. *)
Fixpoint search_loop (list_components_ids : list string)
    (max_number_evaluations five_perc index : Z) (iter_combinations : list (list float))
  : M unit :=
  match iter_combinations with
  | [] => ret tt
  | combination :: rest =>
      lift (if (index =? 1000)%Z then time_estimate max_number_evaluations else Return tt) ;;;
      lift (progress_marks index five_perc) ;;;
      best_iteration list_components_ids combination ;;;
      search_loop list_components_ids max_number_evaluations five_perc (index + 1)%Z rest
  end.

(** [iter_combinations = itertools.product] of the lists, then the loop of
    the best pass. *)
Definition search (max_number_evaluations five_perc : Z)
    (list_components_ids : list string)
    (list_components_list_values : list (option (list float))) : M unit :=
  pools <- lift (iterables list_components_list_values) ;;
  let iter_combinations := itertools_product pools in
  search_loop list_components_ids max_number_evaluations five_perc 0%Z iter_combinations.

Definition full_search_of_R_C_L_component_values : M unit :=
  fun st =>
    let res := combined_lists Comp.C_EXPANDED_VALUES st in
    let list_components_ids := fst res in
    let list_components_list_values := snd res in
    (max_number_evaluations <- lift (count_evaluations list_components_list_values 1%Z) ;;
     five_perc <- lift (five_percent max_number_evaluations) ;;
     safety_gate max_number_evaluations ;;;
     search max_number_evaluations five_perc
            list_components_ids list_components_list_values) st.

Definition worst_iteration (list_components_ids : list string) (combination : list float)
  : M unit :=
  map_ids_and_component_combination_vals__set_fields
    list_components_ids combination Comp.C_CURR_VALUE ;;;
  calc_evaluation_of_circuit_equations ;;;
  even_worst_combination_values <- calc_absolute_distance_error_worst ;;
  if even_worst_combination_values then
    map_ids_and_component_combination_vals__set_fields
      list_components_ids combination Comp.C_WORST_VALUE
  else ret tt.

(** The three calls of [expand_component_tolerance_value_list] that open the
    worst pass, each on one global dictionary. *)
Definition expand_tolerances : M unit :=
  (fun st => let (o, d) := expand_component_tolerance_value_list (dic_resistors st) in
             (o, with_resistors d st)) ;;;
  (fun st => let (o, d) := expand_component_tolerance_value_list (dic_capacitors st) in
             (o, with_capacitors d st)) ;;;
  (fun st => let (o, d) := expand_component_tolerance_value_list (dic_inductors st) in
             (o, with_inductors d st)).

Definition worst_tolerance_component_analysis : M unit :=
  expand_tolerances ;;;
  (fun st =>
     let res := combined_lists Comp.C_EXPANDED_TOLERANCE st in
     let list_components_ids := fst res in
     let list_components_list_values := snd res in
     enumerate worst_iteration list_components_ids list_components_list_values st).

(** ** The main program *)

Definition is_number (v : option float) : bool :=
  match v with
  | Some _ => true
  | None => false
  end.

(** A report line formats its numbers with [%f], and computes the distance
    to the target: a [None] among them is a [TypeError]. *)
Definition print_numbers (all_numbers : bool) : M unit :=
  if all_numbers then ret tt else raise TypeError.

Definition print_specification : M unit :=
  fun st =>
    (print_numbers (forallb (fun kv => is_number (InFixP.value (snd kv))) (dic_in_fix_param st)) ;;;
     print_numbers (forallb (fun kv => is_number (TCalcValues.target_value (snd kv)))
                            (dic_target_calc_values st))) st.

Definition print_solution (target_field : TCalcValues.key) (field : Comp.value_key) : M unit :=
  fun st =>
    let component_lines :=
      forallb (fun kv => is_number (Comp.get_value field (snd kv))
                         && is_number (Comp.tolerance (snd kv))) in
    (print_numbers (forallb (fun kv => is_number (TCalcValues.get target_field (snd kv))
                                       && is_number (TCalcValues.target_value (snd kv)))
                            (dic_target_calc_values st)) ;;;
     print_numbers (component_lines (dic_resistors st)) ;;;
     print_numbers (component_lines (dic_capacitors st)) ;;;
     print_numbers (component_lines (dic_inductors st))) st.

(** The three calls of [expand_component] of [main]; the inductors have no
    standard series. *)
Definition expand_components : M unit :=
  (fun st => let (o, d) := expand_component (dic_resistors st) (Some E24_resistor_values) in
             (o, with_resistors d st)) ;;;
  (fun st => let (o, d) := expand_component (dic_capacitors st) (Some E12_capacitor_values) in
             (o, with_capacitors d st)) ;;;
  (fun st => let (o, d) := expand_component (dic_inductors st) None in
             (o, with_inductors d st)).

Definition main : M unit :=
  print_specification ;;;
  passed_tests <- consistency_testing_of_fixed_parameters ;;
  if negb passed_tests then ret tt
  else
    expand_components ;;;
    full_search_of_R_C_L_component_values ;;;
    print_solution TCalcValues.C_BEST_VALUE Comp.C_BEST_VALUE ;;;
    worst_tolerance_component_analysis ;;;
    print_solution TCalcValues.C_WORST_VALUE Comp.C_WORST_VALUE.

End Passes.

(** ** The configuration that comes with the program *)

Definition component (name : string) (value : option float)
    (value_set value_scale : option (list float)) (tolerance : float) (description : string)
  : string * Comp.t :=
  (name, Comp.make name value value_set value_scale (Some tolerance) description
                   None None None None None).

Definition target (name : string) (target_value : float) (description : string)
  : string * TCalcValues.t :=
  (name, TCalcValues.make name (Some target_value) "Volt" description None None None).

Definition configured_fix_param : dict InFixP.t :=
  [("VCC", InFixP.make "VCC" (Some 5.0%float) "Volt" "Positive supply reference voltage.");
   ("GND", InFixP.make "GND" (Some 0.0%float) "Volt" "Ground reference voltage.")]%string.

Definition configured_resistors : dict Comp.t :=
  [component "R1" None None (Some [100; 1000; 10000; 100000]%float) 1.0
             "Upper resistor of voltage divider.";
   component "R2" None None (Some [100; 1000; 10000; 100000]%float) 1.0
             "Lower resistor of voltage divider.";
   component "R3" None None (Some [100; 1000; 10000; 100000]%float) 1.0
             "OpAmp feedback resistor."]%string.

Definition configured_capacitors : dict Comp.t :=
  [component "C1" (Some 1e-6%float) None None 10.0 "Not used capacitor.";
   component "C2" None (Some [1e-6; 10e-6]%float) None 1.0 "Not used capacitor."]%string.

Definition configured_inductors : dict Comp.t :=
  [component "L1" (Some 1e-3%float) None None 20.0 "Not used inductor."]%string.

Definition configured_targets : dict TCalcValues.t :=
  [target "V_low_threshold" 0.555 "The threshold for the lower voltage.";
   target "V_high_threshold" 0.575 "The threshold for the higher voltage."]%string.

(** The state of a freshly loaded module, given the dictionaries written in
    its customizing section and the lines waiting on standard input. *)
Definition loaded (fix_param : dict InFixP.t) (resistors capacitors inductors : dict Comp.t)
    (targets : dict TCalcValues.t) (lines : list string) : state :=
  mk_state fix_param resistors capacitors inductors targets
           initial_best_prev_error initial_worst_prev_error lines [].

Definition configured (lines : list string) : state :=
  loaded configured_fix_param configured_resistors configured_capacitors
         configured_inductors configured_targets lines.

(** For the exponent 2, the only one the program uses, [pow] of the C
    library is taken to be the rounded product, with the range error
    [math.pow] reports when a finite argument overflows. *)
Definition pow_of_product (x y : float) : outcome float :=
  let p := (x * x)%float in
  if PrimFloat.is_infinity p && negb (PrimFloat.is_infinity x)
  then Raise OverflowError else Return p.

(** * Notions used in the statements and in the proofs *)

Definition no_source (c : Comp.t) : Prop :=
  Comp.value c = None /\ Comp.value_set c = None /\ Comp.value_scale c = None.

(** The third value of a band, to tell two bands apart. *)
Definition upper_of (band : outcome (list float)) : float :=
  match band with
  | Return [_; _; upper] => upper
  | _ => 0%float
  end.

(** Ascending order of the names of two entries. *)
Definition name_le {V} (x y : string * V) : Prop := String.leb (fst x) (fst y) = true.

(** The product of the lengths of the pools. *)
Definition number_of_combinations {A} (pools : list (list A)) : nat :=
  fold_right (fun pool n => List.length pool * n) 1 pools.


(** The entries a dictionary contributes to a pass: name and candidate list. *)
Definition entries (field : Comp.expansion_key) (d : dict Comp.t)
  : list (string * option (list float)) :=
  map (fun kc => (Comp.name (snd kc), Comp.get_expansion field (snd kc))) d.

(** The candidate lists of the configuration that comes with the program,
    once [main] has expanded them. *)
Definition configured_lists : list string * list (option (list float)) :=
  combined_lists Comp.C_EXPANDED_VALUES (snd (expand_components (configured []))).

(** A float that is a NaN or whose sign bit is clear. *)
Definition SFnonneg (x : spec_float) : Prop :=
  match x with
  | S754_nan => True
  | S754_zero s | S754_infinity s | S754_finite s _ _ => s = false
  end.

(** A relation between the state before and the state after that every
    step of a computation maintains. *)
Definition preserves (R : state -> state -> Prop) {A} (m : M A) : Prop :=
  forall st, R st (snd (m st)).

Class Frame (R : state -> state -> Prop) : Prop := {
  frame_refl : forall st, R st st;
  frame_trans : forall a b c, R a b -> R b c -> R a c
}.

(** Nothing is read from standard input, and the only events are calls of
    the circuit equations. *)
Definition evaluating (st st' : state) : Prop :=
  stdin st' = stdin st /\ exists j, log st' = log st ++ repeat Evaluate j.

Definition same_best (st st' : state) : Prop :=
  g_best_prev_error st' = g_best_prev_error st.

Definition same_worst (st st' : state) : Prop :=
  g_worst_prev_error st' = g_worst_prev_error st.

(** The current value of a component, as the circuit equations find it:
    [None] for a key that is absent. *)
Definition curr_at (k : string) (d : dict Comp.t) : option (option float) :=
  option_map Comp.curr_value (dict_get k d).

Definition target_at (k : string) (d : dict TCalcValues.t) : option (option float) :=
  option_map TCalcValues.target_value (dict_get k d).

(** The dictionary an identifier is routed to by its first letter. *)
Inductive kind : Type := Resistor | Capacitor | Inductor.

Definition route (id : string) : option kind :=
  if String.prefix "R" id then Some Resistor
  else if String.prefix "C" id then Some Capacitor
  else if String.prefix "L" id then Some Inductor
  else None.

Definition dic_of (kd : kind) (st : state) : dict Comp.t :=
  match kd with
  | Resistor => dic_resistors st
  | Capacitor => dic_capacitors st
  | Inductor => dic_inductors st
  end.

Definition with_dic (kd : kind) (d : dict Comp.t) (st : state) : state :=
  match kd with
  | Resistor => with_resistors d st
  | Capacitor => with_capacitors d st
  | Inductor => with_inductors d st
  end.

(** Two dictionaries of one kind hold the same current values, but for the
    components that the identifiers [rem] are about to overwrite, which
    need only be present in both or absent from both. *)
Definition same_curr (rem : list string) (kd : kind) (d d' : dict Comp.t) : Prop :=
  forall k,
    curr_at k d' = curr_at k d
    \/ (In k rem /\ route k = Some kd /\ (curr_at k d' = None <-> curr_at k d = None)).

(** Two states in which a combination written over the identifiers [rem]
    is evaluated alike: the fixed parameters are the same, the targets hold
    the same target values, and the components the same current values but
    where the combination overwrites them. *)
Record similar (rem : list string) (st st' : state) : Prop := mk_similar {
  sim_fix : dic_in_fix_param st' = dic_in_fix_param st;
  sim_targets : forall k, target_at k (dic_target_calc_values st')
                          = target_at k (dic_target_calc_values st);
  sim_comp : forall kd, same_curr rem kd (dic_of kd st) (dic_of kd st')
}.

(** The measure taken on the outcome of the circuit equations and the two
    target entries: what a pass computes for the combination in place. *)
Definition measured (measure : float -> float -> float -> float -> outcome float)
    (circuit : outcome (float * float)) (tl th : option (option float)) : outcome float :=
  match circuit with
  | Raise e => Raise e
  | Return (vl, vh) =>
      match tl, th with
      | Some (Some tlv), Some (Some thv) => measure tlv thv vl vh
      | _, _ => Raise ValueError
      end
  end.

Definition evaluate_and_measure (measure : float -> float -> float -> float -> outcome float)
  : M float :=
  calc_evaluation_of_circuit_equations ;;;
  r <- read_targets_and_obtained ;;
  let '(tl, th, ol, oh) := r in
  lift (measure tl th ol oh).

(** An answer the prompt accepts as yes, as no. *)
Definition accepts (resp : string) : bool := String.eqb resp "y" || String.eqb resp "Y".

Definition declines (resp : string) : bool := String.eqb resp "n" || String.eqb resp "N".

(** Two states that differ by the interaction only: the lines read and the
    log. *)
Definition same_data (st st' : state) : Prop :=
  dic_in_fix_param st' = dic_in_fix_param st
  /\ dic_resistors st' = dic_resistors st
  /\ dic_capacitors st' = dic_capacitors st
  /\ dic_inductors st' = dic_inductors st
  /\ dic_target_calc_values st' = dic_target_calc_values st
  /\ g_best_prev_error st' = g_best_prev_error st
  /\ g_worst_prev_error st' = g_worst_prev_error st.

(** A pool is the band of a component: the three values that
    [expand_each_component_tolerance] builds from its best value and its
    tolerance. *)
Definition band_of (d : dict Comp.t) (pool : list float) : Prop :=
  exists k c,
    In (k, c) d
    /\ expand_each_component_tolerance (Comp.best_value c) (Comp.tolerance c) = Return pool.

(** A configuration of twelve combinations: two values for R1, three for
    R2, the two of C2, the rest fixed. *)
Definition bench (VCC : float) (lines : list string) : state :=
  loaded
    [("VCC", InFixP.make "VCC" (Some VCC) "Volt" "Positive supply reference voltage.");
     ("GND", InFixP.make "GND" (Some 0.0%float) "Volt" "Ground reference voltage.")]%string
    [component "R1" None (Some [1000; 2200]%float) None 1.0 "Upper resistor.";
     component "R2" None (Some [100; 120; 150]%float) None 1.0 "Lower resistor.";
     component "R3" (Some 10000%float) None None 1.0 "Feedback resistor."]%string
    configured_capacitors configured_inductors configured_targets lines.

(** The bench under the 5 V of the configuration that comes with the
    program: expanded, then searched, then analysed. *)
Definition bench_expanded : state := snd (expand_components (bench 5.0 [])).

Definition bench_searched : state :=
  snd (full_search_of_R_C_L_component_values pow_of_product 0 1 bench_expanded).

Definition bench_analysed : state := snd (worst_tolerance_component_analysis bench_searched).



(** The same bench under a supply of 1e12 V, which the consistency test
    accepts: the thresholds the circuit obtains are then far above 1e10. *)
Definition high_supply_expanded : state := snd (expand_components (bench 1e12 [])).

Definition high_supply_searched : state :=
  snd (full_search_of_R_C_L_component_values pow_of_product 0 1 high_supply_expanded).

(** The identifiers and the combinations of the bench. *)
Definition bench_ids : list string := ["R1"; "R2"; "R3"; "C1"; "C2"; "L1"]%string.

Definition bench_pools : list (list float) :=
  [[1000; 2200]; [100; 120; 150]; [10000]; [1e-6]; [1e-6; 10e-6]; [1e-3]]%float.

(** The configuration that comes with the program, with the second
    capacitor given three scales of the E12 series: 96*96*96*1*36*1
    combinations, above the threshold. *)
Definition large (lines : list string) : state :=
  loaded configured_fix_param configured_resistors
         [component "C1" (Some 1e-6%float) None None 10.0 "Not used capacitor.";
          component "C2" None None (Some [1e-9; 1e-8; 1e-7]%float) 1.0 "Not used capacitor."]%string
         configured_inductors configured_targets lines.

Definition large_expanded (lines : list string) : state := snd (expand_components (large lines)).




(** A resistor with none of the three sources, among the components of the
    configuration that comes with the program. *)
Definition without_source : state :=
  loaded configured_fix_param
         (configured_resistors
            ++ [component "R4" None None None 1.0 "No source of values."]%string)
         configured_capacitors configured_inductors configured_targets [].

(** ** Notions of the further properties *)

(** The value a component holds under one of its three value fields, as a
    getter finds it: [None] for a key that is absent. *)
Definition value_at (field : Comp.value_key) (k : string) (d : dict Comp.t)
  : option (option float) :=
  option_map (Comp.get_value field) (dict_get k d).

(** The getter of the dictionary of a kind. *)
Definition get_dic (kd : kind) : string -> Comp.value_key -> M float :=
  match kd with
  | Resistor => get_dic_resistors
  | Capacitor => get_dic_capacitors
  | Inductor => get_dic_inductors
  end.

(** Two states with the same globals but for the three dictionaries of
    components. *)
Definition same_but_components (st st' : state) : Prop :=
  dic_in_fix_param st' = dic_in_fix_param st
  /\ dic_target_calc_values st' = dic_target_calc_values st
  /\ g_best_prev_error st' = g_best_prev_error st
  /\ g_worst_prev_error st' = g_worst_prev_error st
  /\ stdin st' = stdin st
  /\ log st' = log st.

(** Two states with the same globals but for the dictionary of the targets. *)
Definition same_but_targets (st st' : state) : Prop :=
  dic_in_fix_param st' = dic_in_fix_param st
  /\ dic_resistors st' = dic_resistors st
  /\ dic_capacitors st' = dic_capacitors st
  /\ dic_inductors st' = dic_inductors st
  /\ g_best_prev_error st' = g_best_prev_error st
  /\ g_worst_prev_error st' = g_worst_prev_error st
  /\ stdin st' = stdin st
  /\ log st' = log st.

(** The components whose current value the circuit equations read, each
    with the dictionary it is read from. *)
Definition components_read : list (kind * string) :=
  [(Resistor, "R1"); (Resistor, "R2"); (Resistor, "R3");
   (Capacitor, "C1"); (Capacitor, "C2"); (Inductor, "L1")]%string.

(** A component that holds a current value. *)
Definition has_current_value (st : state) (kk : kind * string) : Prop :=
  exists v, curr_at (snd kk) (dic_of (fst kk) st) = Some (Some v).

(** The arithmetic of the circuit equations, on the numbers read. *)
Definition thresholds (VCC R1 R2 R3 : float) : outcome (float * float) :=
  R_total_low <~ py_div (R2 * R3)%float (R2 + R3)%float ;;
  V_low_threshold <~ py_div (VCC * R_total_low)%float (R1 + R_total_low)%float ;;
  R_total_high <~ py_div (R1 * R3)%float (R1 + R3)%float ;;
  V_high_threshold <~ py_div (VCC * R2)%float (R2 + R_total_high)%float ;;
  Return (V_low_threshold, V_high_threshold).

(** What the customizing section writes of a component, and of a target:
    the specification, as opposed to the fields the program fills in. *)
Definition specification_of (c : Comp.t)
  : string * option float * option (list float) * option (list float) * option float * string :=
  (Comp.name c, Comp.value c, Comp.value_set c, Comp.value_scale c, Comp.tolerance c,
   Comp.description c).

Definition target_specification_of (t : TCalcValues.t)
  : string * option float * string * string :=
  (TCalcValues.name t, TCalcValues.target_value t, TCalcValues.units t,
   TCalcValues.description t).

(** A dictionary seen through a view of its entries: the keys in their
    order, each with what the view shows of its entry. *)
Definition viewed {V X} (view : V -> X) (d : dict V) : list (string * X) :=
  map (fun kv => (fst kv, view (snd kv))) d.

(** Two states whose dictionaries of components and of targets show the
    same through two views. *)
Definition keeps {X Y} (view : Comp.t -> X) (target_view : TCalcValues.t -> Y)
    (st st' : state) : Prop :=
  (forall kd, viewed view (dic_of kd st') = viewed view (dic_of kd st))
  /\ viewed target_view (dic_target_calc_values st')
     = viewed target_view (dic_target_calc_values st).

(** The specification is as it was. *)
Definition same_specification (st st' : state) : Prop :=
  dic_in_fix_param st' = dic_in_fix_param st
  /\ keeps specification_of target_specification_of st st'.

(** The best solution is as it was: the best error, the best value of
    every component and the best calculated value of every target, and the
    candidate lists they were searched in. *)
Definition same_best_solution (st st' : state) : Prop :=
  g_best_prev_error st' = g_best_prev_error st
  /\ keeps (fun c => (Comp.best_value c, Comp.expanded_values c)) TCalcValues.best_value st st'.

(** The worst case is as it was. *)
Definition same_worst_case (st st' : state) : Prop :=
  g_worst_prev_error st' = g_worst_prev_error st
  /\ keeps (fun c => (Comp.worst_value c, Comp.expanded_tolerance c))
           TCalcValues.worst_value st st'.

(** The best error is as it was, or strictly below it. *)
Definition best_not_above (st st' : state) : Prop :=
  g_best_prev_error st' = g_best_prev_error st
  \/ (g_best_prev_error st' <? g_best_prev_error st)%float = true.

(** The worst error is as it was, or strictly above it. *)
Definition worst_not_below (st st' : state) : Prop :=
  g_worst_prev_error st' = g_worst_prev_error st
  \/ (g_worst_prev_error st <? g_worst_prev_error st')%float = true.

(** The fixed parameters are as they were. *)
Definition same_fix_param (st st' : state) : Prop :=
  dic_in_fix_param st' = dic_in_fix_param st.

(** Nothing was read from the input and nothing was logged. *)
Definition same_interaction (st st' : state) : Prop :=
  stdin st' = stdin st /\ log st' = log st.

(** The number of components of the three dictionaries. *)
Definition number_of_components (st : state) : nat :=
  List.length (dic_resistors st) + List.length (dic_capacitors st)
  + List.length (dic_inductors st).

(** The state once the question has been asked [asked] times and the lines
    left to read are [lines]. *)
Definition prompted (n : Z) (asked : nat) (lines : list string) (st : state) : state :=
  mk_state (dic_in_fix_param st) (dic_resistors st) (dic_capacitors st) (dic_inductors st)
           (dic_target_calc_values st) (g_best_prev_error st) (g_worst_prev_error st)
           lines (log st ++ repeat (Prompt n) asked).

(** A line that answers neither yes nor no. *)
Definition no_answer (resp : string) : bool := negb (accepts resp) && negb (declines resp).

(** The two thresholds the circuit equations obtain for a combination,
    evaluated from a given state. *)
Definition obtained_low (ids : list string) (combination : list float) (st : state)
  : outcome float :=
  fst (scored (fun _ _ ol _ => Return ol) ids combination st).

Definition obtained_high (ids : list string) (combination : list float) (st : state)
  : outcome float :=
  fst (scored (fun _ _ _ oh => Return oh) ids combination st).

(** A combination is on record in a state: under the field of the
    components every identifier reads as its value of the combination, and
    under the field of the targets the two thresholds read as the values
    the circuit equations obtain for the combination, evaluated from the
    state [from]. *)
Definition recorded (field : Comp.value_key) (target_field : TCalcValues.key)
    (ids : list string) (combination : list float) (from st : state) : Prop :=
  Forall2 (fun id v => exists kd, route id = Some kd
                                  /\ get_dic kd id field st = (Return v, st))
          ids combination
  /\ exists vl vh,
      obtained_low ids combination from = Return vl
      /\ obtained_high ids combination from = Return vh
      /\ get_dic_target_calc_values "V_low_threshold" target_field st = (Return vl, st)
      /\ get_dic_target_calc_values "V_high_threshold" target_field st = (Return vh, st).

(** Everything a component holds but its list of expanded values. *)
Definition but_expanded_values (c : Comp.t) :=
  (specification_of c, Comp.curr_value c, Comp.best_value c, Comp.worst_value c,
   Comp.expanded_tolerance c).

(** A pool is the expansion of a component of the state, with the standard
    series [main] gives to its dictionary: E24 for the resistors, E12 for
    the capacitors, none for the inductors. *)
Definition expansion_of (st : state) (pool : list float) : Prop :=
  exists k c series,
    ((In (k, c) (dic_resistors st) /\ series = Some E24_resistor_values)
     \/ (In (k, c) (dic_capacitors st) /\ series = Some E12_capacitor_values)
     \/ (In (k, c) (dic_inductors st) /\ series = None))
    /\ expand_values c series = Return pool.

(** The names the components of a dictionary give themselves. *)
Definition names (d : dict Comp.t) : list string := map (fun kc => Comp.name (snd kc)) d.

(** The first combination of the bench. *)
Definition bench_first_combination : list float :=
  [1000; 100; 10000; 1e-6; 1e-6; 1e-3]%float.

(** The bench once its first combination is written as the current values. *)
Definition bench_first : state :=
  snd (map_ids_and_component_combination_vals__set_fields
         bench_ids bench_first_combination Comp.C_CURR_VALUE bench_expanded).

(** The bench with an empty value set for R3, expanded. *)
Definition bench_without_candidates : state :=
  snd (expand_components
         (loaded configured_fix_param
            [component "R1" None (Some [1000; 2200]%float) None 1.0 "Upper resistor.";
             component "R2" None (Some [100; 120; 150]%float) None 1.0 "Lower resistor.";
             component "R3" None (Some []) None 1.0 "Feedback resistor."]%string
            configured_capacitors configured_inductors configured_targets [])).

(** The bench under a supply of 0.5 V, below the higher target. *)
Definition bench_low_supply : state := bench 0.5 [].

(** The expanded bench with its resistors in the opposite order. *)
Definition bench_reversed : state :=
  with_resistors (rev (dic_resistors bench_expanded)) bench_expanded.

(** Everything a component holds but its tolerance band. *)
Definition but_expanded_tolerance (c : Comp.t) :=
  (specification_of c, Comp.curr_value c, Comp.best_value c, Comp.worst_value c,
   Comp.expanded_values c).

(** A component whose band is three values around its best value. *)
Definition has_band (kc : string * Comp.t) : Prop :=
  exists lower best upper,
    Comp.best_value (snd kc) = Some best
    /\ Comp.expanded_tolerance (snd kc) = Some [lower; best; upper].

(** * Properties *)

(** ** Value expansion *)

Lemma append_scaled_map (scale : float) (series values_list : list float) :
  append_scaled scale series values_list
  = values_list ++ map (fun val => (val * scale)%float) series.
Proof.
  unfold append_scaled.
  revert values_list.
  induction series as [|val series IH]; intros values_list; simpl.
  - now rewrite app_nil_r.
  - rewrite IH, <- app_assoc. reflexivity.
Qed.

Lemma scale_loop_flat_map (series values_scale values_list : list float) :
  scale_loop (Some series) values_scale values_list
  = Return (values_list
            ++ flat_map (fun scale => map (fun val => (val * scale)%float) series) values_scale).
Proof.
  revert values_list.
  induction values_scale as [|scale rest IH]; intros values_list; simpl.
  - now rewrite app_nil_r.
  - rewrite IH, append_scaled_map, <- app_assoc. reflexivity.
Qed.

Lemma length_scaled (series values_scale : list float) :
  List.length (flat_map (fun scale => map (fun val => (val * scale)%float) series) values_scale)
  = List.length values_scale * List.length series.
Proof.
  induction values_scale as [|scale rest IH]; simpl.
  - reflexivity.
  - rewrite length_app, length_map, IH. reflexivity.
Qed.

(** What [expand_component] stores: every component of the dictionary gets
    the list [expand_values] gives it, when none of them raises. *)
Lemma expand_component_returns (series : option (list float)) (d : dict Comp.t) :
  Forall (fun kc => exists l, expand_values (snd kc) series = Return l) d ->
  fst (expand_component d series) = Return tt
  /\ Forall2 (fun kc kc' =>
                fst kc' = fst kc
                /\ exists l, expand_values (snd kc) series = Return l
                             /\ snd kc' = Comp.set_expansion Comp.C_EXPANDED_VALUES l (snd kc))
             d (snd (expand_component d series)).
Proof.
  induction 1 as [|[k c] d [l Hl] _ [IHo IHd]]; simpl.
  - split; [reflexivity | constructor].
  - simpl in Hl. rewrite Hl.
    destruct (expand_component d series) as [o d'] eqn:E. simpl in *.
    split; [assumption|].
    constructor; [|assumption].
    simpl. split; [reflexivity|]. exists l. split; [assumption | reflexivity].
Qed.

(** C5.  The expansion of a component resolves in the order fixed value,
    explicit set, scale list: a fixed value [v] gives exactly [[v]],
    whatever the other two fields hold; without it, an explicit set is
    returned as it is, in its order, whatever the scale list holds; without
    either, a scale list gives the products [unit * scale], scale-major and
    series-minor, [m * n] of them for [m] scales and a series of [n]
    values.  This list is what [expand_component] stores for the component
    under [C_EXPANDED_VALUES], for every component of the dictionary. *)
Theorem expand_values_resolution :
  forall (name description : string) (tolerance curr best worst : option float)
         (expanded expanded_tol : option (list float)),
    (forall v value_set value_scale series,
        expand_values
          (Comp.make name (Some v) value_set value_scale tolerance description
                     curr best worst expanded expanded_tol) series
        = Return [v])
    /\ (forall values value_scale series,
           expand_values
             (Comp.make name None (Some values) value_scale tolerance description
                        curr best worst expanded expanded_tol) series
           = Return values)
    /\ (forall scales units,
           let products :=
             flat_map (fun scale => map (fun unit => (unit * scale)%float) units) scales in
           expand_values
             (Comp.make name None None (Some scales) tolerance description
                        curr best worst expanded expanded_tol) (Some units)
           = Return products
           /\ List.length products = List.length scales * List.length units)
    /\ (forall series d,
           Forall (fun kc => exists l, expand_values (snd kc) series = Return l) d ->
           fst (expand_component d series) = Return tt
           /\ Forall2 (fun kc kc' =>
                         fst kc' = fst kc
                         /\ exists l,
                             expand_values (snd kc) series = Return l
                             /\ snd kc' = Comp.set_expansion Comp.C_EXPANDED_VALUES l (snd kc)
                             /\ Comp.expanded_values (snd kc') = Some l)
                      d (snd (expand_component d series))).
Proof.
  intros name description tolerance curr best worst expanded expanded_tol.
  split; [|split; [|split]].
  - intros v value_set value_scale series. reflexivity.
  - intros values value_scale series. reflexivity.
  - intros scales units products. split.
    + unfold expand_values; simpl. apply scale_loop_flat_map.
    + apply length_scaled.
  - intros series d Hd.
    destruct (expand_component_returns series d Hd) as [Ho Hs].
    split; [exact Ho|].
    eapply Forall2_impl; [|exact Hs].
    intros kc kc' (Hk & l & Hl & Hc).
    split; [exact Hk|]. exists l. split; [exact Hl|]. split; [exact Hc|].
    rewrite Hc. reflexivity.
Qed.

Lemma expand_values_raises_TypeError (c : Comp.t) (series : option (list float)) (e : exn) :
  expand_values c series = Raise e -> e = TypeError.
Proof.
  unfold expand_values.
  destruct (Comp.value c); [discriminate|].
  destruct (Comp.value_set c); [discriminate|].
  destruct (Comp.value_scale c) as [scales|]; [|now intros [= <-]].
  generalize (@nil float).
  induction scales as [|scale rest IH]; intros acc; simpl; [discriminate|].
  destruct series as [units|]; [apply IH | now intros [= <-]].
Qed.

Lemma expand_values_no_source (c : Comp.t) (series : option (list float)) :
  no_source c -> expand_values c series = Raise TypeError.
Proof.
  intros (Hv & Hs & Hc). unfold expand_values. now rewrite Hv, Hs, Hc.
Qed.

(** A dictionary with a component that cannot be expanded: the call raises
    [TypeError], at that component or at an earlier one. *)
Lemma expand_component_no_source (series : option (list float)) (d : dict Comp.t) k c :
  In (k, c) d -> no_source c -> fst (expand_component d series) = Raise TypeError.
Proof.
  intros Hin Hc.
  induction d as [|[k' c'] d IH]; [contradiction|].
  simpl.
  destruct (expand_values c' series) as [l|e] eqn:E.
  - destruct Hin as [[= -> ->]|Hin].
    + rewrite (expand_values_no_source _ series Hc) in E. discriminate.
    + destruct (expand_component d series) as [o d'] eqn:E'. simpl in *. auto.
  - apply expand_values_raises_TypeError in E. now subst.
Qed.

(** No call of [expand_component] raises anything but [TypeError]. *)
Lemma expand_component_outcome (series : option (list float)) (d : dict Comp.t) :
  fst (expand_component d series) = Return tt
  \/ fst (expand_component d series) = Raise TypeError.
Proof.
  induction d as [|[k c] d IH]; simpl; [now left|].
  destruct (expand_values c series) as [l|e] eqn:E.
  - destruct (expand_component d series) as [o d']. exact IH.
  - apply expand_values_raises_TypeError in E. subst. now right.
Qed.

(** ** Tolerance expansion *)

Lemma expand_each_component_tolerance_band (nominal tolerance_percent : float) :
  expand_each_component_tolerance (Some nominal) (Some tolerance_percent)
  = Return [(nominal - nominal * tolerance_percent * 0.01)%float;
            nominal;
            (nominal + nominal * tolerance_percent * 0.01)%float].
Proof. reflexivity. Qed.

Lemma expand_each_component_tolerance_None (tolerance_percent : option float) :
  expand_each_component_tolerance None tolerance_percent = Raise TypeError.
Proof. reflexivity. Qed.

Lemma expand_each_component_tolerance_raises (v t : option float) (e : exn) :
  expand_each_component_tolerance v t = Raise e -> e = TypeError.
Proof.
  destruct v as [v|], t as [t|]; simpl; try discriminate; now intros [= <-].
Qed.

Lemma expand_component_tolerance_value_list_outcome (d : dict Comp.t) :
  fst (expand_component_tolerance_value_list d) = Return tt
  \/ fst (expand_component_tolerance_value_list d) = Raise TypeError.
Proof.
  induction d as [|[k c] d IH]; simpl; [now left|].
  destruct (expand_each_component_tolerance _ _) as [l|e] eqn:E.
  - destruct (expand_component_tolerance_value_list d) as [o d']. exact IH.
  - apply expand_each_component_tolerance_raises in E. subst. now right.
Qed.

Lemma expand_component_tolerance_value_list_no_best (d : dict Comp.t) k c :
  In (k, c) d -> Comp.best_value c = None ->
  fst (expand_component_tolerance_value_list d) = Raise TypeError.
Proof.
  intros Hin Hc.
  induction d as [|[k' c'] d IH]; [contradiction|].
  simpl.
  destruct (expand_each_component_tolerance _ _) as [l|e] eqn:E.
  - destruct Hin as [[= -> ->]|Hin].
    + rewrite Hc in E. discriminate.
    + destruct (expand_component_tolerance_value_list d) as [o d'] eqn:E'. simpl in *. auto.
  - apply expand_each_component_tolerance_raises in E. now subst.
Qed.

(** C6, as the claim states it, fails on the inductor of the configuration
    that comes with the program (1e-3 henry, 20 %): the upper value the
    program computes, [nominal + nominal * 20 * 0.01], is
    0.0012000000000000001, the double above the 0.0011999999999999999 that
    [nominal * (1 + 20 / 100)] rounds to. *)
Lemma tolerance_band_differs_from_fraction_form :
  expand_each_component_tolerance (Some 1e-3%float) (Some 20.0%float)
  = Return [0.00080000000000000004; 0.001; 0.0012000000000000001]%float
  /\ band_by_fraction 1e-3%float 20.0%float
     = [0.00080000000000000004; 0.001; 0.0011999999999999999]%float
  /\ (0.0011999999999999999 <? 0.0012000000000000001)%float = true
  /\ expand_each_component_tolerance (Some 1e-3%float) (Some 20.0%float)
     <> Return (band_by_fraction 1e-3%float 20.0%float).
Proof.
  split; [vm_compute; reflexivity|].
  split; [vm_compute; reflexivity|].
  split; [vm_compute; reflexivity|].
  intros H.
  apply (f_equal upper_of) in H.
  apply (f_equal (fun x => (x <=? 0.0012)%float)) in H.
  vm_compute in H. discriminate.
Qed.

(** C6, amended.  For every nominal value and tolerance percentage the band
    is the three-element list [nominal - d; nominal; nominal + d] in that
    order, where [d = nominal * tolerance_percent * 0.01] is computed in
    double precision from left to right; for nominal 1000 and tolerance 1 %
    it is exactly [990; 1000; 1010], which there is also what the form
    [nominal * (1 -/+ t)] with [t = tolerance_percent / 100] gives. *)
Theorem tolerance_band :
  (forall nominal tolerance_percent,
      let d := (nominal * tolerance_percent * 0.01)%float in
      expand_each_component_tolerance (Some nominal) (Some tolerance_percent)
      = Return [(nominal - d)%float; nominal; (nominal + d)%float])
  /\ expand_each_component_tolerance (Some 1000%float) (Some 1%float)
     = Return [990.0; 1000.0; 1010.0]%float
  /\ band_by_fraction 1000%float 1%float = [990.0; 1000.0; 1010.0]%float.
Proof.
  split; [|split].
  - intros nominal tolerance_percent d. apply expand_each_component_tolerance_band.
  - vm_compute. reflexivity.
  - vm_compute. reflexivity.
Qed.

(** ** The order of the components and of the combinations *)

Lemma ltb_true_leb (s1 s2 : string) : String.ltb s1 s2 = true -> String.leb s1 s2 = true.
Proof.
  unfold String.ltb, String.leb. destruct (String.compare s1 s2); easy.
Qed.

Lemma ltb_false_leb (s1 s2 : string) : String.ltb s1 s2 = false -> String.leb s2 s1 = true.
Proof.
  unfold String.ltb, String.leb. rewrite (String.compare_antisym s1 s2).
  destruct (String.compare s2 s1); easy.
Qed.

Section Sorting.
Context {V : Type}.

Lemma insert_by_name_perm (x : string * V) (l : list (string * V)) :
  Permutation (insert_by_name x l) (x :: l).
Proof.
  induction l as [|y l IH]; simpl; [reflexivity|].
  destruct (String.ltb (fst x) (fst y)); [reflexivity|].
  rewrite IH. apply perm_swap.
Qed.

Lemma insert_by_name_hd (x y : string * V) (l : list (string * V)) :
  name_le y x -> HdRel name_le y l -> HdRel name_le y (insert_by_name x l).
Proof.
  intros Hyx Hl.
  destruct l as [|z l]; simpl; [now constructor|].
  destruct (String.ltb (fst x) (fst z)); constructor; [assumption|].
  now inversion Hl.
Qed.

Lemma insert_by_name_sorted (x : string * V) (l : list (string * V)) :
  Sorted name_le l -> Sorted name_le (insert_by_name x l).
Proof.
  induction 1 as [|y l Hs IH Hd]; simpl.
  - repeat constructor.
  - destruct (String.ltb (fst x) (fst y)) eqn:E.
    + constructor; [now constructor|].
      constructor. now apply ltb_true_leb.
    + constructor; [assumption|].
      apply insert_by_name_hd; [|assumption].
      now apply ltb_false_leb.
Qed.

Lemma list_sort_spec (l : list (string * V)) :
  Sorted name_le (list_sort l) /\ Permutation (list_sort l) l.
Proof.
  unfold list_sort.
  assert (G : forall acc, Sorted name_le acc ->
              Sorted name_le (fold_left (fun sorted x => insert_by_name x sorted) l acc)
              /\ Permutation (fold_left (fun sorted x => insert_by_name x sorted) l acc)
                             (acc ++ l)).
  { induction l as [|x l IH]; intros acc Hacc; simpl.
    - rewrite app_nil_r. now split.
    - destruct (IH (insert_by_name x acc) (insert_by_name_sorted x acc Hacc)) as [Hs Hp].
      split; [assumption|].
      rewrite Hp, insert_by_name_perm.
      now rewrite <- Permutation_middle. }
  apply (G []). constructor.
Qed.

End Sorting.

Lemma make_list_component_expanded_values_spec (d : dict Comp.t) (field : Comp.expansion_key) :
  Sorted name_le (make_list_component_expanded_values d field)
  /\ Permutation (make_list_component_expanded_values d field) (entries field d).
Proof.
  unfold make_list_component_expanded_values.
  assert (G : forall acc,
             fold_left
               (fun list_component kc =>
                  list_component ++ [(Comp.name (snd kc), Comp.get_expansion field (snd kc))])
               d acc
             = acc ++ entries field d).
  { induction d as [|kc d IH]; intros acc; simpl.
    - now rewrite app_nil_r.
    - rewrite IH, <- app_assoc. reflexivity. }
  rewrite (G []). apply list_sort_spec.
Qed.

Lemma append_components_spec (l : list (string * option (list float))) acc :
  append_components l acc = (fst acc ++ map fst l, snd acc ++ map snd l).
Proof.
  unfold append_components.
  revert acc.
  induction l as [|x l IH]; intros [ids vals]; simpl.
  - now rewrite !app_nil_r.
  - rewrite IH. simpl. now rewrite <- !app_assoc.
Qed.

Lemma make_two_combined_list_of_components_spec lr lc ll :
  make_two_combined_list_of_components lr lc ll
  = (map fst (lr ++ lc ++ ll), map snd (lr ++ lc ++ ll)).
Proof.
  unfold make_two_combined_list_of_components.
  rewrite !append_components_spec. simpl.
  now rewrite !map_app, !app_assoc.
Qed.

(** *** The cartesian product *)

Section Product.
Context {A : Type}.

Lemma flat_map_flat_map {X Y Z} (f : X -> list Y) (g : Y -> list Z) (l : list X) :
  flat_map g (flat_map f l) = flat_map (fun x => flat_map g (f x)) l.
Proof.
  induction l as [|x l IH]; simpl; [reflexivity|].
  now rewrite flat_map_app, IH.
Qed.

Lemma map_flat_map {X Y Z} (f : X -> list Y) (g : Y -> Z) (l : list X) :
  map g (flat_map f l) = flat_map (fun x => map g (f x)) l.
Proof.
  induction l as [|x l IH]; simpl; [reflexivity|].
  now rewrite map_app, IH.
Qed.

Lemma flat_map_map {X Y Z} (f : X -> Y) (g : Y -> list Z) (l : list X) :
  flat_map g (map f l) = flat_map (fun x => g (f x)) l.
Proof.
  induction l as [|x l IH]; simpl; [reflexivity|].
  now rewrite IH.
Qed.

Lemma product_step_single (pool : list A) :
  product_step [[]] pool = map (fun y => [y]) pool.
Proof. unfold product_step. simpl. now rewrite app_nil_r. Qed.

(** Every partial result is extended in the same way by the pools still to
    come. *)
Lemma product_from (pools : list (list A)) (result : list (list A)) :
  fold_left product_step pools result
  = flat_map (fun x => map (app x) (itertools_product pools)) result.
Proof.
  unfold itertools_product.
  revert result.
  induction pools as [|pool pools IH]; intros result; cbn [fold_left].
  - induction result as [|x result IHr]; simpl; [reflexivity|].
    rewrite app_nil_r. f_equal. exact IHr.
  - rewrite (IH (product_step result pool)), (IH (product_step [[]] pool)).
    rewrite product_step_single. unfold product_step.
    rewrite flat_map_flat_map.
    apply flat_map_ext. intros x.
    rewrite flat_map_map, map_flat_map, flat_map_map.
    apply flat_map_ext. intros y.
    rewrite map_map. apply map_ext. intros l.
    now rewrite <- app_assoc.
Qed.

(** The nested loops: the first pool is the outermost. *)
Lemma itertools_product_cons (pool : list A) (pools : list (list A)) :
  itertools_product (pool :: pools)
  = flat_map (fun x => map (cons x) (itertools_product pools)) pool.
Proof.
  unfold itertools_product at 1. cbn [fold_left].
  rewrite product_from, product_step_single, flat_map_map.
  reflexivity.
Qed.

Lemma length_itertools_product (pools : list (list A)) :
  List.length (itertools_product pools) = number_of_combinations pools.
Proof.
  induction pools as [|pool pools IH]; [reflexivity|].
  rewrite itertools_product_cons. simpl.
  rewrite (flat_map_constant_length (c := number_of_combinations pools)).
  - reflexivity.
  - intros x _. now rewrite length_map.
Qed.

Lemma length_combination (pools : list (list A)) (c : list A) :
  In c (itertools_product pools) -> List.length c = List.length pools.
Proof.
  revert c.
  induction pools as [|pool pools IH]; intros c.
  - simpl. intros [<-|[]]. reflexivity.
  - rewrite itertools_product_cons, in_flat_map.
    intros (x & _ & Hc). apply in_map_iff in Hc as (c' & <- & Hc').
    simpl. now rewrite (IH c').
Qed.



End Product.

(** *** The number of combinations *)

Lemma count_evaluations_spec (pools : list (list float)) (acc : Z) :
  count_evaluations (map Some pools) acc
  = Return (acc * Z.of_nat (number_of_combinations pools))%Z.
Proof.
  revert acc.
  induction pools as [|pool pools IH]; intros acc; simpl.
  - now rewrite Z.mul_1_r.
  - rewrite IH. f_equal. lia.
Qed.

Lemma iterables_inv (lists : list (option (list float))) (pools : list (list float)) :
  iterables lists = Return pools -> lists = map Some pools.
Proof.
  revert pools.
  induction lists as [|[l|] lists IH]; intros pools; simpl.
  - now intros [= <-].
  - destruct (iterables lists) as [ls|e]; simpl; [|discriminate].
    intros [= <-]. simpl. now rewrite (IH ls).
  - discriminate.
Qed.

(** C4.  The count computed before the enumeration is the product of the
    lengths of the candidate lists, which is the number of combinations the
    enumeration yields; it is computed by one pass over the lists, one
    multiplication for each, and no combination is built for it.  For the
    configuration that comes with the program the lists of R1, R2, R3, C1,
    C2, L1 have 96, 96, 96, 1, 2 and 1 values and the count is
    96*96*96*1*2*1 = 1,769,472. *)
Theorem combination_count :
  (forall pools : list (list float),
      count_evaluations (map Some pools) 1%Z
      = Return (Z.of_nat (fold_right Nat.mul 1 (map (@List.length float) pools)))
      /\ List.length (itertools_product pools)
         = fold_right Nat.mul 1 (map (@List.length float) pools))
  /\ fst configured_lists = ["R1"; "R2"; "R3"; "C1"; "C2"; "L1"]%string
  /\ map (option_map (@List.length float)) (snd configured_lists)
     = [Some 96; Some 96; Some 96; Some 1; Some 2; Some 1]
  /\ count_evaluations (snd configured_lists) 1%Z = Return 1769472%Z
  /\ (96 * 96 * 96 * 1 * 2 * 1 = 1769472)%Z.
Proof.
  split.
  - intros pools.
    assert (E : number_of_combinations pools
                = fold_right Nat.mul 1 (map (@List.length float) pools)).
    { induction pools as [|pool pools IH]; simpl; [reflexivity|]. now rewrite <- IH. }
    rewrite count_evaluations_spec, length_itertools_product, E.
    split; [f_equal; lia | reflexivity].
  - repeat split; vm_compute; reflexivity.
Qed.

(** ** The order of floats *)

Lemma lex_Lt (e1 e2 : Z) (m1 m2 : positive) :
  match (e1 ?= e2)%Z with
  | Eq => Pos.compare_cont Eq m1 m2
  | Lt => Lt
  | Gt => Gt
  end = Lt
  <-> (e1 < e2 \/ (e1 = e2 /\ Zpos m1 < Zpos m2))%Z.
Proof.
  change (Pos.compare_cont Eq m1 m2) with (Pos.compare m1 m2).
  destruct (Z.compare_spec e1 e2) as [He|He|He].
  - rewrite Pos.compare_lt_iff.
    split; [intros; right; split; [assumption | lia] | intros [?|[_ ?]]; lia].
  - split; [intros; now left | reflexivity].
  - split; [discriminate | lia].
Qed.

Lemma lex_opp_Lt (e1 e2 : Z) (m1 m2 : positive) :
  match (e1 ?= e2)%Z with
  | Eq => CompOpp (Pos.compare_cont Eq m1 m2)
  | Lt => Gt
  | Gt => Lt
  end = Lt
  <-> (e2 < e1 \/ (e1 = e2 /\ Zpos m2 < Zpos m1))%Z.
Proof.
  change (Pos.compare_cont Eq m1 m2) with (Pos.compare m1 m2).
  destruct (Z.compare_spec e1 e2) as [He|He|He].
  - assert (Ho : forall c, CompOpp c = Lt <-> c = Gt)
      by (intros []; simpl; split; congruence).
    rewrite Ho, Pos.compare_gt_iff.
    split; [intros; right; split; [assumption | lia] | intros [?|[_ ?]]; lia].
  - split; [discriminate | lia].
  - split; [intros; now left | reflexivity].
Qed.

(** The comparison of the specification of binary64 is transitive on all
    floats, the NaN included: a NaN is below nothing and nothing is below it. *)
Lemma SFcompare_Lt_trans (a b c : spec_float) :
  SFcompare a b = Some Lt -> SFcompare b c = Some Lt -> SFcompare a c = Some Lt.
Proof.
  destruct a as [sa|sa| |sa ma ea], b as [sb|sb| |sb mb eb], c as [sc|sc| |sc mc ec];
    simpl; try discriminate;
    try (destruct sa, sb, sc; try discriminate; try reflexivity; fail);
    try (destruct sa, sb; try discriminate; try reflexivity; fail);
    try (destruct sa, sc; try discriminate; try reflexivity; fail);
    try (destruct sb, sc; try discriminate; try reflexivity; fail).
  all: try (destruct sa; discriminate).
  all: try (destruct sb; discriminate).
  all: try (destruct sa, sb; try discriminate; destruct sc; discriminate || reflexivity).
  destruct sa, sb, sc; try discriminate; try reflexivity;
    intros [= H1] [= H2]; f_equal;
    rewrite ?lex_Lt, ?lex_opp_Lt in *; lia.
Qed.

Lemma SFcompare_irrefl (a : spec_float) : SFcompare a a <> Some Lt.
Proof.
  destruct a as [s|s| |s m e]; simpl; try discriminate; try (destruct s; discriminate).
  destruct s; intros [= H]; rewrite ?lex_Lt, ?lex_opp_Lt in H; lia.
Qed.

Lemma ltb_trans (x y z : float) :
  (x <? y)%float = true -> (y <? z)%float = true -> (x <? z)%float = true.
Proof.
  rewrite !ltb_spec. unfold SFltb.
  destruct (SFcompare (Prim2SF x) (Prim2SF y)) as [[]|] eqn:E1; try discriminate.
  destruct (SFcompare (Prim2SF y) (Prim2SF z)) as [[]|] eqn:E2; try discriminate.
  now rewrite (SFcompare_Lt_trans _ _ _ E1 E2).
Qed.

Lemma ltb_irrefl (x : float) : (x <? x)%float = false.
Proof.
  rewrite ltb_spec. unfold SFltb.
  destruct (SFcompare (Prim2SF x) (Prim2SF x)) as [[]|] eqn:E; try reflexivity.
  now apply SFcompare_irrefl in E.
Qed.

Lemma SFabs_nonneg (x : spec_float) : SFnonneg (SFabs x).
Proof. destruct x; simpl; auto. Qed.

Lemma binary_round_aux_sign (prec emax : Z) (sx : bool) (mx ex : Z) (lx : location) :
  match binary_round_aux prec emax sx mx ex lx with
  | S754_nan => True
  | S754_zero s | S754_infinity s | S754_finite s _ _ => s = sx
  end.
Proof.
  unfold binary_round_aux.
  destruct (shr_fexp prec emax mx ex lx) as [mrs' e'].
  destruct (shr_fexp prec emax _ e' loc_Exact) as [mrs'' e''].
  destruct (shr_m mrs''); auto.
  destruct (e'' <=? emax - prec)%Z; auto.
Qed.

Lemma SFadd_nonneg (prec emax : Z) (x y : spec_float) :
  SFnonneg x -> SFnonneg y -> SFnonneg (SFadd prec emax x y).
Proof.
  destruct x as [sx|sx| |sx mx ex], y as [sy|sy| |sy my ey]; simpl; auto;
    try (intros -> ->; simpl; auto; fail).
  intros -> ->. simpl.
  unfold binary_round.
  destruct (shl_align _ _ _) as [mz ez].
  apply (binary_round_aux_sign prec emax false).
Qed.

(** The Manhattan distance is a NaN, or the zero the worst error starts
    from, or above it. *)
Lemma absolute_distance_cases (tl th ol oh : float) :
  let e := absolute_distance tl th ol oh in
  PrimFloat.is_nan e = true \/ e = 0%float \/ (0 <? e)%float = true.
Proof.
  intros e.
  assert (H : SFnonneg (Prim2SF e)).
  { unfold e, absolute_distance, math_fabs.
    rewrite add_spec, !abs_spec. apply SFadd_nonneg; apply SFabs_nonneg. }
  unfold PrimFloat.is_nan. rewrite eqb_spec, ltb_spec.
  change (Prim2SF 0) with (S754_zero false).
  destruct (Prim2SF e) as [s|s| |s m ex] eqn:E; simpl in H; subst; simpl; auto.
  right; left. rewrite <- (SF2Prim_Prim2SF e), E. reflexivity.
Qed.

(** ** Running the monad *)

Lemma bind_Return {A B} (m : M A) (k : A -> M B) (st st' : state) (b : B) :
  (x <- m ;; k x) st = (Return b, st') ->
  exists a s1, m st = (Return a, s1) /\ k a s1 = (Return b, st').
Proof.
  unfold bind. destruct (m st) as [[a|e] s1]; [eauto | discriminate].
Qed.

Section Preservation.
Context (R : state -> state -> Prop) {HR : Frame R}.

Lemma preserves_ret {A} (a : A) : preserves R (ret a).
Proof. intros st. apply frame_refl. Qed.

Lemma preserves_raise {A} (e : exn) : preserves R (@raise A e).
Proof. intros st. apply frame_refl. Qed.

Lemma preserves_lift {A} (o : outcome A) : preserves R (lift o).
Proof. intros st. apply frame_refl. Qed.

Lemma preserves_bind {A B} (m : M A) (k : A -> M B) :
  preserves R m -> (forall a, preserves R (k a)) -> preserves R (x <- m ;; k x).
Proof.
  intros Hm Hk st. unfold bind.
  specialize (Hm st).
  destruct (m st) as [[a|e] s1]; simpl in *; [|assumption].
  eapply frame_trans; [exact Hm | apply Hk].
Qed.

Lemma preserves_for_each {A} (l : list A) (body : A -> M unit) :
  (forall x, preserves R (body x)) -> preserves R (for_each l body).
Proof.
  intros Hb.
  induction l as [|x l IH]; simpl.
  - apply preserves_ret.
  - apply preserves_bind; auto.
Qed.

Lemma preserves_reads {A} (m : M A) :
  (forall st, snd (m st) = st) -> preserves R m.
Proof. intros H st. rewrite H. apply frame_refl. Qed.

End Preservation.

(** The steps of a computation, one at a time. *)
Ltac frame_step :=
  match goal with
  | |- preserves _ (bind _ _) => apply preserves_bind; [typeclasses eauto | | intros ?]
  | |- preserves _ (ret _) => apply preserves_ret; typeclasses eauto
  | |- preserves _ (lift _) => apply preserves_lift; typeclasses eauto
  | |- preserves _ (raise _) => apply preserves_raise; typeclasses eauto
  | |- preserves _ (if ?b then _ else _) => destruct b
  | |- preserves _ (match ?r with _ => _ end) => destruct r
  end.

(** ** What the accessors leave alone *)

Section Accessors.
Context (R : state -> state -> Prop) {HR : Frame R}.

Lemma preserves_get_dic_in_fix_param id field : preserves R (get_dic_in_fix_param id field).
Proof. apply preserves_reads; [typeclasses eauto | reflexivity]. Qed.

Lemma preserves_get_dic_resistors id field : preserves R (get_dic_resistors id field).
Proof. apply preserves_reads; [typeclasses eauto | reflexivity]. Qed.

Lemma preserves_get_dic_capacitors id field : preserves R (get_dic_capacitors id field).
Proof. apply preserves_reads; [typeclasses eauto | reflexivity]. Qed.

Lemma preserves_get_dic_inductors id field : preserves R (get_dic_inductors id field).
Proof. apply preserves_reads; [typeclasses eauto | reflexivity]. Qed.

Lemma preserves_get_dic_target_calc_values id field :
  preserves R (get_dic_target_calc_values id field).
Proof. apply preserves_reads; [typeclasses eauto | reflexivity]. Qed.

Lemma preserves_get_best_prev_error : preserves R get_best_prev_error.
Proof. apply preserves_reads; [typeclasses eauto | reflexivity]. Qed.

Lemma preserves_get_worst_prev_error : preserves R get_worst_prev_error.
Proof. apply preserves_reads; [typeclasses eauto | reflexivity]. Qed.

Lemma preserves_circuit_equations : preserves R circuit_equations.
Proof.
  unfold circuit_equations.
  repeat first
    [ frame_step
    | apply preserves_get_dic_in_fix_param
    | apply preserves_get_dic_resistors
    | apply preserves_get_dic_capacitors
    | apply preserves_get_dic_inductors ].
Qed.

Lemma preserves_read_targets_and_obtained : preserves R read_targets_and_obtained.
Proof.
  unfold read_targets_and_obtained.
  repeat first [ frame_step | apply preserves_get_dic_target_calc_values ].
Qed.

Lemma preserves_consistency_testing : preserves R consistency_testing_of_fixed_parameters.
Proof.
  unfold consistency_testing_of_fixed_parameters.
  repeat first
    [ apply preserves_bind; [typeclasses eauto | | intros ?]
    | apply preserves_ret; typeclasses eauto
    | apply preserves_get_dic_in_fix_param
    | apply preserves_get_dic_target_calc_values ].
Qed.

End Accessors.

#[global] Instance Frame_eq : Frame (fun st st' => st' = st).
Proof. split; congruence. Qed.

Lemma circuit_equations_reads (st : state) : snd (circuit_equations st) = st.
Proof. apply (preserves_circuit_equations (fun st st' => st' = st)). Qed.

Lemma read_targets_and_obtained_reads (st : state) : snd (read_targets_and_obtained st) = st.
Proof. apply (preserves_read_targets_and_obtained (fun st st' => st' = st)). Qed.

Lemma consistency_testing_reads (st : state) :
  snd (consistency_testing_of_fixed_parameters st) = st.
Proof. apply (preserves_consistency_testing (fun st st' => st' = st)). Qed.

(** ** Frames of the steps of a pass *)

#[global] Instance Frame_evaluating : Frame evaluating.
Proof.
  split.
  - intros st. split; [reflexivity|]. exists 0. simpl. now rewrite app_nil_r.
  - intros a b c [Hs1 [j1 Hl1]] [Hs2 [j2 Hl2]]. split; [congruence|].
    exists (j1 + j2). now rewrite Hl2, Hl1, repeat_app, app_assoc.
Qed.

#[global] Instance Frame_same_best : Frame same_best.
Proof. split; unfold same_best; congruence. Qed.

#[global] Instance Frame_same_worst : Frame same_worst.
Proof. split; unfold same_worst; congruence. Qed.

(** A step that writes in the dictionaries only. *)
Ltac dictionaries_only :=
  intros st;
  unfold set_component_field, set_item, set_dic_target_calc_values,
    set_best_prev_error, set_worst_prev_error, tell;
  repeat match goal with
         | |- context [match ?x with _ => _ end] => destruct x
         end;
  unfold evaluating, same_best, same_worst; simpl;
  first [ reflexivity | split; [reflexivity | exists 0; simpl; now rewrite app_nil_r] ].

Lemma evaluating_set_component_field id field val :
  preserves evaluating (set_component_field id field val).
Proof. dictionaries_only. Qed.

Lemma evaluating_set_dic_target_calc_values id field val :
  preserves evaluating (set_dic_target_calc_values id field val).
Proof. dictionaries_only. Qed.


Lemma evaluating_set_worst_prev_error e : preserves evaluating (set_worst_prev_error e).
Proof. dictionaries_only. Qed.

Lemma evaluating_tell : preserves evaluating (tell Evaluate).
Proof. intros st. split; [reflexivity|]. now exists 1. Qed.

Lemma same_best_set_component_field id field val :
  preserves same_best (set_component_field id field val).
Proof. dictionaries_only. Qed.

Lemma same_best_set_dic_target_calc_values id field val :
  preserves same_best (set_dic_target_calc_values id field val).
Proof. dictionaries_only. Qed.

Lemma same_best_tell e : preserves same_best (tell e).
Proof. dictionaries_only. Qed.

Lemma same_worst_set_component_field id field val :
  preserves same_worst (set_component_field id field val).
Proof. dictionaries_only. Qed.

Lemma same_worst_set_dic_target_calc_values id field val :
  preserves same_worst (set_dic_target_calc_values id field val).
Proof. dictionaries_only. Qed.

Lemma same_worst_tell e : preserves same_worst (tell e).
Proof. dictionaries_only. Qed.


(** ** What a combination's error depends on *)

Lemma dict_get_alter {V} (f : V -> V) (k k' : string) (d : dict V) :
  dict_get k (dict_alter f k' d)
  = if String.eqb k k' then option_map f (dict_get k d) else dict_get k d.
Proof.
  induction d as [|[x v] d IH]; simpl.
  - now destruct (String.eqb k k').
  - destruct (String.eqb_spec k' x) as [->|Hx]; simpl.
    + destruct (String.eqb k x); reflexivity.
    + rewrite IH.
      destruct (String.eqb_spec k x) as [->|Hk]; [|reflexivity].
      destruct (String.eqb_spec x k'); [congruence | reflexivity].
Qed.

Lemma kind_eq_dec (a b : kind) : {a = b} + {a <> b}.
Proof. decide equality. Qed.

Lemma set_component_field_route id field val st :
  set_component_field id field val st
  = match route id with
    | Some kd =>
        match dict_get id (dic_of kd st) with
        | Some _ =>
            (Return tt,
             with_dic kd (dict_alter (Comp.set_value field val) id (dic_of kd st)) st)
        | None => (Raise KeyError, st)
        end
    | None => (Raise ValueError, st)
    end.
Proof.
  unfold set_component_field, route, set_item.
  destruct (String.prefix "R" id); [simpl; now destruct (dict_get id _)|].
  destruct (String.prefix "C" id); [simpl; now destruct (dict_get id _)|].
  destruct (String.prefix "L" id); [simpl; now destruct (dict_get id _)|].
  reflexivity.
Qed.

Lemma dic_of_with_dic kd kd' d st :
  dic_of kd' (with_dic kd d st) = if kind_eq_dec kd' kd then d else dic_of kd' st.
Proof.
  destruct (kind_eq_dec kd' kd) as [->|Hk]; [now destruct kd|].
  destruct kd, kd'; simpl; congruence.
Qed.

Lemma curr_at_alter (field : Comp.value_key) (val : float) (k k' : string) (d : dict Comp.t) :
  curr_at k (dict_alter (Comp.set_value field val) k' d)
  = if String.eqb k k'
    then match dict_get k d with
         | Some c =>
             Some match field with
                  | Comp.C_CURR_VALUE => Some val
                  | _ => Comp.curr_value c
                  end
         | None => None
         end
    else curr_at k d.
Proof.
  unfold curr_at. rewrite dict_get_alter.
  destruct (String.eqb k k'); [|reflexivity].
  destruct (dict_get k d) as [c|]; [|reflexivity].
  now destruct field.
Qed.

Lemma curr_at_None (k : string) (d : dict Comp.t) : curr_at k d = None <-> dict_get k d = None.
Proof. unfold curr_at. destruct (dict_get k d); simpl; split; congruence. Qed.

#[global] Instance Frame_similar (rem : list string) : Frame (similar rem).
Proof.
  split.
  - intros st. split; try reflexivity. intros kd k. now left.
  - intros a b c [Hf1 Ht1 Hc1] [Hf2 Ht2 Hc2].
    split; [congruence | intros k; now rewrite Ht2 |].
    intros kd k.
    destruct (Hc1 kd k) as [E1|(Hin & Hr & E1)], (Hc2 kd k) as [E2|(Hin2 & Hr2 & E2)].
    + left. congruence.
    + right. repeat split; try assumption; rewrite <- E1; tauto.
    + right. repeat split; try assumption; rewrite E2; tauto.
    + right. repeat split; try assumption; tauto.
Qed.

Lemma similar_set_component_field (rem : list string) id field val :
  In id rem -> preserves (similar rem) (set_component_field id field val).
Proof.
  intros Hin st. rewrite set_component_field_route.
  destruct (route id) as [kd|] eqn:Hr; [|apply frame_refl].
  destruct (dict_get id (dic_of kd st)) as [c|] eqn:Hc; [|apply frame_refl].
  simpl. split.
  - now destruct kd.
  - now destruct kd.
  - intros kd' k. rewrite dic_of_with_dic.
    destruct (kind_eq_dec kd' kd) as [->|Hk]; [|now left].
    rewrite curr_at_alter.
    destruct (String.eqb_spec k id) as [->|Hne]; [|now left].
    right. rewrite Hc. repeat split; try assumption; try discriminate.
    intros H. apply curr_at_None in H. congruence.
Qed.

Lemma target_at_alter field val (k k' : string) (d : dict TCalcValues.t) :
  field <> TCalcValues.C_TARGET_VALUE ->
  target_at k (dict_alter (TCalcValues.set field val) k' d) = target_at k d.
Proof.
  intros Hf. unfold target_at. rewrite dict_get_alter.
  destruct (String.eqb k k'); [|reflexivity].
  destruct (dict_get k d) as [c|]; [|reflexivity].
  now destruct field.
Qed.

Lemma similar_set_dic_target_calc_values (rem : list string) id field val :
  field <> TCalcValues.C_TARGET_VALUE ->
  preserves (similar rem) (set_dic_target_calc_values id field val).
Proof.
  intros Hf st. unfold set_dic_target_calc_values.
  destruct (dict_get id (dic_target_calc_values st)); [|apply frame_refl].
  simpl. split; simpl.
  - reflexivity.
  - intros k. now apply target_at_alter.
  - intros kd k. left. now destruct kd.
Qed.

(** A step that leaves the five dictionaries as they are. *)
Lemma similar_same_dictionaries (rem : list string) (st st' : state) :
  dic_in_fix_param st' = dic_in_fix_param st ->
  dic_target_calc_values st' = dic_target_calc_values st ->
  dic_resistors st' = dic_resistors st ->
  dic_capacitors st' = dic_capacitors st ->
  dic_inductors st' = dic_inductors st ->
  similar rem st st'.
Proof.
  intros Hf Ht Hr Hc Hl. split; [assumption | now rewrite Ht |].
  intros kd k. left. destruct kd; simpl; congruence.
Qed.

Lemma similar_tell (rem : list string) e : preserves (similar rem) (tell e).
Proof. intros st. now apply similar_same_dictionaries. Qed.

Lemma similar_set_best_prev_error (rem : list string) e :
  preserves (similar rem) (set_best_prev_error e).
Proof. intros st. now apply similar_same_dictionaries. Qed.

Lemma similar_set_worst_prev_error (rem : list string) e :
  preserves (similar rem) (set_worst_prev_error e).
Proof. intros st. now apply similar_same_dictionaries. Qed.

(** *** Frames of the iterations *)

Section Steps.
Context (R : state -> state -> Prop) {HR : Frame R} (ok : string -> Prop).
Hypothesis R_set_component_field :
  forall id field val, ok id -> preserves R (set_component_field id field val).
Hypothesis R_set_dic_target_calc_values :
  forall id field val, field <> TCalcValues.C_TARGET_VALUE ->
                       preserves R (set_dic_target_calc_values id field val).
Hypothesis R_tell : preserves R (tell Evaluate).

Lemma preserves_map_ids ids combination field :
  Forall ok ids ->
  preserves R (map_ids_and_component_combination_vals__set_fields ids combination field).
Proof.
  intros Hok. revert combination.
  induction Hok as [|id ids Hid Hids IH]; intros [|val vals]; simpl;
    try (apply preserves_ret; typeclasses eauto).
  apply preserves_bind;
    [typeclasses eauto | now apply R_set_component_field | intros _; apply IH].
Qed.

Lemma preserves_calc_evaluation : preserves R calc_evaluation_of_circuit_equations.
Proof.
  unfold calc_evaluation_of_circuit_equations.
  repeat first
    [ frame_step
    | apply R_tell
    | apply preserves_circuit_equations; typeclasses eauto
    | apply R_set_dic_target_calc_values; discriminate ].
Qed.

Hypothesis R_set_best_prev_error : forall e, preserves R (set_best_prev_error e).

Lemma preserves_calc_distance_error_best math_pow :
  preserves R (calc_distance_error_best math_pow).
Proof.
  unfold calc_distance_error_best.
  repeat first
    [ frame_step
    | apply preserves_get_best_prev_error; typeclasses eauto
    | apply preserves_read_targets_and_obtained; typeclasses eauto
    | apply R_set_best_prev_error
    | apply R_set_dic_target_calc_values; discriminate ].
Qed.

Lemma preserves_best_iteration math_pow ids combination :
  Forall ok ids -> preserves R (best_iteration math_pow ids combination).
Proof.
  intros Hok. unfold best_iteration.
  repeat first
    [ frame_step
    | now apply preserves_map_ids
    | apply preserves_calc_evaluation
    | apply preserves_calc_distance_error_best ].
Qed.

Hypothesis R_set_worst_prev_error : forall e, preserves R (set_worst_prev_error e).

Lemma preserves_calc_absolute_distance_error_worst :
  preserves R calc_absolute_distance_error_worst.
Proof.
  unfold calc_absolute_distance_error_worst.
  repeat first
    [ frame_step
    | apply preserves_get_worst_prev_error; typeclasses eauto
    | apply preserves_read_targets_and_obtained; typeclasses eauto
    | apply R_set_worst_prev_error
    | apply R_set_dic_target_calc_values; discriminate ].
Qed.

Lemma preserves_worst_iteration ids combination :
  Forall ok ids -> preserves R (worst_iteration ids combination).
Proof.
  intros Hok. unfold worst_iteration.
  repeat first
    [ frame_step
    | now apply preserves_map_ids
    | apply preserves_calc_evaluation
    | apply preserves_calc_absolute_distance_error_worst ].
Qed.

End Steps.

Lemma Forall_True {A} (l : list A) : Forall (fun _ => True) l.
Proof. induction l; constructor; auto. Qed.

Lemma Forall_In_self {A} (l : list A) : Forall (fun x => In x l) l.
Proof. apply Forall_forall. auto. Qed.


Lemma evaluating_worst_iteration ids combination :
  preserves evaluating (worst_iteration ids combination).
Proof.
  apply (preserves_worst_iteration evaluating (fun _ => True)).
  - intros. apply evaluating_set_component_field.
  - intros. apply evaluating_set_dic_target_calc_values.
  - apply evaluating_tell.
  - apply evaluating_set_worst_prev_error.
  - apply Forall_True.
Qed.

(** An iteration keeps the inputs of the next ones. *)
Lemma similar_best_iteration math_pow ids combination :
  preserves (similar ids) (best_iteration math_pow ids combination).
Proof.
  apply (preserves_best_iteration (similar ids) (fun id => In id ids)).
  - intros. now apply similar_set_component_field.
  - intros. now apply similar_set_dic_target_calc_values.
  - apply similar_tell.
  - apply similar_set_best_prev_error.
  - apply Forall_In_self.
Qed.

Lemma similar_worst_iteration ids combination :
  preserves (similar ids) (worst_iteration ids combination).
Proof.
  apply (preserves_worst_iteration (similar ids) (fun id => In id ids)).
  - intros. now apply similar_set_component_field.
  - intros. now apply similar_set_dic_target_calc_values.
  - apply similar_tell.
  - apply similar_set_worst_prev_error.
  - apply Forall_In_self.
Qed.

Lemma same_best_map_ids ids combination field :
  preserves same_best (map_ids_and_component_combination_vals__set_fields ids combination field).
Proof.
  apply (preserves_map_ids same_best (fun _ => True)).
  - intros. apply same_best_set_component_field.
  - apply Forall_True.
Qed.

Lemma same_best_calc_evaluation : preserves same_best calc_evaluation_of_circuit_equations.
Proof.
  apply (preserves_calc_evaluation same_best).
  - intros. apply same_best_set_dic_target_calc_values.
  - apply same_best_tell.
Qed.

Lemma same_worst_map_ids ids combination field :
  preserves same_worst (map_ids_and_component_combination_vals__set_fields ids combination field).
Proof.
  apply (preserves_map_ids same_worst (fun _ => True)).
  - intros. apply same_worst_set_component_field.
  - apply Forall_True.
Qed.

Lemma same_worst_calc_evaluation : preserves same_worst calc_evaluation_of_circuit_equations.
Proof.
  apply (preserves_calc_evaluation same_worst).
  - intros. apply same_worst_set_dic_target_calc_values.
  - apply same_worst_tell.
Qed.

(** *** A combination is evaluated alike in similar states *)

Lemma similar_drop (id : string) (rem : list string) (st st' : state) :
  similar (id :: rem) st st' ->
  (forall kd, route id = Some kd ->
              curr_at id (dic_of kd st') = curr_at id (dic_of kd st)) ->
  similar rem st st'.
Proof.
  intros [Hf Ht Hc] Hid. split; [assumption | assumption |].
  intros kd k.
  destruct (Hc kd k) as [E|([<-|Hin] & Hr & E)]; [now left | | now right].
  left. now apply Hid.
Qed.

(** Writing one value of the combination, in two similar states: the same
    outcome, and what is left to overwrite is one identifier less. *)
Lemma set_component_field_similar id rem val st st' :
  similar (id :: rem) st st' ->
  fst (set_component_field id Comp.C_CURR_VALUE val st)
  = fst (set_component_field id Comp.C_CURR_VALUE val st')
  /\ similar rem (snd (set_component_field id Comp.C_CURR_VALUE val st))
             (snd (set_component_field id Comp.C_CURR_VALUE val st')).
Proof.
  intros Hs. rewrite !set_component_field_route.
  destruct (route id) as [kd|] eqn:Hr.
  2:{ split; [reflexivity|]. apply (similar_drop id); [assumption|]. intros kd ?; congruence. }
  assert (Hp : dict_get id (dic_of kd st') = None <-> dict_get id (dic_of kd st) = None).
  { rewrite <- !curr_at_None.
    destruct (sim_comp _ _ _ Hs kd id) as [E|(_ & _ & E)]; [now rewrite E | exact E]. }
  destruct (dict_get id (dic_of kd st)) as [c|] eqn:Hc,
           (dict_get id (dic_of kd st')) as [c'|] eqn:Hc'; simpl.
  - split; [reflexivity|].
    destruct Hs as [Hf Ht Hcomp].
    split.
    + now destruct kd.
    + intros k. specialize (Ht k). now destruct kd.
    + intros kd' k. rewrite !dic_of_with_dic.
      destruct (kind_eq_dec kd' kd) as [->|Hk].
      * rewrite !curr_at_alter.
        destruct (String.eqb_spec k id) as [->|Hne].
        -- left. now rewrite Hc, Hc'.
        -- destruct (Hcomp kd k) as [E|([<-|Hin] & Hrk & E)];
             [now left | congruence | now right].
      * destruct (Hcomp kd' k) as [E|([<-|Hin] & Hrk & E)];
          [now left | congruence | now right].
  - destruct Hp as [Hp _]. now specialize (Hp eq_refl).
  - destruct Hp as [_ Hp]. now specialize (Hp eq_refl).
  - split; [reflexivity|].
    apply (similar_drop id); [assumption|].
    intros kd' Hr'. replace kd' with kd by congruence.
    unfold curr_at. now rewrite Hc, Hc'.
Qed.

Lemma map_ids_similar ids combination st st' :
  similar ids st st' ->
  List.length ids <= List.length combination ->
  let r := map_ids_and_component_combination_vals__set_fields
             ids combination Comp.C_CURR_VALUE st in
  let r' := map_ids_and_component_combination_vals__set_fields
              ids combination Comp.C_CURR_VALUE st' in
  fst r = fst r' /\ (fst r = Return tt -> similar [] (snd r) (snd r')).
Proof.
  revert combination st st'.
  induction ids as [|id ids IH]; intros [|val vals] st st' Hs Hlen; simpl in *;
    try lia; try (now split).
  destruct (set_component_field_similar id ids val st st' Hs) as [Ho Hs'].
  unfold bind.
  destruct (set_component_field id Comp.C_CURR_VALUE val st) as [[[]|e] s1],
           (set_component_field id Comp.C_CURR_VALUE val st') as [[[]|e'] s1'];
    simpl in *; try discriminate.
  - apply IH; [assumption | lia].
  - split; [assumption | discriminate].
Qed.

(** What the circuit equations read of a component. *)
Lemma process_curr (k : string) (d : dict Comp.t) :
  process_inner_dic (dict_get k d) (Comp.get_value Comp.C_CURR_VALUE)
  = match curr_at k d with
    | Some (Some v) => Return v
    | _ => Raise ValueError
    end.
Proof. unfold curr_at. now destruct (dict_get k d) as [c|]. Qed.

Lemma curr_at_agree (st st' : state) (kd : kind) (k : string) :
  similar [] st st' -> curr_at k (dic_of kd st') = curr_at k (dic_of kd st).
Proof.
  intros Hs. destruct (sim_comp _ _ _ Hs kd k) as [E|([] & _)]. exact E.
Qed.

Lemma circuit_equations_agree (st st' : state) :
  similar [] st st' -> fst (circuit_equations st') = fst (circuit_equations st).
Proof.
  intros Hs.
  unfold circuit_equations, bind, get_dic_in_fix_param, get_dic_resistors,
    get_dic_capacitors, get_dic_inductors, lift, ret.
  rewrite (sim_fix _ _ _ Hs), !process_curr.
  rewrite !(curr_at_agree st st' Resistor), !(curr_at_agree st st' Capacitor),
    !(curr_at_agree st st' Inductor) by assumption.
  simpl.
  repeat match goal with
         | |- context [match ?x with _ => _ end] => destruct x; try reflexivity
         end.
Qed.

Lemma Return_inj {A} (a b : A) : Return a = Return b -> a = b.
Proof. now intros [= ->]. Qed.

Lemma bind_run_Return {A B} (m : M A) (k : A -> M B) st a s1 :
  m st = (Return a, s1) -> (x <- m ;; k x) st = k a s1.
Proof. intros H. unfold bind. now rewrite H. Qed.

Lemma bind_run_Raise {A B} (m : M A) (k : A -> M B) st e s1 :
  m st = (Raise e, s1) -> (x <- m ;; k x) st = (Raise e, s1).
Proof. intros H. unfold bind. now rewrite H. Qed.

(** The circuit equations, run: the call is logged, then the two values
    are written, the first of the two target entries that is missing being
    reported. *)
Lemma calc_evaluation_run (st : state) :
  let s0 := with_event Evaluate st in
  let T := dic_target_calc_values st in
  calc_evaluation_of_circuit_equations st
  = match fst (circuit_equations st) with
    | Raise e => (Raise e, s0)
    | Return (vl, vh) =>
        let T1 := dict_alter (TCalcValues.set TCalcValues.C_CALC_VALUE vl)
                             "V_low_threshold" T in
        let T2 := dict_alter (TCalcValues.set TCalcValues.C_CALC_VALUE vh)
                             "V_high_threshold" T1 in
        match dict_get "V_low_threshold" T with
        | None => (Raise ValueError, s0)
        | Some _ =>
            match dict_get "V_high_threshold" T with
            | None => (Raise ValueError, with_targets T1 s0)
            | Some _ => (Return tt, with_targets T2 s0)
            end
        end
    end.
Proof.
  intros s0 T.
  unfold calc_evaluation_of_circuit_equations.
  rewrite (bind_run_Return _ _ st tt s0) by reflexivity.
  assert (E : fst (circuit_equations s0) = fst (circuit_equations st)).
  { apply circuit_equations_agree. apply similar_tell. }
  pose proof (circuit_equations_reads s0) as Hs.
  destruct (circuit_equations s0) as [[[vl vh]|e] s0'] eqn:E0; simpl in E, Hs; subst s0';
    rewrite <- E.
  2:{ now rewrite (bind_run_Raise _ _ s0 e s0) by assumption. }
  rewrite (bind_run_Return _ _ s0 (vl, vh) s0) by assumption.
  unfold bind, set_dic_target_calc_values. simpl.
  fold T.
  destruct (dict_get "V_low_threshold" T) as [rl|] eqn:El; [|reflexivity].
  simpl. rewrite dict_get_alter. simpl.
  destruct (dict_get "V_high_threshold" T) as [rh|] eqn:Eh; reflexivity.
Qed.

Lemma evaluate_and_measure_view measure (st : state) :
  fst (evaluate_and_measure measure st)
  = measured measure (fst (circuit_equations st))
             (target_at "V_low_threshold" (dic_target_calc_values st))
             (target_at "V_high_threshold" (dic_target_calc_values st)).
Proof.
  unfold evaluate_and_measure, bind at 1.
  rewrite calc_evaluation_run.
  unfold measured, target_at.
  destruct (fst (circuit_equations st)) as [[vl vh]|e]; [|reflexivity].
  destruct (dict_get "V_low_threshold" (dic_target_calc_values st)) as [rl|] eqn:El;
    [|reflexivity].
  destruct (dict_get "V_high_threshold" (dic_target_calc_values st)) as [rh|] eqn:Eh; simpl.
  2:{ now destruct (TCalcValues.target_value rl). }
  unfold read_targets_and_obtained, bind, get_dic_target_calc_values, ret, lift. simpl.
  rewrite !dict_get_alter. simpl. rewrite El, Eh. simpl.
  destruct (TCalcValues.target_value rl), (TCalcValues.target_value rh); reflexivity.
Qed.

Lemma evaluate_and_measure_agree measure (st st' : state) :
  similar [] st st' ->
  fst (evaluate_and_measure measure st') = fst (evaluate_and_measure measure st).
Proof.
  intros Hs.
  rewrite !evaluate_and_measure_view, (circuit_equations_agree st st' Hs).
  now rewrite !(sim_targets _ _ _ Hs).
Qed.

Lemma scored_run measure ids combination (st : state) :
  fst (scored measure ids combination st)
  = match map_ids_and_component_combination_vals__set_fields
            ids combination Comp.C_CURR_VALUE st with
    | (Return _, s1) => fst (evaluate_and_measure measure s1)
    | (Raise e, _) => Raise e
    end.
Proof.
  unfold scored. fold (evaluate_and_measure measure). unfold bind at 1.
  now destruct (map_ids_and_component_combination_vals__set_fields _ _ _ st) as [[[]|e] s1].
Qed.

(** The error of a combination is the same from any two similar states. *)
Lemma scored_similar measure ids combination (st st' : state) :
  similar ids st st' ->
  List.length ids <= List.length combination ->
  fst (scored measure ids combination st') = fst (scored measure ids combination st).
Proof.
  intros Hs Hlen.
  rewrite !scored_run.
  destruct (map_ids_similar ids combination st st' Hs Hlen) as [Ho Hs1].
  destruct (map_ids_and_component_combination_vals__set_fields _ _ _ st) as [[[]|e] s1],
           (map_ids_and_component_combination_vals__set_fields _ _ _ st') as [[[]|e'] s1'];
    simpl in *; try discriminate; try congruence.
  apply evaluate_and_measure_agree. now apply Hs1.
Qed.

(** *** One iteration of a pass *)

Lemma read_targets_present (st : state) r :
  read_targets_and_obtained st = (Return r, st) ->
  dict_get "V_low_threshold" (dic_target_calc_values st) <> None
  /\ dict_get "V_high_threshold" (dic_target_calc_values st) <> None.
Proof.
  unfold read_targets_and_obtained, bind, get_dic_target_calc_values, process_inner_dic.
  destruct (dict_get "V_low_threshold" _); [|discriminate].
  destruct (dict_get "V_high_threshold" _); [|now destruct (TCalcValues.get _ _)].
  intros _. split; discriminate.
Qed.

Lemma read_targets_inv (st s1 : state) r :
  read_targets_and_obtained st = (Return r, s1) -> read_targets_and_obtained st = (Return r, st).
Proof.
  intros H. pose proof (read_targets_and_obtained_reads st) as E.
  rewrite H in E. simpl in E. now subst.
Qed.

Section Iterations.
Variable math_pow : float -> float -> outcome float.

Lemma calc_distance_error_best_run (st : state) tl th ol oh e :
  read_targets_and_obtained st = (Return (tl, th, ol, oh), st) ->
  distance math_pow tl th ol oh = Return e ->
  exists st',
    calc_distance_error_best math_pow st = (Return (e <? g_best_prev_error st)%float, st')
    /\ g_best_prev_error st'
       = if (e <? g_best_prev_error st)%float then e else g_best_prev_error st.
Proof.
  intros Hr Hd.
  destruct (read_targets_present st _ Hr) as [Hl Hh].
  unfold calc_distance_error_best.
  rewrite (bind_run_Return _ _ st (g_best_prev_error st) st) by reflexivity.
  rewrite (bind_run_Return _ _ st _ st Hr).
  cbv beta iota.
  rewrite (bind_run_Return _ _ st e st) by (unfold lift; now rewrite Hd).
  destruct (e <? g_best_prev_error st)%float.
  - unfold bind, set_best_prev_error, set_dic_target_calc_values, ret. simpl.
    destruct (dict_get "V_low_threshold" (dic_target_calc_values st)); [|contradiction].
    simpl. rewrite dict_get_alter. simpl.
    destruct (dict_get "V_high_threshold" (dic_target_calc_values st)); [|contradiction].
    simpl. eexists. split; reflexivity.
  - eexists. split; reflexivity.
Qed.

Lemma calc_distance_error_best_inv (st st' : state) (b : bool) :
  calc_distance_error_best math_pow st = (Return b, st') ->
  exists tl th ol oh e,
    read_targets_and_obtained st = (Return (tl, th, ol, oh), st)
    /\ distance math_pow tl th ol oh = Return e
    /\ b = (e <? g_best_prev_error st)%float
    /\ g_best_prev_error st' = if b then e else g_best_prev_error st.
Proof.
  intros H0. pose proof H0 as H.
  unfold calc_distance_error_best in H.
  apply bind_Return in H as (best & s1 & H1 & H).
  injection H1 as <- <-.
  apply bind_Return in H as ([[[tl th] ol] oh] & s2 & Hr & H).
  pose proof (read_targets_inv _ _ _ Hr) as Hr'.
  apply bind_Return in H as (e & s3 & He & _).
  unfold lift in He. injection He as He _.
  destruct (calc_distance_error_best_run st tl th ol oh e Hr' He) as (st'' & Hrun & Hbest).
  rewrite Hrun in H0. injection H0 as <- <-.
  exists tl, th, ol, oh, e. auto.
Qed.

Lemma scored_inv measure ids combination (st : state) (e : float) :
  fst (scored measure ids combination st) = Return e ->
  exists s1 s2 tl th ol oh,
    map_ids_and_component_combination_vals__set_fields ids combination Comp.C_CURR_VALUE st
    = (Return tt, s1)
    /\ calc_evaluation_of_circuit_equations s1 = (Return tt, s2)
    /\ read_targets_and_obtained s2 = (Return (tl, th, ol, oh), s2)
    /\ measure tl th ol oh = Return e.
Proof.
  unfold scored. intros H.
  destruct ((map_ids_and_component_combination_vals__set_fields ids combination
               Comp.C_CURR_VALUE ;;; calc_evaluation_of_circuit_equations ;;;
             r <- read_targets_and_obtained ;;
             (let '(tl, th, ol, oh) := r in lift (measure tl th ol oh))) st)
    as [o sf] eqn:E.
  simpl in H. subst o.
  apply bind_Return in E as ([] & s1 & Hm & E).
  apply bind_Return in E as ([] & s2 & Hc & E).
  apply bind_Return in E as ([[[tl th] ol] oh] & s3 & Hr & E).
  pose proof (read_targets_inv _ _ _ Hr) as Hr'.
  unfold lift in E. injection E as E _.
  exists s1, s2, tl, th, ol, oh. auto.
Qed.

Lemma scored_run_Return measure ids combination (st s1 s2 : state) tl th ol oh :
  map_ids_and_component_combination_vals__set_fields ids combination Comp.C_CURR_VALUE st
  = (Return tt, s1) ->
  calc_evaluation_of_circuit_equations s1 = (Return tt, s2) ->
  read_targets_and_obtained s2 = (Return (tl, th, ol, oh), s2) ->
  fst (scored measure ids combination st) = measure tl th ol oh.
Proof.
  intros Hm Hc Hr. unfold scored.
  rewrite (bind_run_Return _ _ _ _ _ Hm), (bind_run_Return _ _ _ _ _ Hc),
    (bind_run_Return _ _ _ _ _ Hr).
  reflexivity.
Qed.

(** An iteration of the best pass that returns has computed the error of
    its combination and kept the smaller of it and the best so far. *)
Lemma best_iteration_spec ids combination (st st' : state) :
  best_iteration math_pow ids combination st = (Return tt, st') ->
  exists e,
    best_error_of math_pow ids combination st = Return e
    /\ g_best_prev_error st'
       = if (e <? g_best_prev_error st)%float then e else g_best_prev_error st.
Proof.
  unfold best_iteration. intros H.
  apply bind_Return in H as ([] & s1 & Hm & H).
  apply bind_Return in H as ([] & s2 & Hc & H).
  apply bind_Return in H as (better & s3 & Hd & H).
  apply calc_distance_error_best_inv in Hd as (tl & th & ol & oh & e & Hr & He & Hb & Hg).
  assert (E1 : g_best_prev_error s1 = g_best_prev_error st).
  { pose proof (same_best_map_ids ids combination Comp.C_CURR_VALUE st) as F.
    now rewrite Hm in F. }
  assert (E2 : g_best_prev_error s2 = g_best_prev_error s1).
  { pose proof (same_best_calc_evaluation s1) as F. now rewrite Hc in F. }
  assert (E3 : g_best_prev_error st' = g_best_prev_error s3).
  { destruct better.
    - pose proof (same_best_map_ids ids combination Comp.C_BEST_VALUE s3) as F.
      now rewrite H in F.
    - now injection H as <-. }
  exists e. split.
  - unfold best_error_of. rewrite (scored_run_Return _ _ _ _ _ _ _ _ _ _ Hm Hc Hr). exact He.
  - rewrite E3, Hg, Hb, E2, E1. reflexivity.
Qed.

(** The answer of [calc_distance_error_best] for a combination whose error
    is computed: whether the error is below the best so far. *)
Lemma qualifies_best_run ids combination (st : state) (e : float) :
  best_error_of math_pow ids combination st = Return e ->
  exists st',
    qualifies_best math_pow ids combination st
    = (Return (e <? g_best_prev_error st)%float, st')
    /\ g_best_prev_error st'
       = if (e <? g_best_prev_error st)%float then e else g_best_prev_error st.
Proof.
  intros H.
  apply scored_inv in H as (s1 & s2 & tl & th & ol & oh & Hm & Hc & Hr & He).
  assert (E1 : g_best_prev_error s1 = g_best_prev_error st).
  { pose proof (same_best_map_ids ids combination Comp.C_CURR_VALUE st) as F.
    now rewrite Hm in F. }
  assert (E2 : g_best_prev_error s2 = g_best_prev_error s1).
  { pose proof (same_best_calc_evaluation s1) as F. now rewrite Hc in F. }
  destruct (calc_distance_error_best_run s2 tl th ol oh e Hr He) as (st' & Hrun & Hg).
  exists st'. unfold qualifies_best.
  rewrite (bind_run_Return _ _ _ _ _ Hm), (bind_run_Return _ _ _ _ _ Hc).
  rewrite Hrun, Hg, E2, E1. split; reflexivity.
Qed.

End Iterations.

Lemma calc_absolute_distance_error_worst_run (st : state) tl th ol oh :
  read_targets_and_obtained st = (Return (tl, th, ol, oh), st) ->
  let e := absolute_distance tl th ol oh in
  exists st',
    calc_absolute_distance_error_worst st
    = (Return (g_worst_prev_error st <? e)%float, st')
    /\ g_worst_prev_error st'
       = if (g_worst_prev_error st <? e)%float then e else g_worst_prev_error st.
Proof.
  intros Hr e.
  destruct (read_targets_present st _ Hr) as [Hl Hh].
  unfold calc_absolute_distance_error_worst.
  rewrite (bind_run_Return _ _ st (g_worst_prev_error st) st) by reflexivity.
  rewrite (bind_run_Return _ _ st _ st Hr).
  cbv beta iota. fold e.
  destruct (g_worst_prev_error st <? e)%float.
  - unfold bind, set_worst_prev_error, set_dic_target_calc_values, ret. simpl.
    destruct (dict_get "V_low_threshold" (dic_target_calc_values st)); [|contradiction].
    simpl. rewrite dict_get_alter. simpl.
    destruct (dict_get "V_high_threshold" (dic_target_calc_values st)); [|contradiction].
    simpl. eexists. split; reflexivity.
  - eexists. split; reflexivity.
Qed.

Lemma calc_absolute_distance_error_worst_inv (st st' : state) (b : bool) :
  calc_absolute_distance_error_worst st = (Return b, st') ->
  exists tl th ol oh,
    read_targets_and_obtained st = (Return (tl, th, ol, oh), st)
    /\ let e := absolute_distance tl th ol oh in
       b = (g_worst_prev_error st <? e)%float
       /\ g_worst_prev_error st' = if b then e else g_worst_prev_error st.
Proof.
  intros H0. pose proof H0 as H.
  unfold calc_absolute_distance_error_worst in H.
  apply bind_Return in H as (worst & s1 & H1 & H).
  injection H1 as <- <-.
  apply bind_Return in H as ([[[tl th] ol] oh] & s2 & Hr & _).
  pose proof (read_targets_inv _ _ _ Hr) as Hr'.
  destruct (calc_absolute_distance_error_worst_run st tl th ol oh Hr') as (st'' & Hrun & Hw).
  rewrite Hrun in H0. injection H0 as <- <-.
  exists tl, th, ol, oh. auto.
Qed.

(** An iteration of the worst pass that returns has computed the error of
    its combination, which is a NaN or not below zero, and kept the larger
    of it and the worst so far. *)
Lemma worst_iteration_spec ids combination (st st' : state) :
  worst_iteration ids combination st = (Return tt, st') ->
  exists e,
    worst_error_of ids combination st = Return e
    /\ g_worst_prev_error st'
       = (if (g_worst_prev_error st <? e)%float then e else g_worst_prev_error st)
    /\ (PrimFloat.is_nan e = true \/ e = 0%float \/ (0 <? e)%float = true).
Proof.
  unfold worst_iteration. intros H.
  apply bind_Return in H as ([] & s1 & Hm & H).
  apply bind_Return in H as ([] & s2 & Hc & H).
  apply bind_Return in H as (worse & s3 & Hd & H).
  apply calc_absolute_distance_error_worst_inv in Hd as (tl & th & ol & oh & Hr & Hb & Hg).
  assert (E1 : g_worst_prev_error s1 = g_worst_prev_error st).
  { pose proof (same_worst_map_ids ids combination Comp.C_CURR_VALUE st) as F.
    now rewrite Hm in F. }
  assert (E2 : g_worst_prev_error s2 = g_worst_prev_error s1).
  { pose proof (same_worst_calc_evaluation s1) as F. now rewrite Hc in F. }
  assert (E3 : g_worst_prev_error st' = g_worst_prev_error s3).
  { destruct worse.
    - pose proof (same_worst_map_ids ids combination Comp.C_WORST_VALUE s3) as F.
      now rewrite H in F.
    - now injection H as <-. }
  exists (absolute_distance tl th ol oh). split; [|split].
  - unfold worst_error_of. now rewrite (scored_run_Return _ _ _ _ _ _ _ _ _ _ Hm Hc Hr).
  - rewrite E3, Hg, Hb, E2, E1. reflexivity.
  - apply absolute_distance_cases.
Qed.

(** *** A pass keeps the extremum of the errors *)

Section Extremum.
(** [beats e b]: the error [e] replaces the extremum [b] kept so far. *)
Variable beats : float -> float -> bool.
Hypothesis beats_irrefl : forall x, beats x x = false.
Hypothesis beats_trans : forall x y z, beats x y = true -> beats y z = true -> beats x z = true.
Variable kept : state -> float.
Variable ids : list string.
Variable iteration : list float -> M unit.
Variable error_of : list float -> state -> outcome float.
Hypothesis iteration_spec :
  forall c st st',
    iteration c st = (Return tt, st') ->
    exists e, error_of c st = Return e
              /\ kept st' = if beats e (kept st) then e else kept st.
Hypothesis iteration_similar : forall c, preserves (similar ids) (iteration c).
Hypothesis error_similar :
  forall c st st',
    similar ids st st' -> List.length ids <= List.length c -> error_of c st' = error_of c st.

Lemma extremum_loop (combos : list (list float)) :
  forall st0 st st',
    similar ids st0 st ->
    (forall c, In c combos -> List.length ids <= List.length c) ->
    for_each combos iteration st = (Return tt, st') ->
    similar ids st0 st'
    /\ (forall c, In c combos ->
                  exists e, error_of c st0 = Return e /\ beats e (kept st') = false)
    /\ (kept st' = kept st
        \/ exists c, In c combos /\ error_of c st0 = Return (kept st'))
    /\ (kept st' = kept st \/ beats (kept st') (kept st) = true).
Proof.
  induction combos as [|c combos IH]; intros st0 st st' Hs Hlen H; simpl in H.
  - injection H as <-.
    split; [assumption|]. split; [intros c []|]. split; now left.
  - apply bind_Return in H as ([] & s1 & Hi & H).
    destruct (iteration_spec _ _ _ Hi) as (e & He & Hk).
    assert (Hs1 : similar ids st0 s1).
    { eapply frame_trans; [exact Hs|].
      pose proof (iteration_similar c st) as F. now rewrite Hi in F. }
    assert (He0 : error_of c st0 = Return e).
    { rewrite <- He. symmetry. apply error_similar; [assumption|]. apply Hlen. now left. }
    destruct (IH st0 s1 st' Hs1 (fun c' Hc' => Hlen c' (or_intror Hc')) H)
      as (Hs' & Hall & Hatt & Hmono).
    assert (Hb1 : beats e (kept s1) = false).
    { rewrite Hk. destruct (beats e (kept st)) eqn:B; [apply beats_irrefl | exact B]. }
    split; [assumption|]. split; [|split].
    + intros c' [<-|Hc']; [|now apply Hall].
      exists e. split; [assumption|].
      destruct Hmono as [->|Hlt]; [assumption|].
      destruct (beats e (kept st')) eqn:B; [|reflexivity].
      rewrite (beats_trans _ _ _ B Hlt) in Hb1. discriminate.
    + destruct Hatt as [E|(c' & Hc' & E)].
      * rewrite E, Hk. destruct (beats e (kept st)) eqn:B; [|now left].
        right. exists c. split; [now left|]. assumption.
      * right. exists c'. split; [now right | assumption].
    + rewrite Hk in Hmono. rewrite Hk in Hb1.
      destruct (beats e (kept st)) eqn:B.
      * right. destruct Hmono as [->|Hlt]; [assumption|]. eapply beats_trans; eassumption.
      * assumption.
Qed.

End Extremum.

(** ** The safety gate *)

#[global] Instance Frame_same_data : Frame same_data.
Proof.
  split.
  - intros st. repeat split.
  - intros a b c (F1 & R1 & C1 & L1 & T1 & B1 & W1) (F2 & R2 & C2 & L2 & T2 & B2 & W2).
    repeat split; congruence.
Qed.

Lemma same_data_similar (rem : list string) (st st' : state) :
  same_data st st' -> similar rem st st'.
Proof.
  intros (F & R & C & L & T & _). now apply similar_same_dictionaries.
Qed.

(** The prompt loop: every line read is one question asked; the loop ends
    at the first line that is an answer, or with the input. *)
Lemma confirm_spec (n : Z) (lines : list string) (st : state) :
  let r := confirm n lines st in
  same_data st (snd r)
  /\ exists asked,
      1 <= asked
      /\ log (snd r) = log st ++ repeat (Prompt n) asked
      /\ stdin (snd r) = skipn asked lines
      /\ (fst r = Return tt ->
          exists resp, nth_error lines (asked - 1) = Some resp /\ accepts resp = true).
Proof.
  revert st.
  induction lines as [|resp rest IH]; intros st; simpl.
  - split; [repeat split|]. exists 1. repeat split; auto. discriminate.
  - destruct (String.eqb resp "y" || String.eqb resp "Y") eqn:Ey;
      [|destruct (String.eqb resp "n" || String.eqb resp "N") eqn:En]; simpl.
    + split; [repeat split|]. exists 1. repeat split; auto.
      intros _. exists resp. split; [reflexivity | exact Ey].
    + split; [repeat split|]. exists 1. repeat split; auto. discriminate.
    + destruct (IH (input n rest st)) as [Hd (asked & Ha & Hl & Hs & Hy)].
      split.
      * eapply frame_trans; [|exact Hd]. repeat split.
      * exists (S asked). split; [lia|]. split; [|split].
        -- rewrite Hl. simpl. now rewrite <- app_assoc.
        -- exact Hs.
        -- intros Hr. destruct (Hy Hr) as (r' & Hn & Hacc).
           exists r'. split; [|assumption].
           destruct asked as [|asked]; [lia|].
           simpl in *. now rewrite Nat.sub_0_r in *.
Qed.


Lemma safety_gate_open (n : Z) (st : state) :
  (n <= 25000000)%Z -> safety_gate n st = (Return tt, st).
Proof.
  intros Hn. unfold safety_gate.
  destruct (Z.ltb_spec 25000000 n); [lia | reflexivity].
Qed.

Lemma safety_gate_closed (n : Z) (st : state) :
  (25000000 < n)%Z -> safety_gate n st = confirm n (stdin st) st.
Proof.
  intros Hn. unfold safety_gate.
  destruct (Z.ltb_spec 25000000 n); [reflexivity | lia].
Qed.

Lemma safety_gate_same_data (n : Z) : preserves same_data (safety_gate n).
Proof.
  intros st. unfold safety_gate.
  destruct (25000000 <? n)%Z; [apply confirm_spec | apply frame_refl].
Qed.

(** ** The passes *)

Lemma combined_lists_length (field : Comp.expansion_key) (st : state) :
  List.length (fst (combined_lists field st)) = List.length (snd (combined_lists field st)).
Proof.
  unfold combined_lists. rewrite make_two_combined_list_of_components_spec.
  simpl. now rewrite !length_map.
Qed.

Lemma enumerate_inv iteration ids lists (st st' : state) :
  enumerate iteration ids lists st = (Return tt, st') ->
  exists pools,
    iterables lists = Return pools
    /\ List.length lists = List.length pools
    /\ for_each (itertools_product pools) (iteration ids) st = (Return tt, st').
Proof.
  unfold enumerate. intros H.
  apply bind_Return in H as (pools & s1 & Hp & H).
  unfold lift in Hp. injection Hp as Hp <-.
  exists pools. split; [assumption|]. split; [|assumption].
  apply iterables_inv in Hp. subst. now rewrite length_map.
Qed.

Lemma evaluating_enumerate_worst ids lists :
  preserves evaluating (enumerate worst_iteration ids lists).
Proof.
  unfold enumerate.
  apply preserves_bind; [typeclasses eauto | apply preserves_lift; typeclasses eauto |].
  intros pools. apply preserves_for_each; [typeclasses eauto|].
  intros c. apply evaluating_worst_iteration.
Qed.

Lemma combination_covers_ids (field : Comp.expansion_key) (st : state)
    (pools : list (list float)) (c : list float) :
  iterables (snd (combined_lists field st)) = Return pools ->
  In c (itertools_product pools) ->
  List.length (fst (combined_lists field st)) <= List.length c.
Proof.
  intros Hp Hc.
  rewrite (length_combination pools c Hc), combined_lists_length.
  apply iterables_inv in Hp. rewrite Hp, length_map. lia.
Qed.

(** *** The error of a combination, from the thresholds obtained *)

Lemma target_at_get (k : string) (st : state) (v : float) :
  target_at k (dic_target_calc_values st) = Some (Some v) ->
  get_dic_target_calc_values k TCalcValues.C_TARGET_VALUE st = (Return v, st).
Proof.
  unfold target_at, get_dic_target_calc_values, process_inner_dic.
  destruct (dict_get k _) as [t|]; [|discriminate]. simpl. now intros [= ->].
Qed.

(** The error is the measure between the target values, as the state holds
    them before the combination is written, and the two thresholds that the
    circuit equations obtain once it is written as the current values. *)
Lemma scored_formula measure ids c (st : state) (e : float) :
  fst (scored measure ids c st) = Return e ->
  exists s_c tl th ol oh,
    map_ids_and_component_combination_vals__set_fields ids c Comp.C_CURR_VALUE st
    = (Return tt, s_c)
    /\ fst (circuit_equations s_c) = Return (ol, oh)
    /\ get_dic_target_calc_values "V_low_threshold" TCalcValues.C_TARGET_VALUE st
       = (Return tl, st)
    /\ get_dic_target_calc_values "V_high_threshold" TCalcValues.C_TARGET_VALUE st
       = (Return th, st)
    /\ measure tl th ol oh = Return e.
Proof.
  rewrite scored_run. intros H.
  assert (Hs : similar ids st
                 (snd (map_ids_and_component_combination_vals__set_fields
                         ids c Comp.C_CURR_VALUE st))).
  { apply (preserves_map_ids (similar ids) (fun id => In id ids)).
    - intros. now apply similar_set_component_field.
    - apply Forall_In_self. }
  destruct (map_ids_and_component_combination_vals__set_fields ids c Comp.C_CURR_VALUE st)
    as [[[]|x] s_c]; [|discriminate].
  simpl in Hs. rewrite evaluate_and_measure_view in H.
  rewrite !(sim_targets _ _ _ Hs) in H. unfold measured in H.
  destruct (fst (circuit_equations s_c)) as [[ol oh]|x] eqn:Hc; [|discriminate].
  destruct (target_at "V_low_threshold" (dic_target_calc_values st)) as [[tl|]|] eqn:Tl;
    try discriminate.
  destruct (target_at "V_high_threshold" (dic_target_calc_values st)) as [[th|]|] eqn:Th;
    try discriminate.
  exists s_c, tl, th, ol, oh.
  split; [reflexivity|]. split; [assumption|].
  split; [now apply target_at_get|]. split; [now apply target_at_get | assumption].
Qed.

(** *** The best pass, from the count to its loop *)

Lemma preserves_safety_gate (R : state -> state -> Prop) (n : Z) :
  (forall st st', same_data st st' -> R st st') -> preserves R (safety_gate n).
Proof. intros HR st. apply HR. apply safety_gate_same_data. Qed.

Lemma lift_Return {A} (o : outcome A) (a : A) (st st' : state) :
  lift o st = (Return a, st') -> o = Return a /\ st' = st.
Proof. unfold lift. intros [= -> <-]. now split. Qed.




Section Search.
Variable math_pow : float -> float -> outcome float.
Variables start_time end_time : float.

(** The estimate and the marks write nothing: a loop that returns has run
    the iterations of its combinations one after the other. *)
Lemma search_loop_Return ids n five_perc combos :
  forall index (st st' : state),
    search_loop math_pow start_time end_time ids n five_perc index combos st
    = (Return tt, st') ->
    for_each combos (best_iteration math_pow ids) st = (Return tt, st').
Proof.
  induction combos as [|c combos IH]; intros index st st' H; simpl in *; [assumption|].
  apply bind_Return in H as ([] & s1 & H1 & H). apply lift_Return in H1 as [_ ->].
  apply bind_Return in H as ([] & s2 & H2 & H). apply lift_Return in H2 as [_ ->].
  apply bind_Return in H as ([] & s3 & H3 & H).
  rewrite (bind_run_Return _ _ _ _ _ H3). eapply IH. eassumption.
Qed.

Lemma preserves_search_loop (R : state -> state -> Prop) {HR : Frame R}
    ids n five_perc combos :
  (forall c, preserves R (best_iteration math_pow ids c)) ->
  forall index,
    preserves R (search_loop math_pow start_time end_time ids n five_perc index combos).
Proof.
  intros Hi. induction combos as [|c combos IH]; intros index; simpl.
  - apply preserves_ret; typeclasses eauto.
  - apply preserves_bind; [typeclasses eauto | apply preserves_lift; typeclasses eauto |].
    intros _.
    apply preserves_bind; [typeclasses eauto | apply preserves_lift; typeclasses eauto |].
    intros _. apply preserves_bind; [typeclasses eauto | apply Hi |].
    intros _. apply IH.
Qed.

Lemma preserves_search (R : state -> state -> Prop) {HR : Frame R} n five_perc ids lists :
  (forall c, preserves R (best_iteration math_pow ids c)) ->
  preserves R (search math_pow start_time end_time n five_perc ids lists).
Proof.
  intros Hi. unfold search.
  apply preserves_bind; [typeclasses eauto | apply preserves_lift; typeclasses eauto |].
  intros pools. now apply preserves_search_loop.
Qed.

Lemma preserves_full_search (R : state -> state -> Prop) {HR : Frame R} :
  (forall st st', same_data st st' -> R st st') ->
  (forall ids c, preserves R (best_iteration math_pow ids c)) ->
  preserves R (full_search_of_R_C_L_component_values math_pow start_time end_time).
Proof.
  intros Hd Hi st. unfold full_search_of_R_C_L_component_values. cbv beta zeta.
  apply (preserves_bind R); [apply preserves_lift; typeclasses eauto|].
  intros n. apply preserves_bind; [typeclasses eauto | apply preserves_lift; typeclasses eauto |].
  intros five_perc. apply preserves_bind; [typeclasses eauto | |].
  - now apply preserves_safety_gate.
  - intros _. apply preserves_search; [typeclasses eauto|]. apply Hi.
Qed.

(** The pass, once the count and its twentieth are computed. *)
Lemma full_search_run (st : state) (n five_perc : Z) :
  count_evaluations (snd (combined_lists Comp.C_EXPANDED_VALUES st)) 1%Z = Return n ->
  five_percent n = Return five_perc ->
  full_search_of_R_C_L_component_values math_pow start_time end_time st
  = (safety_gate n ;;;
     search math_pow start_time end_time n five_perc
       (fst (combined_lists Comp.C_EXPANDED_VALUES st))
       (snd (combined_lists Comp.C_EXPANDED_VALUES st))) st.
Proof.
  intros Hn Hf. unfold full_search_of_R_C_L_component_values. cbv beta zeta.
  rewrite (bind_run_Return _ _ st n st) by (unfold lift; now rewrite Hn).
  now rewrite (bind_run_Return _ _ st five_perc st) by (unfold lift; now rewrite Hf).
Qed.


(** A pass that returns has computed the count and its twentieth, has gone
    through the gate, and has run the iterations of the product. *)
Lemma full_search_inv (st st' : state) :
  full_search_of_R_C_L_component_values math_pow start_time end_time st = (Return tt, st') ->
  exists n five_perc sg pools,
    count_evaluations (snd (combined_lists Comp.C_EXPANDED_VALUES st)) 1%Z = Return n
    /\ five_percent n = Return five_perc
    /\ safety_gate n st = (Return tt, sg)
    /\ iterables (snd (combined_lists Comp.C_EXPANDED_VALUES st)) = Return pools
    /\ for_each (itertools_product pools)
                (best_iteration math_pow (fst (combined_lists Comp.C_EXPANDED_VALUES st))) sg
       = (Return tt, st').
Proof.
  intros H. unfold full_search_of_R_C_L_component_values in H. cbv beta zeta in H.
  apply bind_Return in H as (n & s0 & Hn & H). apply lift_Return in Hn as [Hn ->].
  apply bind_Return in H as (five_perc & s0 & Hf & H). apply lift_Return in Hf as [Hf ->].
  apply bind_Return in H as ([] & sg & Hg & H).
  unfold search in H.
  apply bind_Return in H as (pools & s0 & Hp & H). apply lift_Return in Hp as [Hp ->].
  apply search_loop_Return in H.
  now exists n, five_perc, sg, pools.
Qed.

End Search.

(** C1, amended.  When the best pass returns, the final [best_error] is the
    minimum of the [best_error] the pass started with (1e10 when the module
    has just been loaded, not an infinity) and of the Euclidean errors of
    all the enumerated combinations, each computed from what the circuit
    equations obtain for it: no enumerated combination has a strictly
    smaller error, the final value is the initial one or the error of an
    enumerated combination, and it is the error of one, hence the minimum
    over the enumeration, as soon as some combination has an error below the
    initial value.  The final value is never above the initial one: it is
    the initial one or strictly below it, and it is the initial one when no
    combination has an error below it.  The error of a combination is the
    square root of the sum of the squares of the two differences between
    the target thresholds and the thresholds the circuit equations obtain
    once the combination is written as the current values. *)
Theorem best_pass_minimum :
  forall (math_pow : float -> float -> outcome float) (start_time end_time : float)
         (st st' : state),
    full_search_of_R_C_L_component_values math_pow start_time end_time st = (Return tt, st') ->
    let ids := fst (combined_lists Comp.C_EXPANDED_VALUES st) in
    let error := fun c => best_error_of math_pow ids c st in
    exists pools,
      iterables (snd (combined_lists Comp.C_EXPANDED_VALUES st)) = Return pools
      /\ (forall c, In c (itertools_product pools) ->
                    exists e, error c = Return e
                              /\ (e <? g_best_prev_error st')%float = false)
      /\ (g_best_prev_error st' = g_best_prev_error st
          \/ exists c, In c (itertools_product pools)
                       /\ error c = Return (g_best_prev_error st'))
      /\ (forall c e, In c (itertools_product pools) -> error c = Return e ->
                      (e <? g_best_prev_error st)%float = true ->
                      exists c', In c' (itertools_product pools)
                                 /\ error c' = Return (g_best_prev_error st'))
      /\ initial_best_prev_error = 10000000000%float
      /\ PrimFloat.is_infinity initial_best_prev_error = false
      /\ (g_best_prev_error st' = g_best_prev_error st
          \/ (g_best_prev_error st' <? g_best_prev_error st)%float = true)
      /\ (g_best_prev_error st <? g_best_prev_error st')%float = false
      /\ ((forall c e, In c (itertools_product pools) -> error c = Return e ->
                       (e <? g_best_prev_error st)%float = false) ->
          g_best_prev_error st' = g_best_prev_error st)
      /\ (forall c e,
             In c (itertools_product pools) -> error c = Return e ->
             exists s_c tl th ol oh p_low p_high,
               map_ids_and_component_combination_vals__set_fields
                 ids c Comp.C_CURR_VALUE st = (Return tt, s_c)
               /\ fst (circuit_equations s_c) = Return (ol, oh)
               /\ get_dic_target_calc_values "V_low_threshold" TCalcValues.C_TARGET_VALUE st
                  = (Return tl, st)
               /\ get_dic_target_calc_values "V_high_threshold" TCalcValues.C_TARGET_VALUE st
                  = (Return th, st)
               /\ math_pow (tl - ol)%float 2%float = Return p_low
               /\ math_pow (th - oh)%float 2%float = Return p_high
               /\ (p_low + p_high <? 0)%float = false
               /\ e = PrimFloat.sqrt (p_low + p_high)).
Proof.
  intros math_pow start_time end_time st st' H ids error.
  apply full_search_inv in H as (n & five_perc & sg & pools & Hn & Hf & Hg & Hp & Hloop).
  pose proof (safety_gate_same_data n st) as Hd. rewrite Hg in Hd. simpl in Hd.
  assert (Hbest : g_best_prev_error sg = g_best_prev_error st) by apply Hd.
  destruct (extremum_loop (fun e b => (e <? b)%float) ltb_irrefl ltb_trans
              g_best_prev_error ids (best_iteration math_pow ids)
              (best_error_of math_pow ids)
              (best_iteration_spec math_pow ids)
              (similar_best_iteration math_pow ids)
              (fun c a b => scored_similar (distance math_pow) ids c a b)
              (itertools_product pools) st sg st'
              (same_data_similar ids st sg Hd)
              (fun c Hc => combination_covers_ids _ st pools c Hp Hc)
              Hloop)
    as (_ & Hall & Hatt & Hmono).
  rewrite Hbest in Hatt, Hmono.
  exists pools. split; [assumption|]. split; [exact Hall|]. split; [exact Hatt|].
  split; [|split; [reflexivity|split; [reflexivity|]]].
  { intros c e Hc He Hlt.
    destruct Hatt as [E|Hatt]; [|exact Hatt].
    destruct (Hall c Hc) as (e' & He' & Hge).
    unfold error in He. rewrite He in He'. injection He' as <-.
    rewrite E, Hlt in Hge. discriminate. }
  split; [exact Hmono|]. split; [|split].
  - destruct Hmono as [->|Hlt]; [apply ltb_irrefl|].
    destruct (g_best_prev_error st <? g_best_prev_error st')%float eqn:B; [|reflexivity].
    pose proof (ltb_trans _ _ _ B Hlt) as Hxx. now rewrite ltb_irrefl in Hxx.
  - intros Hnone.
    destruct Hmono as [E|Hlt]; [exact E|].
    destruct Hatt as [E|(c & Hc & He)]; [exact E|].
    rewrite (Hnone c _ Hc He) in Hlt. discriminate.
  - intros c e Hc He.
    apply scored_formula in He as (s_c & tl & th & ol & oh & Hm & Hce & Htl & Hth & Hdist).
    unfold distance in Hdist.
    destruct (math_pow (tl - ol)%float 2%float) as [p_low|] eqn:Pl; [|discriminate].
    destruct (math_pow (th - oh)%float 2%float) as [p_high|] eqn:Ph; [|discriminate].
    simpl in Hdist. unfold math_sqrt in Hdist.
    destruct (p_low + p_high <? 0)%float eqn:Neg; [discriminate|].
    apply Return_inj in Hdist.
    exists s_c, tl, th, ol, oh, p_low, p_high. repeat (split; [assumption|]).
    now symmetry.
Qed.

(** C3, amended.  When the module is loaded [best_error] is 1e10, a finite
    number: a combination, the first one included, is taken as the best so
    far exactly when its Euclidean error is strictly below the [best_error]
    of the state it is evaluated in, that is below 1e10 for the first
    combination of a pass on a module just loaded. *)
Theorem first_combination_qualifies :
  forall (math_pow : float -> float -> outcome float) (st : state)
         (ids : list string) (c : list float) (e : float),
    g_best_prev_error st = initial_best_prev_error ->
    best_error_of math_pow ids c st = Return e ->
    initial_best_prev_error = 10000000000%float
    /\ PrimFloat.is_infinity initial_best_prev_error = false
    /\ exists st',
        qualifies_best math_pow ids c st = (Return (e <? 10000000000)%float, st')
        /\ g_best_prev_error st' = if (e <? 10000000000)%float then e else 10000000000%float.
Proof.
  intros math_pow st ids c e Hinit He.
  split; [reflexivity|]. split; [reflexivity|].
  destruct (qualifies_best_run math_pow ids c st e He) as (st' & Hq & Hg).
  rewrite Hinit in Hq, Hg. now exists st'.
Qed.

(** *** The tolerance bands of the worst pass *)

Lemma expand_component_tolerance_value_list_returns (d d' : dict Comp.t) :
  expand_component_tolerance_value_list d = (Return tt, d') ->
  Forall2 (fun kc kc' =>
             fst kc' = fst kc
             /\ exists l,
                 expand_each_component_tolerance (Comp.best_value (snd kc))
                                                 (Comp.tolerance (snd kc)) = Return l
                 /\ snd kc' = Comp.set_expansion Comp.C_EXPANDED_TOLERANCE l (snd kc))
          d d'.
Proof.
  revert d'.
  induction d as [|[k c] d IH]; intros d'; simpl.
  - intros [= <-]. constructor.
  - destruct (expand_each_component_tolerance _ _) as [l|e] eqn:E; [|discriminate].
    destruct (expand_component_tolerance_value_list d) as [o d1].
    intros [= -> <-].
    constructor; [|now apply IH].
    simpl. split; [reflexivity|]. now exists l.
Qed.

Lemma Forall2_In_r {A B} (P : A -> B -> Prop) (l : list A) (l' : list B) (y : B) :
  Forall2 P l l' -> In y l' -> exists x, In x l /\ P x y.
Proof.
  induction 1 as [|x y' l l' Hxy _ IH]; intros Hin; [contradiction|].
  destruct Hin as [<-|Hin].
  - exists x. split; [now left | assumption].
  - destruct (IH Hin) as (x' & Hx' & HP). exists x'. split; [now right | assumption].
Qed.

Lemma expanded_tolerance_entries (d d' : dict Comp.t) (name : string) (pool : list float) :
  expand_component_tolerance_value_list d = (Return tt, d') ->
  In (name, Some pool) (entries Comp.C_EXPANDED_TOLERANCE d') ->
  band_of d pool.
Proof.
  intros He Hin.
  apply expand_component_tolerance_value_list_returns in He.
  unfold entries in Hin. apply in_map_iff in Hin as ([k' c'] & Heq & Hin).
  destruct (Forall2_In_r _ _ _ _ He Hin) as ([k c] & Hkc & Hk & l & Hl & Hc').
  simpl in *. subst c'. simpl in Heq. injection Heq as _ <-.
  now exists k, c.
Qed.

Lemma expand_tolerances_inv (st s1 : state) :
  expand_tolerances st = (Return tt, s1) ->
  expand_component_tolerance_value_list (dic_resistors st) = (Return tt, dic_resistors s1)
  /\ expand_component_tolerance_value_list (dic_capacitors st) = (Return tt, dic_capacitors s1)
  /\ expand_component_tolerance_value_list (dic_inductors st) = (Return tt, dic_inductors s1)
  /\ g_worst_prev_error s1 = g_worst_prev_error st
  /\ evaluating st s1.
Proof.
  unfold expand_tolerances, bind.
  destruct (expand_component_tolerance_value_list (dic_resistors st)) as [[[]|e] dr] eqn:Er;
    [|discriminate].
  simpl.
  destruct (expand_component_tolerance_value_list (dic_capacitors st)) as [[[]|e] dc] eqn:Ec;
    [|discriminate].
  simpl.
  destruct (expand_component_tolerance_value_list (dic_inductors st)) as [[[]|e] dl] eqn:El;
    [|discriminate].
  intros [= <-]. simpl. repeat split; try reflexivity.
  exists 0. simpl. now rewrite app_nil_r.
Qed.

Lemma pools_are_bands (st s1 : state) (pools : list (list float)) :
  expand_tolerances st = (Return tt, s1) ->
  iterables (snd (combined_lists Comp.C_EXPANDED_TOLERANCE s1)) = Return pools ->
  Forall (band_of (dic_resistors st ++ dic_capacitors st ++ dic_inductors st)) pools.
Proof.
  intros He Hp.
  apply expand_tolerances_inv in He as (Hr & Hc & Hl & _).
  apply iterables_inv in Hp.
  unfold combined_lists in Hp. rewrite make_two_combined_list_of_components_spec in Hp.
  simpl in Hp.
  apply Forall_forall. intros pool Hpool.
  assert (Hin : In (Some pool) (map Some pools)) by now apply in_map.
  rewrite <- Hp in Hin. apply in_map_iff in Hin as ([name l] & Hl' & Hin).
  simpl in Hl'. subst l.
  destruct (make_list_component_expanded_values_spec (dic_resistors s1)
              Comp.C_EXPANDED_TOLERANCE) as [_ Pr].
  destruct (make_list_component_expanded_values_spec (dic_capacitors s1)
              Comp.C_EXPANDED_TOLERANCE) as [_ Pc].
  destruct (make_list_component_expanded_values_spec (dic_inductors s1)
              Comp.C_EXPANDED_TOLERANCE) as [_ Pl].
  assert (Hband : forall d d', expand_component_tolerance_value_list d = (Return tt, d') ->
                               In (name, Some pool)
                                  (make_list_component_expanded_values
                                     d' Comp.C_EXPANDED_TOLERANCE) ->
                               band_of d pool).
  { intros d d' Hd Hi. apply (expanded_tolerance_entries d d' name); [assumption|].
    eapply Permutation_in; [|exact Hi].
    apply make_list_component_expanded_values_spec. }
  assert (Hmono : forall d1 d2 p, band_of d1 p \/ band_of d2 p -> band_of (d1 ++ d2) p).
  { intros d1 d2 p [(k & c & Hi & Hb)|(k & c & Hi & Hb)];
      exists k, c; (split; [apply in_or_app; auto | assumption]). }
  apply in_app_or in Hin as [Hin|Hin]; [|apply in_app_or in Hin as [Hin|Hin]].
  - apply Hmono. left. eapply Hband; eassumption.
  - apply Hmono. right. apply Hmono. left. eapply Hband; eassumption.
  - apply Hmono. right. apply Hmono. right. eapply Hband; eassumption.
Qed.


(** *** What an iteration logs *)

#[global] Instance Frame_same_interaction : Frame same_interaction.
Proof.
  split.
  - intros st. split; reflexivity.
  - intros a b c [S1 L1] [S2 L2]. split; congruence.
Qed.

Lemma same_interaction_set_component_field id field val :
  preserves same_interaction (set_component_field id field val).
Proof.
  intros st. rewrite set_component_field_route.
  destruct (route id) as [kd|]; [|apply frame_refl].
  destruct (dict_get id (dic_of kd st)); [|apply frame_refl].
  destruct kd; split; reflexivity.
Qed.

Lemma same_interaction_set_dic_target_calc_values id field val :
  preserves same_interaction (set_dic_target_calc_values id field val).
Proof.
  intros st. unfold set_dic_target_calc_values.
  destruct (dict_get id (dic_target_calc_values st)); split; reflexivity.
Qed.

Lemma same_interaction_map_ids ids combination field :
  preserves same_interaction
            (map_ids_and_component_combination_vals__set_fields ids combination field).
Proof.
  apply (preserves_map_ids same_interaction (fun _ => True)).
  - intros. apply same_interaction_set_component_field.
  - apply Forall_True.
Qed.

Lemma same_interaction_calc_distance_error_best math_pow :
  preserves same_interaction (calc_distance_error_best math_pow).
Proof.
  apply (preserves_calc_distance_error_best same_interaction).
  - intros. apply same_interaction_set_dic_target_calc_values.
  - intros e st. split; reflexivity.
Qed.

Lemma same_interaction_calc_absolute_distance_error_worst :
  preserves same_interaction calc_absolute_distance_error_worst.
Proof.
  apply (preserves_calc_absolute_distance_error_worst same_interaction).
  - intros. apply same_interaction_set_dic_target_calc_values.
  - intros e st. split; reflexivity.
Qed.

Lemma calc_evaluation_logs (st st' : state) :
  calc_evaluation_of_circuit_equations st = (Return tt, st') ->
  stdin st' = stdin st /\ log st' = log st ++ [Evaluate].
Proof.
  rewrite calc_evaluation_run. cbv zeta.
  destruct (fst (circuit_equations st)) as [[vl vh]|e]; [|discriminate].
  destruct (dict_get "V_low_threshold" _); [|discriminate].
  destruct (dict_get "V_high_threshold" _); [|discriminate].
  intros [= <-]. split; reflexivity.
Qed.

Lemma run_preserved (R : state -> state -> Prop) {A} (m : M A) (st st' : state) o :
  preserves R m -> m st = (o, st') -> R st st'.
Proof. intros P H. specialize (P st). now rewrite H in P. Qed.

(** An iteration that returns has evaluated the circuit once. *)
Lemma best_iteration_logs math_pow ids c (st st' : state) :
  best_iteration math_pow ids c st = (Return tt, st') ->
  stdin st' = stdin st /\ log st' = log st ++ [Evaluate].
Proof.
  unfold best_iteration. intros H.
  apply bind_Return in H as ([] & s1 & Hm & H).
  apply bind_Return in H as ([] & s2 & Hc & H).
  apply bind_Return in H as (better & s3 & Hd & H).
  apply (run_preserved same_interaction) in Hm as [S1 L1];
    [|apply same_interaction_map_ids].
  apply calc_evaluation_logs in Hc as [S2 L2].
  apply (run_preserved same_interaction) in Hd as [S3 L3];
    [|apply same_interaction_calc_distance_error_best].
  assert (S4 : same_interaction s3 st').
  { destruct better.
    - eapply run_preserved; [apply same_interaction_map_ids | exact H].
    - injection H as <-. apply frame_refl. }
  destruct S4 as [S4 L4]. split; congruence.
Qed.

Lemma worst_iteration_logs ids c (st st' : state) :
  worst_iteration ids c st = (Return tt, st') ->
  stdin st' = stdin st /\ log st' = log st ++ [Evaluate].
Proof.
  unfold worst_iteration. intros H.
  apply bind_Return in H as ([] & s1 & Hm & H).
  apply bind_Return in H as ([] & s2 & Hc & H).
  apply bind_Return in H as (worse & s3 & Hd & H).
  apply (run_preserved same_interaction) in Hm as [S1 L1];
    [|apply same_interaction_map_ids].
  apply calc_evaluation_logs in Hc as [S2 L2].
  apply (run_preserved same_interaction) in Hd as [S3 L3];
    [|apply same_interaction_calc_absolute_distance_error_worst].
  assert (S4 : same_interaction s3 st').
  { destruct worse.
    - eapply run_preserved; [apply same_interaction_map_ids | exact H].
    - injection H as <-. apply frame_refl. }
  destruct S4 as [S4 L4]. split; congruence.
Qed.

Lemma for_each_logs (iteration : list float -> M unit) (combos : list (list float)) :
  (forall c st st', iteration c st = (Return tt, st') ->
                    stdin st' = stdin st /\ log st' = log st ++ [Evaluate]) ->
  forall st st',
    for_each combos iteration st = (Return tt, st') ->
    stdin st' = stdin st /\ log st' = log st ++ repeat Evaluate (List.length combos).
Proof.
  intros Hi. induction combos as [|c combos IH]; intros st st' H; simpl in H.
  - injection H as <-. simpl. now rewrite app_nil_r.
  - apply bind_Return in H as ([] & s1 & H1 & H).
    destruct (Hi _ _ _ H1) as [S1 L1]. destruct (IH _ _ H) as [S2 L2].
    split; [congruence|]. rewrite L2, L1, <- app_assoc. reflexivity.
Qed.




(** *** The order in which the passes take the combinations *)




(** ** Failures before the enumeration *)

Lemma print_numbers_reads (b : bool) (st : state) : snd (print_numbers b st) = st.
Proof. now destruct b. Qed.

Lemma print_specification_reads (st : state) : snd (print_specification st) = st.
Proof.
  unfold print_specification, bind.
  destruct (forallb _ (dic_in_fix_param st)); simpl; [|reflexivity].
  now destruct (forallb _ (dic_target_calc_values st)).
Qed.

(** The three expansions of [main] write candidate lists in the component
    dictionaries and nothing else. *)
Lemma expand_components_frame (st : state) :
  let s1 := snd (expand_components st) in
  log s1 = log st /\ stdin s1 = stdin st
  /\ g_best_prev_error s1 = g_best_prev_error st
  /\ g_worst_prev_error s1 = g_worst_prev_error st
  /\ dic_target_calc_values s1 = dic_target_calc_values st.
Proof.
  unfold expand_components, bind.
  destruct (expand_component (dic_resistors st) _) as [[[]|e] dr]; simpl; [|now repeat split].
  destruct (expand_component (dic_capacitors st) _) as [[[]|e] dc]; simpl; [|now repeat split].
  destruct (expand_component (dic_inductors st) _) as [[[]|e] dl]; simpl; now repeat split.
Qed.

Lemma expand_components_no_source (st : state) k c :
  In (k, c) (dic_resistors st ++ dic_capacitors st ++ dic_inductors st) ->
  no_source c ->
  fst (expand_components st) = Raise TypeError.
Proof.
  intros Hin Hc.
  unfold expand_components, bind.
  pose proof (expand_component_outcome (Some E24_resistor_values) (dic_resistors st)) as Or.
  pose proof (expand_component_outcome (Some E12_capacitor_values) (dic_capacitors st)) as Oc.
  pose proof (expand_component_outcome None (dic_inductors st)) as Ol.
  pose proof (fun H => expand_component_no_source (Some E24_resistor_values)
                         (dic_resistors st) k c H Hc) as Nr.
  pose proof (fun H => expand_component_no_source (Some E12_capacitor_values)
                         (dic_capacitors st) k c H Hc) as Nc.
  pose proof (fun H => expand_component_no_source None (dic_inductors st) k c H Hc) as Nl.
  destruct (expand_component (dic_resistors st) _) as [[[]|e] dr]; simpl in *.
  2:{ destruct Or as [Or|Or]; [discriminate | exact Or]. }
  destruct (expand_component (dic_capacitors st) _) as [[[]|e] dc]; simpl in *.
  2:{ destruct Oc as [Oc|Oc]; [discriminate | exact Oc]. }
  destruct (expand_component (dic_inductors st) _) as [[[]|e] dl]; simpl in *.
  2:{ destruct Ol as [Ol|Ol]; [discriminate | exact Ol]. }
  apply in_app_or in Hin as [Hin|Hin]; [now specialize (Nr Hin)|].
  apply in_app_or in Hin as [Hin|Hin]; [now specialize (Nc Hin) | now specialize (Nl Hin)].
Qed.

(** C8, as the claim states it, fails: the expansion of a component with
    none of the three sources does not end in an error that the program
    reports; what it raises is the interpreter's [TypeError], on iterating a
    scale list that is [None]. *)
Lemma expansion_failure_is_not_reported :
  ~ exists e,
      expand_values (snd (component "R1" None None None 1.0 "No source of values."))
                    (Some E24_resistor_values) = Raise e
      /\ raised_by_program e = true.
Proof.
  intros (e & He & Hp). vm_compute in He. injection He as <-. discriminate Hp.
Qed.

(** C8, amended.  For every component with none of the three sources the
    expansion fails with the [TypeError] the interpreter raises on
    iterating the missing scale list, whatever the standard series; and the
    failure comes before the enumeration: in [main], the expansion of the
    dictionaries raises [TypeError], nothing is asked or evaluated, the
    extrema stay as they were, and [main] itself ends with this
    [TypeError] once the specification is printed and consistent. *)
Theorem expansion_without_source_fails :
  forall (math_pow : float -> float -> outcome float) (start_time end_time : float)
         (st : state) (k : string) (c : Comp.t),
    In (k, c) (dic_resistors st ++ dic_capacitors st ++ dic_inductors st) ->
    no_source c ->
    (forall series, expand_values c series = Raise TypeError)
    /\ raised_by_program TypeError = false
    /\ fst (expand_components st) = Raise TypeError
    /\ log (snd (main math_pow start_time end_time st)) = log st
    /\ g_best_prev_error (snd (main math_pow start_time end_time st)) = g_best_prev_error st
    /\ (fst (print_specification st) = Return tt ->
        fst (consistency_testing_of_fixed_parameters st) = Return true ->
        fst (main math_pow start_time end_time st) = Raise TypeError).
Proof.
  intros math_pow start_time end_time st k c Hin Hc.
  pose proof (expand_components_no_source st k c Hin Hc) as He.
  pose proof (expand_components_frame st) as (Hl & _ & Hb & _).
  split; [intros series; now apply expand_values_no_source|].
  split; [reflexivity|]. split; [assumption|].
  unfold main, bind.
  pose proof (print_specification_reads st) as Hp.
  destruct (print_specification st) as [[[]|e] s0]; simpl in Hp; subst s0;
    [|repeat split; discriminate].
  pose proof (consistency_testing_reads st) as Hq.
  destruct (consistency_testing_of_fixed_parameters st) as [[passed|e] s0];
    simpl in Hq; subst s0; [|repeat split; discriminate].
  destruct passed; simpl.
  - destruct (expand_components st) as [[[]|e] s1]; simpl in *; [discriminate|].
    injection He as ->. repeat split; assumption.
  - repeat split; discriminate.
Qed.

Lemma expand_tolerances_no_best (st : state) k c :
  In (k, c) (dic_resistors st ++ dic_capacitors st ++ dic_inductors st) ->
  Comp.best_value c = None ->
  fst (expand_tolerances st) = Raise TypeError
  /\ log (snd (expand_tolerances st)) = log st
  /\ g_worst_prev_error (snd (expand_tolerances st)) = g_worst_prev_error st.
Proof.
  intros Hin Hc.
  unfold expand_tolerances, bind.
  pose proof (expand_component_tolerance_value_list_outcome (dic_resistors st)) as Or.
  pose proof (expand_component_tolerance_value_list_outcome (dic_capacitors st)) as Oc.
  pose proof (expand_component_tolerance_value_list_outcome (dic_inductors st)) as Ol.
  pose proof (fun H => expand_component_tolerance_value_list_no_best
                         (dic_resistors st) k c H Hc) as Nr.
  pose proof (fun H => expand_component_tolerance_value_list_no_best
                         (dic_capacitors st) k c H Hc) as Nc.
  pose proof (fun H => expand_component_tolerance_value_list_no_best
                         (dic_inductors st) k c H Hc) as Nl.
  destruct (expand_component_tolerance_value_list (dic_resistors st)) as [[[]|e] dr];
    simpl in *.
  2:{ destruct Or as [Or|Or]; [discriminate | now rewrite Or]. }
  destruct (expand_component_tolerance_value_list (dic_capacitors st)) as [[[]|e] dc];
    simpl in *.
  2:{ destruct Oc as [Oc|Oc]; [discriminate | now rewrite Oc]. }
  destruct (expand_component_tolerance_value_list (dic_inductors st)) as [[[]|e] dl];
    simpl in *.
  2:{ destruct Ol as [Ol|Ol]; [discriminate | now rewrite Ol]. }
  apply in_app_or in Hin as [Hin|Hin]; [now specialize (Nr Hin)|].
  apply in_app_or in Hin as [Hin|Hin]; [now specialize (Nc Hin) | now specialize (Nl Hin)].
Qed.

(** C9, as the claim states it, fails: the tolerance expansion of a
    component whose best value is [None] does not end in an error that the
    program reports; what it raises is the interpreter's [TypeError], on
    multiplying [None] by the tolerance. *)
Lemma tolerance_failure_is_not_reported :
  ~ exists e,
      expand_each_component_tolerance None (Some 1.0%float) = Raise e
      /\ raised_by_program e = true.
Proof.
  intros (e & He & Hp). vm_compute in He. injection He as <-. discriminate Hp.
Qed.

(** C9, amended.  The tolerance expansion needs a best value: on [None] it
    fails with the [TypeError] the interpreter raises on the product of
    [None] and the tolerance; and the worst pass run on dictionaries in
    which some component has no best value, as they are before the best
    pass has found one, raises this [TypeError] before any combination is
    evaluated, the worst error staying as it was. *)
Theorem tolerance_expansion_without_best_fails :
  forall (st : state) (k : string) (c : Comp.t),
    In (k, c) (dic_resistors st ++ dic_capacitors st ++ dic_inductors st) ->
    Comp.best_value c = None ->
    (forall tolerance_percent,
        expand_each_component_tolerance None tolerance_percent = Raise TypeError)
    /\ raised_by_program TypeError = false
    /\ fst (worst_tolerance_component_analysis st) = Raise TypeError
    /\ log (snd (worst_tolerance_component_analysis st)) = log st
    /\ g_worst_prev_error (snd (worst_tolerance_component_analysis st))
       = g_worst_prev_error st.
Proof.
  intros st k c Hin Hc.
  destruct (expand_tolerances_no_best st k c Hin Hc) as (Ho & Hl & Hw).
  split; [intros t; apply expand_each_component_tolerance_None|].
  split; [reflexivity|].
  unfold worst_tolerance_component_analysis, bind.
  destruct (expand_tolerances st) as [[[]|e] s1]; simpl in *; [discriminate|].
  injection Ho as ->. repeat split; assumption.
Qed.

(** ** Runs on concrete configurations *)

(** C1, as the claim states it, fails on the bench under the high supply:
    the pass returns, the enumeration has its twelve combinations, and the
    final [best_error] is still the 1e10 the module started with, which is
    the error of no combination: every one of them has an error strictly
    above it. *)
Lemma best_error_is_no_minimum_under_high_supply :
  full_search_of_R_C_L_component_values pow_of_product 0 1 high_supply_expanded
  = (Return tt, high_supply_searched)
  /\ fst (combined_lists Comp.C_EXPANDED_VALUES high_supply_expanded) = bench_ids
  /\ iterables (snd (combined_lists Comp.C_EXPANDED_VALUES high_supply_expanded))
     = Return bench_pools
  /\ List.length (itertools_product bench_pools) = 12
  /\ g_best_prev_error high_supply_searched = 10000000000%float
  /\ (forall c, In c (itertools_product bench_pools) ->
                exists e, best_error_of pow_of_product bench_ids c high_supply_expanded
                          = Return e
                          /\ (g_best_prev_error high_supply_searched <? e)%float = true)
  /\ ~ exists c, In c (itertools_product bench_pools)
                 /\ best_error_of pow_of_product bench_ids c high_supply_expanded
                    = Return (g_best_prev_error high_supply_searched).
Proof.
  assert (Hall : forall c, In c (itertools_product bench_pools) ->
                   exists e, best_error_of pow_of_product bench_ids c high_supply_expanded
                             = Return e
                             /\ (g_best_prev_error high_supply_searched <? e)%float = true).
  { assert (Hb : forallb
                   (fun c => match best_error_of pow_of_product bench_ids c
                                     high_supply_expanded with
                             | Return e => (g_best_prev_error high_supply_searched <? e)%float
                             | Raise _ => false
                             end)
                   (itertools_product bench_pools) = true) by (vm_compute; reflexivity).
    intros c Hc. rewrite forallb_forall in Hb. specialize (Hb c Hc).
    destruct (best_error_of pow_of_product bench_ids c high_supply_expanded) as [e|x];
      [|discriminate].
    exists e. split; [reflexivity | exact Hb]. }
  split; [vm_compute; reflexivity|].
  split; [vm_compute; reflexivity|].
  split; [vm_compute; reflexivity|].
  split; [vm_compute; reflexivity|].
  split; [vm_compute; reflexivity|].
  split; [exact Hall|].
  intros (c & Hc & He).
  destruct (Hall c Hc) as (e & He' & Hlt).
  pose proof (Return_inj _ _ (eq_trans (eq_sym He') He)) as E.
  rewrite E, ltb_irrefl in Hlt. discriminate Hlt.
Qed.

(** C3, as the claim states it, fails on the same bench: [best_error]
    starts at 1e10, which is no infinity, and the first enumerated
    combination, whose error is above 1e10, is not taken as the best so
    far. *)
Lemma first_combination_is_not_taken_under_high_supply :
  g_best_prev_error high_supply_expanded = 10000000000%float
  /\ PrimFloat.is_infinity (g_best_prev_error high_supply_expanded) = false
  /\ hd_error (itertools_product bench_pools) = Some [1000; 100; 10000; 1e-6; 1e-6; 1e-3]%float
  /\ fst (qualifies_best pow_of_product bench_ids
                         [1000; 100; 10000; 1e-6; 1e-6; 1e-3]%float high_supply_expanded)
     = Return false.
Proof.
  split; [vm_compute; reflexivity|].
  split; [vm_compute; reflexivity|].
  split; vm_compute; reflexivity.
Qed.

(** The best pass on the bench: it returns, no combination has an error
    below the final [best_error], the final [best_error] is the error of a
    combination, computed from the thresholds obtained for it, and it is
    below the 1e10 the pass started with. *)
Lemma best_pass_minimum_witness :
  full_search_of_R_C_L_component_values pow_of_product 0 1 bench_expanded
  = (Return tt, bench_searched)
  /\ (forall c, In c (itertools_product bench_pools) ->
                exists e, best_error_of pow_of_product bench_ids c bench_expanded = Return e
                          /\ (e <? g_best_prev_error bench_searched)%float = false)
  /\ (exists c s_c tl th ol oh p_low p_high,
         In c (itertools_product bench_pools)
         /\ best_error_of pow_of_product bench_ids c bench_expanded
            = Return (g_best_prev_error bench_searched)
         /\ map_ids_and_component_combination_vals__set_fields
              bench_ids c Comp.C_CURR_VALUE bench_expanded = (Return tt, s_c)
         /\ fst (circuit_equations s_c) = Return (ol, oh)
         /\ get_dic_target_calc_values "V_low_threshold" TCalcValues.C_TARGET_VALUE
                                       bench_expanded = (Return tl, bench_expanded)
         /\ get_dic_target_calc_values "V_high_threshold" TCalcValues.C_TARGET_VALUE
                                       bench_expanded = (Return th, bench_expanded)
         /\ pow_of_product (tl - ol)%float 2%float = Return p_low
         /\ pow_of_product (th - oh)%float 2%float = Return p_high
         /\ g_best_prev_error bench_searched = PrimFloat.sqrt (p_low + p_high))
  /\ (g_best_prev_error bench_searched <? g_best_prev_error bench_expanded)%float = true
  /\ g_best_prev_error bench_expanded = 10000000000%float.
Proof.
  assert (H : full_search_of_R_C_L_component_values pow_of_product 0 1 bench_expanded
              = (Return tt, bench_searched)) by (vm_compute; reflexivity).
  assert (Hids : fst (combined_lists Comp.C_EXPANDED_VALUES bench_expanded) = bench_ids)
    by (vm_compute; reflexivity).
  assert (Hpools : iterables (snd (combined_lists Comp.C_EXPANDED_VALUES bench_expanded))
                   = Return bench_pools) by (vm_compute; reflexivity).
  assert (Hne : (g_best_prev_error bench_searched <? 1)%float
                <> (g_best_prev_error bench_expanded <? 1)%float)
    by (vm_compute; discriminate).
  destruct (best_pass_minimum pow_of_product 0 1 bench_expanded bench_searched H)
    as (pools & Hp & Hall & Hatt & _ & _ & _ & Hmono & _ & _ & Hform).
  pose proof (Return_inj _ _ (eq_trans (eq_sym Hp) Hpools)) as E. subst pools.
  rewrite Hids in Hall, Hatt, Hform.
  split; [exact H|]. split; [exact Hall|].
  split; [|split; [|vm_compute; reflexivity]].
  - destruct Hatt as [Hsame|(c & Hc & He)]; [now rewrite Hsame in Hne|].
    destruct (Hform c _ Hc He)
      as (s_c & tl & th & ol & oh & p_low & p_high & Hm & Hce & Htl & Hth & Pl & Ph & _ & Hs).
    exists c, s_c, tl, th, ol, oh, p_low, p_high.
    split; [exact Hc|]. split; [exact He|]. split; [exact Hm|]. split; [exact Hce|].
    split; [exact Htl|]. split; [exact Hth|]. split; [exact Pl|]. split; [exact Ph | exact Hs].
  - destruct Hmono as [Hsame|Hlt]; [now rewrite Hsame in Hne | exact Hlt].
Defined.


(** The first combination of the bench, whose error is 0.131...: it is
    below 1e10. *)
Lemma first_combination_qualifies_witness :
  g_best_prev_error bench_expanded = initial_best_prev_error
  /\ best_error_of pow_of_product bench_ids
                   [1000; 100; 10000; 1e-6; 1e-6; 1e-3]%float bench_expanded
     = Return 0.13134524942882589%float
  /\ exists st',
      qualifies_best pow_of_product bench_ids
                     [1000; 100; 10000; 1e-6; 1e-6; 1e-3]%float bench_expanded
      = (Return (0.13134524942882589 <? 10000000000)%float, st').
Proof.
  assert (H0 : g_best_prev_error bench_expanded = initial_best_prev_error)
    by (vm_compute; reflexivity).
  assert (He : best_error_of pow_of_product bench_ids
                             [1000; 100; 10000; 1e-6; 1e-6; 1e-3]%float bench_expanded
               = Return 0.13134524942882589%float) by (vm_compute; reflexivity).
  destruct (first_combination_qualifies pow_of_product bench_expanded bench_ids
              [1000; 100; 10000; 1e-6; 1e-6; 1e-3]%float 0.13134524942882589%float H0 He)
    as (_ & _ & st' & Hq & _).
  split; [exact H0|]. split; [exact He|]. exists st'. exact Hq.
Defined.



(** The configuration with a resistor without a source: [main] raises
    [TypeError] and logs nothing. *)
Lemma expansion_without_source_fails_witness :
  In (component "R4" None None None 1.0 "No source of values.")
     (dic_resistors without_source ++ dic_capacitors without_source
        ++ dic_inductors without_source)
  /\ no_source (snd (component "R4" None None None 1.0 "No source of values."))
  /\ fst (main pow_of_product 0 1 without_source) = Raise TypeError
  /\ log (snd (main pow_of_product 0 1 without_source)) = log without_source.
Proof.
  assert (Hin : In (component "R4" None None None 1.0 "No source of values.")
                   (dic_resistors without_source ++ dic_capacitors without_source
                      ++ dic_inductors without_source)).
  { apply in_or_app. left. simpl. right. right. right. left. reflexivity. }
  assert (Hc : no_source (snd (component "R4" None None None 1.0 "No source of values.")))
    by (repeat split).
  assert (Hp : fst (print_specification without_source) = Return tt)
    by (vm_compute; reflexivity).
  assert (Ht : fst (consistency_testing_of_fixed_parameters without_source) = Return true)
    by (vm_compute; reflexivity).
  destruct (expansion_without_source_fails pow_of_product 0 1 without_source _ _ Hin Hc)
    as (_ & _ & _ & Hl & _ & Hm).
  split; [exact Hin|]. split; [exact Hc|]. split; [exact (Hm Hp Ht) | exact Hl].
Defined.

(** The configuration that comes with the program, just loaded: no best
    value is known, and the worst pass raises [TypeError]. *)
Lemma tolerance_expansion_without_best_fails_witness :
  In (component "R1" None None (Some [100; 1000; 10000; 100000]%float) 1.0
                "Upper resistor of voltage divider.")
     (dic_resistors (configured []) ++ dic_capacitors (configured [])
        ++ dic_inductors (configured []))
  /\ Comp.best_value
       (snd (component "R1" None None (Some [100; 1000; 10000; 100000]%float) 1.0
                       "Upper resistor of voltage divider.")) = None
  /\ fst (worst_tolerance_component_analysis (configured [])) = Raise TypeError
  /\ log (snd (worst_tolerance_component_analysis (configured []))) = log (configured []).
Proof.
  assert (Hin : In (component "R1" None None (Some [100; 1000; 10000; 100000]%float) 1.0
                              "Upper resistor of voltage divider.")
                   (dic_resistors (configured []) ++ dic_capacitors (configured [])
                      ++ dic_inductors (configured []))).
  { apply in_or_app. left. left. reflexivity. }
  destruct (tolerance_expansion_without_best_fails (configured []) _ _ Hin eq_refl)
    as (_ & _ & Ho & Hl & _).
  split; [exact Hin|]. split; [reflexivity|]. split; [exact Ho | exact Hl].
Defined.

(** * Further properties *)

(** ** Reading back what was written *)

Lemma value_key_eq_dec (a b : Comp.value_key) : {a = b} + {a <> b}.
Proof. decide equality. Qed.

Lemma target_key_eq_dec (a b : TCalcValues.key) : {a = b} + {a <> b}.
Proof. decide equality. Qed.

Lemma get_set_value (f g : Comp.value_key) (v : float) (c : Comp.t) :
  Comp.get_value f (Comp.set_value g v c)
  = if value_key_eq_dec f g then Some v else Comp.get_value f c.
Proof. destruct f, g; simpl; destruct (value_key_eq_dec _ _); congruence. Qed.

Lemma get_set_target (f g : TCalcValues.key) (v : float) (c : TCalcValues.t) :
  TCalcValues.get f (TCalcValues.set g v c)
  = if target_key_eq_dec f g then Some v else TCalcValues.get f c.
Proof. destruct f, g; simpl; destruct (target_key_eq_dec _ _); congruence. Qed.

Lemma value_at_alter (f field : Comp.value_key) (val : float) (k k' : string)
    (d : dict Comp.t) :
  value_at f k (dict_alter (Comp.set_value field val) k' d)
  = if String.eqb k k'
    then match dict_get k d with
         | Some c => Some (if value_key_eq_dec f field then Some val else Comp.get_value f c)
         | None => None
         end
    else value_at f k d.
Proof.
  unfold value_at. rewrite dict_get_alter.
  destruct (String.eqb k k'); [|reflexivity].
  destruct (dict_get k d) as [c|]; [|reflexivity].
  simpl. now rewrite get_set_value.
Qed.

Lemma get_dic_value_at (kd : kind) (id : string) (field : Comp.value_key) (st : state) :
  get_dic kd id field st
  = (match value_at field id (dic_of kd st) with
     | Some (Some v) => Return v
     | _ => Raise ValueError
     end, st).
Proof.
  destruct kd; unfold get_dic, get_dic_resistors, get_dic_capacitors, get_dic_inductors,
    process_inner_dic, value_at; simpl;
    destruct (dict_get id _) as [c|]; simpl; try reflexivity;
    destruct (Comp.get_value field c); reflexivity.
Qed.

(** What one assignment [dic[id][field] = val] changes. *)
Lemma set_component_field_Return id field val (st st' : state) :
  set_component_field id field val st = (Return tt, st') ->
  exists kd,
    route id = Some kd
    /\ dict_get id (dic_of kd st) <> None
    /\ st' = with_dic kd (dict_alter (Comp.set_value field val) id (dic_of kd st)) st.
Proof.
  rewrite set_component_field_route.
  destruct (route id) as [kd|]; cbv beta iota; [|intros H; discriminate H].
  destruct (dict_get id (dic_of kd st)) eqn:E; [|intros H; discriminate H].
  intros H. injection H as <-. exists kd. split; [reflexivity|]. split; [congruence | reflexivity].
Qed.

Lemma same_but_components_refl (st : state) : same_but_components st st.
Proof. repeat split. Qed.

Lemma same_but_components_trans (a b c : state) :
  same_but_components a b -> same_but_components b c -> same_but_components a c.
Proof.
  intros (A1 & A2 & A3 & A4 & A5 & A6) (B1 & B2 & B3 & B4 & B5 & B6).
  repeat split; congruence.
Qed.

Lemma with_dic_same_but_components kd d st : same_but_components st (with_dic kd d st).
Proof. destruct kd; repeat split. Qed.

Lemma value_at_with_dic f k kd kd' d (st : state) :
  value_at f k (dic_of kd' (with_dic kd d st))
  = if kind_eq_dec kd' kd then value_at f k d else value_at f k (dic_of kd' st).
Proof. rewrite dic_of_with_dic. now destruct (kind_eq_dec kd' kd). Qed.

Lemma In_firstn_In {A} (n : nat) (l : list A) (x : A) : In x (firstn n l) -> In x l.
Proof.
  revert l. induction n as [|n IH]; intros [|y l]; simpl; try tauto.
  intros [->|H]; auto.
Qed.

(** The loop over [zip(ids, combination)], unfolded at its first pair. *)
Lemma map_ids_read_back_aux (field : Comp.value_key) (ids : list string) :
  forall (c : list float) (st st' : state),
    map_ids_and_component_combination_vals__set_fields ids c field st = (Return tt, st') ->
    NoDup ids ->
    (forall i id v,
        nth_error ids i = Some id -> nth_error c i = Some v ->
        exists kd, route id = Some kd /\ value_at field id (dic_of kd st') = Some (Some v))
    /\ (forall kd k f,
           f <> field \/ ~ In k (firstn (List.length c) ids) ->
           value_at f k (dic_of kd st') = value_at f k (dic_of kd st))
    /\ same_but_components st st'.
Proof.
  induction ids as [|id ids IH]; intros c st st' H Hnd.
  - simpl in H. injection H as <-.
    split; [intros [|i] ? ? Hi; discriminate Hi|].
    split; [reflexivity | apply same_but_components_refl].
  - destruct c as [|val vals].
    + simpl in H. injection H as <-.
      split; [intros [|i] ? ? _ Hc; discriminate Hc|].
      split; [reflexivity | apply same_but_components_refl].
    + simpl in H. apply bind_Return in H as ([] & s1 & Hset & H).
      apply set_component_field_Return in Hset as (kd & Hr & Hk & ->).
      inversion Hnd as [|? ? Hnotin Hnd']; subst.
      destruct (IH vals _ st' H Hnd') as (Hread & Hframe & Hsame).
      split; [|split].
      * intros [|i] id' v Hi Hc; simpl in Hi, Hc.
        -- injection Hi as <-. injection Hc as <-.
           exists kd. split; [assumption|].
           rewrite Hframe.
           2:{ right. intros Hin. apply Hnotin. eapply In_firstn_In; eassumption. }
           rewrite value_at_with_dic.
           destruct (kind_eq_dec kd kd) as [_|N]; [|congruence].
           rewrite value_at_alter, String.eqb_refl.
           destruct (dict_get id (dic_of kd st)); [|congruence].
           now destruct (value_key_eq_dec field field).
        -- now apply (Hread i).
      * intros kd' k f Hk'.
        rewrite Hframe.
        2:{ destruct Hk' as [Hf|Hn]; [now left | right]. simpl in Hn. tauto. }
        rewrite value_at_with_dic.
        destruct (kind_eq_dec kd' kd) as [->|_]; [|reflexivity].
        rewrite value_at_alter.
        destruct (String.eqb_spec k id) as [->|Hne]; [|reflexivity].
        destruct Hk' as [Hf|Hn]; [|simpl in Hn; tauto].
        unfold value_at.
        destruct (dict_get id (dic_of kd st)); [|reflexivity].
        simpl. now destruct (value_key_eq_dec f field).
      * eapply same_but_components_trans; [|exact Hsame].
        apply with_dic_same_but_components.
Qed.

Lemma map_ids_app_cons (field : Comp.value_key) (bad : string) (ids2 : list string)
    (ids1 : list string) :
  forall (c : list float) (st st1 : state) (v : float),
    nth_error c (List.length ids1) = Some v ->
    map_ids_and_component_combination_vals__set_fields ids1 c field st = (Return tt, st1) ->
    map_ids_and_component_combination_vals__set_fields (ids1 ++ bad :: ids2) c field st
    = (set_component_field bad field v ;;;
       map_ids_and_component_combination_vals__set_fields
         ids2 (skipn (S (List.length ids1)) c) field) st1.
Proof.
  induction ids1 as [|id ids1 IH]; intros c st st1 v Hv H.
  - simpl in H. injection H as <-.
    destruct c as [|x c]; [discriminate Hv|]. simpl in Hv. injection Hv as ->. reflexivity.
  - destruct c as [|x c]; [discriminate Hv|].
    simpl in Hv, H |- *.
    apply bind_Return in H as ([] & s1 & Hs & H).
    rewrite (bind_run_Return _ _ st tt s1 Hs).
    now apply IH.
Qed.

Lemma map_ids_short (field : Comp.value_key) (ids2 : list string) (ids1 : list string) :
  forall (c : list float) (st : state),
    List.length c <= List.length ids1 ->
    map_ids_and_component_combination_vals__set_fields (ids1 ++ ids2) c field st
    = map_ids_and_component_combination_vals__set_fields ids1 c field st.
Proof.
  induction ids1 as [|id ids1 IH]; intros [|x c] st Hlen; simpl in *; try lia.
  - now destruct ids2.
  - reflexivity.
  - unfold bind. destruct (set_component_field id field x st) as [[[]|e] s1]; [|reflexivity].
    apply IH. lia.
Qed.

(** X1.  Writing a value in the dictionary of the targets and reading it
    back: on an identifier that the dictionary holds, the write returns,
    the same field of the same identifier then reads as the value written,
    every other field and identifier reads as before, and nothing else in
    the globals changes; on an identifier that is absent the write raises
    [ValueError] and changes nothing, as does every read. *)
Theorem set_then_get_dic_target_calc_values :
  forall (id : string) (field : TCalcValues.key) (value : float) (st : state),
    (dict_get id (dic_target_calc_values st) = None ->
     set_dic_target_calc_values id field value st = (Raise ValueError, st)
     /\ forall f, get_dic_target_calc_values id f st = (Raise ValueError, st))
    /\ (dict_get id (dic_target_calc_values st) <> None ->
        exists st',
          set_dic_target_calc_values id field value st = (Return tt, st')
          /\ get_dic_target_calc_values id field st' = (Return value, st')
          /\ (forall id' f',
                 id' <> id \/ f' <> field ->
                 fst (get_dic_target_calc_values id' f' st')
                 = fst (get_dic_target_calc_values id' f' st))
          /\ map fst (dic_target_calc_values st') = map fst (dic_target_calc_values st)
          /\ same_but_targets st st').
Proof.
  intros id field value st. split.
  - intros Hn. unfold set_dic_target_calc_values, get_dic_target_calc_values.
    rewrite Hn. split; reflexivity.
  - intros Hs. unfold set_dic_target_calc_values.
    destruct (dict_get id (dic_target_calc_values st)) as [t|] eqn:E; [|congruence].
    eexists. split; [reflexivity|].
    unfold get_dic_target_calc_values. simpl.
    split; [|split; [|split]].
    + rewrite dict_get_alter, String.eqb_refl, E. simpl.
      rewrite get_set_target. now destruct (target_key_eq_dec field field).
    + intros id' f' Hne. rewrite dict_get_alter.
      destruct (String.eqb_spec id' id) as [->|Hid]; [|reflexivity].
      rewrite E. simpl. rewrite get_set_target.
      destruct (target_key_eq_dec f' field) as [->|Hf]; [|reflexivity].
      destruct Hne; congruence.
    + clear. induction (dic_target_calc_values st) as [|[k v] d IH]; simpl; [reflexivity|].
      destruct (String.eqb id k); simpl; [reflexivity | now rewrite IH].
    + repeat split.
Qed.

(** X2.  When the loop over the identifiers and the values of a
    combination returns, the identifiers being distinct: every identifier
    that was paired with a value is routed to a dictionary by its first
    letter, and the getter of that dictionary reads the value back under
    the field written; every other field, and every identifier that the
    pairing did not reach (the shorter of the two lists ends the loop), read
    as before; nothing else in the globals changes. *)
Theorem map_ids_then_get :
  forall (ids : list string) (c : list float) (field : Comp.value_key) (st st' : state),
    map_ids_and_component_combination_vals__set_fields ids c field st = (Return tt, st') ->
    NoDup ids ->
    (forall i id v,
        nth_error ids i = Some id -> nth_error c i = Some v ->
        exists kd, route id = Some kd /\ get_dic kd id field st' = (Return v, st'))
    /\ (forall kd k f,
           f <> field \/ ~ In k (firstn (List.length c) ids) ->
           fst (get_dic kd k f st') = fst (get_dic kd k f st))
    /\ same_but_components st st'.
Proof.
  intros ids c field st st' H Hnd.
  destruct (map_ids_read_back_aux field ids c st st' H Hnd) as (Hread & Hframe & Hsame).
  split; [|split; [|exact Hsame]].
  - intros i id v Hi Hc. destruct (Hread i id v Hi Hc) as (kd & Hr & Hv).
    exists kd. split; [exact Hr|]. now rewrite get_dic_value_at, Hv.
  - intros kd k f Hk. rewrite !get_dic_value_at. simpl. now rewrite (Hframe kd k f Hk).
Qed.

(** X3.  An identifier the loop cannot place.  If the combination is too
    short to reach it, it is never looked at and the loop behaves as on the
    identifiers before it.  If it is reached, the identifiers before it
    having been written: an identifier that starts with none of R, C, L
    raises [ValueError], one that starts with such a letter but is no key of
    that dictionary raises [KeyError]; in both cases the values written
    before stay written and the identifiers after it are not. *)
Theorem map_ids_bad_identifier :
  forall (ids1 : list string) (bad : string) (ids2 : list string) (c : list float)
         (field : Comp.value_key) (st : state),
    let run := map_ids_and_component_combination_vals__set_fields in
    (List.length c <= List.length ids1 ->
     run (ids1 ++ bad :: ids2) c field st = run ids1 c field st)
    /\ (forall st1,
           List.length ids1 < List.length c ->
           run ids1 c field st = (Return tt, st1) ->
           (route bad = None ->
            run (ids1 ++ bad :: ids2) c field st = (Raise ValueError, st1))
           /\ (forall kd,
                  route bad = Some kd -> dict_get bad (dic_of kd st1) = None ->
                  run (ids1 ++ bad :: ids2) c field st = (Raise KeyError, st1))).
Proof.
  intros ids1 bad ids2 c field st run. split.
  - intros Hlen. now apply map_ids_short.
  - intros st1 Hlen H.
    destruct (nth_error c (List.length ids1)) as [v|] eqn:Hv.
    2:{ apply nth_error_None in Hv. lia. }
    unfold run. rewrite (map_ids_app_cons field bad ids2 ids1 c st st1 v Hv H).
    unfold bind. rewrite set_component_field_route.
    split.
    + intros Hr. now rewrite Hr.
    + intros kd Hr Hk. now rewrite Hr, Hk.
Qed.

(** ** The consistency test *)

(** Two floats that compare equal compare alike with any third. *)
Lemma SFcompare_Eq_l (a b c : spec_float) :
  SFcompare a b = Some Eq -> SFcompare a c = SFcompare b c.
Proof.
  destruct a as [sa|sa| |sa ma ea], b as [sb|sb| |sb mb eb]; simpl; try discriminate;
    try (destruct sa; discriminate); try (destruct sb; discriminate).
  - intros _. now destruct c.
  - destruct sa, sb; try discriminate; reflexivity.
  - destruct sa, sb; try discriminate.
    + destruct (Z.compare_spec ea eb) as [->|?|?]; try discriminate.
      destruct (Pos.compare_cont Eq ma mb) eqn:E; try discriminate.
      apply Pos.compare_eq in E. now subst.
    + destruct (Z.compare_spec ea eb) as [->|?|?]; try discriminate.
      intros [= E]. apply Pos.compare_eq in E. now subst.
Qed.

Lemma SFcompare_Eq_r (a b c : spec_float) :
  SFcompare b c = Some Eq -> SFcompare a b = SFcompare a c.
Proof.
  destruct b as [sb|sb| |sb mb eb], c as [sc|sc| |sc mc ec]; simpl; try discriminate;
    try (destruct sb; discriminate); try (destruct sc; discriminate).
  - intros _. now destruct a.
  - destruct sb, sc; try discriminate; reflexivity.
  - destruct sb, sc; try discriminate.
    + destruct (Z.compare_spec eb ec) as [->|?|?]; try discriminate.
      destruct (Pos.compare_cont Eq mb mc) eqn:E; try discriminate.
      apply Pos.compare_eq in E. now subst.
    + destruct (Z.compare_spec eb ec) as [->|?|?]; try discriminate.
      intros [= E]. apply Pos.compare_eq in E. now subst.
Qed.

Lemma ltb_leb (x y : float) : (x <? y)%float = true -> (x <=? y)%float = true.
Proof.
  rewrite ltb_spec, leb_spec. unfold SFltb, SFleb.
  now destruct (SFcompare (Prim2SF x) (Prim2SF y)) as [[]|].
Qed.

Lemma leb_ltb_trans (x y z : float) :
  (x <=? y)%float = true -> (y <? z)%float = true -> (x <? z)%float = true.
Proof.
  rewrite leb_spec, !ltb_spec. unfold SFltb, SFleb.
  destruct (SFcompare (Prim2SF x) (Prim2SF y)) as [[]|] eqn:E1; try discriminate; intros _.
  - now rewrite (SFcompare_Eq_l _ _ (Prim2SF z) E1).
  - destruct (SFcompare (Prim2SF y) (Prim2SF z)) as [[]|] eqn:E2; try discriminate.
    now rewrite (SFcompare_Lt_trans _ _ _ E1 E2).
Qed.

Lemma ltb_leb_trans (x y z : float) :
  (x <? y)%float = true -> (y <=? z)%float = true -> (x <? z)%float = true.
Proof.
  rewrite leb_spec, !ltb_spec. unfold SFltb, SFleb.
  destruct (SFcompare (Prim2SF x) (Prim2SF y)) as [[]|] eqn:E1; try discriminate; intros _.
  destruct (SFcompare (Prim2SF y) (Prim2SF z)) as [[]|] eqn:E2; try discriminate; intros _.
  - now rewrite <- (SFcompare_Eq_r (Prim2SF x) _ _ E2), E1.
  - now rewrite (SFcompare_Lt_trans _ _ _ E1 E2).
Qed.

(** The values the consistency test reads. *)
Lemma consistency_testing_run (st : state) (VCC lo hi : float) :
  get_dic_in_fix_param "VCC" InFixP.value st = (Return VCC, st) ->
  get_dic_target_calc_values "V_low_threshold" TCalcValues.C_TARGET_VALUE st
  = (Return lo, st) ->
  get_dic_target_calc_values "V_high_threshold" TCalcValues.C_TARGET_VALUE st
  = (Return hi, st) ->
  consistency_testing_of_fixed_parameters st
  = (Return ((0 <? VCC)%float && (lo <? hi)%float
             && ((0 <=? lo)%float && (lo <=? VCC)%float)
             && ((0 <=? hi)%float && (hi <=? VCC)%float)), st).
Proof.
  intros HV Hl Hh. unfold consistency_testing_of_fixed_parameters.
  rewrite (bind_run_Return _ _ _ _ _ HV), (bind_run_Return _ _ _ _ _ Hl),
    (bind_run_Return _ _ _ _ _ Hh).
  unfold ret.
  destruct (0 <? VCC)%float, (lo <? hi)%float, (0 <=? lo)%float, (lo <=? VCC)%float,
    (0 <=? hi)%float, (hi <=? VCC)%float; reflexivity.
Qed.

(** X4.  The consistency test of the fixed parameters, on a specification
    that gives the supply and the two targets: it passes exactly when
    [0 <= V_low_threshold_target < V_high_threshold_target <= VCC], its
    other comparisons following from these three (none holds when one of
    the three numbers is a NaN), and it changes nothing.  When the supply or
    a target is missing, or has no value, the test raises [ValueError]. *)
Theorem consistency_testing_passes_iff :
  forall (st : state),
    (forall VCC lo hi,
        get_dic_in_fix_param "VCC" InFixP.value st = (Return VCC, st) ->
        get_dic_target_calc_values "V_low_threshold" TCalcValues.C_TARGET_VALUE st
        = (Return lo, st) ->
        get_dic_target_calc_values "V_high_threshold" TCalcValues.C_TARGET_VALUE st
        = (Return hi, st) ->
        consistency_testing_of_fixed_parameters st
        = (Return ((0 <=? lo)%float && (lo <? hi)%float && (hi <=? VCC)%float), st))
    /\ (forall e,
           fst (get_dic_in_fix_param "VCC" InFixP.value st) = Raise e
           \/ fst (get_dic_target_calc_values "V_low_threshold"
                     TCalcValues.C_TARGET_VALUE st) = Raise e
           \/ fst (get_dic_target_calc_values "V_high_threshold"
                     TCalcValues.C_TARGET_VALUE st) = Raise e ->
           consistency_testing_of_fixed_parameters st = (Raise ValueError, st)).
Proof.
  intros st. split.
  - intros VCC lo hi HV Hl Hh.
    rewrite (consistency_testing_run st VCC lo hi HV Hl Hh). f_equal. f_equal.
    destruct (0 <=? lo)%float eqn:A; [|now rewrite !andb_false_r].
    destruct (lo <? hi)%float eqn:B; [|now rewrite !andb_false_r].
    destruct (hi <=? VCC)%float eqn:C; [|now rewrite !andb_false_r].
    pose proof (leb_ltb_trans _ _ _ A B) as P1.
    pose proof (ltb_leb_trans _ _ _ P1 C) as P2.
    pose proof (ltb_leb _ _ (ltb_leb_trans _ _ _ B C)) as P3.
    pose proof (ltb_leb _ _ P1) as P4.
    now rewrite P2, P3, P4.
  - intros e H.
    unfold consistency_testing_of_fixed_parameters, bind,
      get_dic_in_fix_param, get_dic_target_calc_values in *.
    simpl in H.
    assert (V : forall D (o : option D) f e', process_inner_dic o f = Raise e' ->
                                              process_inner_dic o f = Raise ValueError).
    { intros D o f e'. unfold process_inner_dic.
      destruct o as [d|]; [|reflexivity]. destruct (f d); [discriminate | reflexivity]. }
    destruct (process_inner_dic (dict_get "VCC" (dic_in_fix_param st)) InFixP.value)
      as [VCC|e1] eqn:E1.
    2:{ pose proof (V _ _ _ _ E1). congruence. }
    destruct (process_inner_dic (dict_get "V_low_threshold" (dic_target_calc_values st))
                (TCalcValues.get TCalcValues.C_TARGET_VALUE)) as [lo|e2] eqn:E2.
    2:{ pose proof (V _ _ _ _ E2). congruence. }
    destruct (process_inner_dic (dict_get "V_high_threshold" (dic_target_calc_values st))
                (TCalcValues.get TCalcValues.C_TARGET_VALUE)) as [hi|e3] eqn:E3.
    2:{ pose proof (V _ _ _ _ E3). congruence. }
    destruct H as [H|[H|H]]; discriminate H.
Qed.

(** ** The circuit equations *)

Lemma process_fix (k : string) (d : dict InFixP.t) :
  process_inner_dic (dict_get k d) InFixP.value
  = match option_map InFixP.value (dict_get k d) with
    | Some (Some v) => Return v
    | _ => Raise ValueError
    end.
Proof. now destruct (dict_get k d) as [c|]. Qed.

(** The circuit equations in one expression: the seven reads in their
    order, the first that fails being a [ValueError], then the arithmetic. *)
Lemma circuit_equations_view (st : state) :
  fst (circuit_equations st)
  = match option_map InFixP.value (dict_get "VCC" (dic_in_fix_param st)),
          curr_at "R1" (dic_resistors st), curr_at "R2" (dic_resistors st),
          curr_at "R3" (dic_resistors st), curr_at "C1" (dic_capacitors st),
          curr_at "C2" (dic_capacitors st), curr_at "L1" (dic_inductors st) with
    | Some (Some VCC), Some (Some R1), Some (Some R2), Some (Some R3),
      Some (Some _), Some (Some _), Some (Some _) => thresholds VCC R1 R2 R3
    | _, _, _, _, _, _, _ => Raise ValueError
    end.
Proof.
  unfold circuit_equations, bind, get_dic_in_fix_param, get_dic_resistors,
    get_dic_capacitors, get_dic_inductors, lift, ret, thresholds, obind.
  rewrite process_fix, !process_curr.
  destruct (option_map InFixP.value (dict_get "VCC" (dic_in_fix_param st))) as [[VCC|]|];
    try reflexivity.
  destruct (curr_at "R1" (dic_resistors st)) as [[R1|]|]; try reflexivity.
  destruct (curr_at "R2" (dic_resistors st)) as [[R2|]|]; try reflexivity.
  destruct (curr_at "R3" (dic_resistors st)) as [[R3|]|]; try reflexivity.
  destruct (curr_at "C1" (dic_capacitors st)) as [[C1|]|]; try reflexivity.
  destruct (curr_at "C2" (dic_capacitors st)) as [[C2|]|]; try reflexivity.
  destruct (curr_at "L1" (dic_inductors st)) as [[L1|]|]; try reflexivity.
  simpl.
  destruct (py_div (R2 * R3) (R2 + R3)) as [a|]; [|reflexivity]. simpl.
  destruct (py_div (VCC * a) (R1 + a)) as [b|]; [|reflexivity]. simpl.
  destruct (py_div (R1 * R3) (R1 + R3)) as [c|]; [|reflexivity]. simpl.
  destruct (py_div (VCC * R2) (R2 + c)) as [d|]; reflexivity.
Qed.

Lemma thresholds_raises (VCC R1 R2 R3 : float) (e : exn) :
  thresholds VCC R1 R2 R3 = Raise e -> e = ZeroDivisionError.
Proof.
  unfold thresholds, obind, py_div.
  repeat match goal with
         | |- context [if ?b then _ else _] => destruct b
         end; congruence.
Qed.

Lemma circuit_equations_raises (st : state) (e : exn) :
  fst (circuit_equations st) = Raise e -> e = ValueError \/ e = ZeroDivisionError.
Proof.
  rewrite circuit_equations_view.
  repeat match goal with
         | |- context [match ?x with _ => _ end] =>
             match x with
             | thresholds _ _ _ _ => fail 1
             | _ => destruct x
             end
         end;
    try (intros [= <-]; now left).
  intros H. right. eapply thresholds_raises; eassumption.
Qed.

(** X5.  The circuit equations read the current value of all six
    components before they compute: when one of R1, R2, R3, C1, C2, L1 has
    none (no combination has been set, or the component is absent), the
    evaluation raises [ValueError] and writes no calculated value.  Yet the
    values of C1, C2 and L1 play no part: two states with the same fixed
    parameters and the same resistors, in which these three hold some
    current value, obtain the same thresholds or raise the same exception. *)
Theorem circuit_equations_read_every_component :
  forall (st : state),
    (forall kk,
        In kk components_read -> ~ has_current_value st kk ->
        calc_evaluation_of_circuit_equations st = (Raise ValueError, with_event Evaluate st))
    /\ (forall st',
           dic_in_fix_param st' = dic_in_fix_param st ->
           dic_resistors st' = dic_resistors st ->
           (forall kk, In kk components_read -> has_current_value st kk) ->
           (forall kk, In kk components_read -> has_current_value st' kk) ->
           fst (circuit_equations st') = fst (circuit_equations st)).
Proof.
  intros st. split.
  - intros kk Hin Hno.
    rewrite calc_evaluation_run. cbv zeta.
    assert (E : fst (circuit_equations st) = Raise ValueError).
    { rewrite circuit_equations_view.
      unfold has_current_value in Hno.
      destruct (option_map InFixP.value (dict_get "VCC" (dic_in_fix_param st))) as [[VCC|]|];
        try reflexivity.
      destruct (curr_at "R1" (dic_resistors st)) as [[R1|]|] eqn:E1; try reflexivity.
      destruct (curr_at "R2" (dic_resistors st)) as [[R2|]|] eqn:E2; try reflexivity.
      destruct (curr_at "R3" (dic_resistors st)) as [[R3|]|] eqn:E3; try reflexivity.
      destruct (curr_at "C1" (dic_capacitors st)) as [[C1|]|] eqn:E4; try reflexivity.
      destruct (curr_at "C2" (dic_capacitors st)) as [[C2|]|] eqn:E5; try reflexivity.
      destruct (curr_at "L1" (dic_inductors st)) as [[L1|]|] eqn:E6; try reflexivity.
      exfalso. apply Hno.
      simpl in Hin.
      destruct Hin as [<-|[<-|[<-|[<-|[<-|[<-|[]]]]]]]; simpl; eauto. }
    now rewrite E.
  - intros st' Hf Hr Hall Hall'.
    rewrite !circuit_equations_view, Hf, Hr.
    destruct (Hall (Capacitor, "C1"%string)) as [c1 H1]; [simpl; tauto|].
    destruct (Hall (Capacitor, "C2"%string)) as [c2 H2]; [simpl; tauto|].
    destruct (Hall (Inductor, "L1"%string)) as [l1 H3]; [simpl; tauto|].
    destruct (Hall' (Capacitor, "C1"%string)) as [c1' H1']; [simpl; tauto|].
    destruct (Hall' (Capacitor, "C2"%string)) as [c2' H2']; [simpl; tauto|].
    destruct (Hall' (Inductor, "L1"%string)) as [l1' H3']; [simpl; tauto|].
    simpl in *. now rewrite H1, H2, H3, H1', H2', H3'.
Qed.

(** X6.  What the evaluation of the circuit equations can raise, and what
    it leaves behind.  It raises nothing but [ValueError] (a missing value
    or target) and [ZeroDivisionError]; a zero sum [R2 + R3] of the current
    values is a [ZeroDivisionError], where IEEE arithmetic would give an
    infinity or a NaN.  When it raises, the dictionary of the targets is as
    it was, unless it holds V_low_threshold and not V_high_threshold: then
    the low threshold has been written before the [ValueError]. *)
Theorem calc_evaluation_failure :
  forall (st : state),
    let T := dic_target_calc_values st in
    (forall e s,
        calc_evaluation_of_circuit_equations st = (Raise e, s) ->
        (e = ValueError \/ e = ZeroDivisionError)
        /\ (dict_get "V_low_threshold" T = None \/ dict_get "V_high_threshold" T <> None ->
            s = with_event Evaluate st))
    /\ (forall VCC R2 R3,
           get_dic_in_fix_param "VCC" InFixP.value st = (Return VCC, st) ->
           (forall kk, In kk components_read -> has_current_value st kk) ->
           curr_at "R2" (dic_resistors st) = Some (Some R2) ->
           curr_at "R3" (dic_resistors st) = Some (Some R3) ->
           (R2 + R3 =? 0)%float = true ->
           calc_evaluation_of_circuit_equations st
           = (Raise ZeroDivisionError, with_event Evaluate st))
    /\ (forall vl vh r,
           fst (circuit_equations st) = Return (vl, vh) ->
           dict_get "V_low_threshold" T = Some r ->
           dict_get "V_high_threshold" T = None ->
           exists s,
             calc_evaluation_of_circuit_equations st = (Raise ValueError, s)
             /\ get_dic_target_calc_values "V_low_threshold" TCalcValues.C_CALC_VALUE s
                = (Return vl, s)).
Proof.
  intros st T. split; [|split].
  - intros e s. rewrite calc_evaluation_run. cbv zeta. fold T.
    destruct (fst (circuit_equations st)) as [[vl vh]|e'] eqn:E.
    + destruct (dict_get "V_low_threshold" T) as [rl|] eqn:El.
      * destruct (dict_get "V_high_threshold" T) as [rh|] eqn:Eh; [discriminate|].
        intros [= <- <-]. split; [now left|]. intros [H|H]; congruence.
      * intros [= <- <-]. split; [now left | reflexivity].
    + intros [= <- <-]. split; [|reflexivity].
      now apply (circuit_equations_raises st).
  - intros VCC R2 R3 HV Hall E2 E3 Hz.
    rewrite calc_evaluation_run. cbv zeta.
    assert (E : fst (circuit_equations st) = Raise ZeroDivisionError).
    { rewrite circuit_equations_view.
      unfold get_dic_in_fix_param in HV. injection HV as HV. rewrite process_fix in HV.
      destruct (option_map InFixP.value (dict_get "VCC" (dic_in_fix_param st))) as [[V|]|];
        try discriminate HV.
      destruct (Hall (Resistor, "R1"%string)) as [r1 H1]; [simpl; tauto|].
      destruct (Hall (Capacitor, "C1"%string)) as [c1 H4]; [simpl; tauto|].
      destruct (Hall (Capacitor, "C2"%string)) as [c2 H5]; [simpl; tauto|].
      destruct (Hall (Inductor, "L1"%string)) as [l1 H6]; [simpl; tauto|].
      simpl in H1, H4, H5, H6. rewrite H1, E2, E3, H4, H5, H6.
      unfold thresholds, py_div. now rewrite Hz. }
    now rewrite E.
  - intros vl vh r E El Eh.
    rewrite calc_evaluation_run. cbv zeta. fold T. rewrite E, El, Eh.
    eexists. split; [reflexivity|].
    unfold get_dic_target_calc_values. simpl.
    rewrite dict_get_alter. simpl. fold T. now rewrite El.
Qed.

(** ** What a pass keeps *)

Lemma viewed_alter {V X} (view : V -> X) (f : V -> V) (k : string) (d : dict V) :
  (forall v, view (f v) = view v) -> viewed view (dict_alter f k d) = viewed view d.
Proof.
  intros Hf. induction d as [|[k' v] d IH]; simpl; [reflexivity|].
  destruct (String.eqb k k'); simpl; [now rewrite Hf | now rewrite IH].
Qed.

#[global] Instance Frame_keeps {X Y} (view : Comp.t -> X) (target_view : TCalcValues.t -> Y) :
  Frame (keeps view target_view).
Proof.
  split.
  - intros st. split; reflexivity.
  - intros a b c [H1 T1] [H2 T2]. split; [intros kd; now rewrite H2 | congruence].
Qed.

#[global] Instance Frame_same_specification : Frame same_specification.
Proof.
  split.
  - intros st. split; [reflexivity | apply frame_refl].
  - intros a b c [F1 K1] [F2 K2]. split; [congruence | eapply frame_trans; eassumption].
Qed.

#[global] Instance Frame_same_best_solution : Frame same_best_solution.
Proof.
  split.
  - intros st. split; [reflexivity | apply frame_refl].
  - intros a b c [F1 K1] [F2 K2]. split; [congruence | eapply frame_trans; eassumption].
Qed.

#[global] Instance Frame_same_worst_case : Frame same_worst_case.
Proof.
  split.
  - intros st. split; [reflexivity | apply frame_refl].
  - intros a b c [F1 K1] [F2 K2]. split; [congruence | eapply frame_trans; eassumption].
Qed.

#[global] Instance Frame_best_not_above : Frame best_not_above.
Proof.
  split.
  - intros st. now left.
  - intros a b c [E1|L1] [E2|L2]; unfold best_not_above.
    + left. congruence.
    + right. now rewrite <- E1.
    + right. now rewrite E2.
    + right. eapply ltb_trans; eassumption.
Qed.

#[global] Instance Frame_worst_not_below : Frame worst_not_below.
Proof.
  split.
  - intros st. now left.
  - intros a b c [E1|L1] [E2|L2]; unfold worst_not_below.
    + left. congruence.
    + right. now rewrite <- E1.
    + right. now rewrite E2.
    + right. eapply ltb_trans; eassumption.
Qed.

(** A relation that looks at the data only holds across the prompt. *)

(** *** What the writes of a pass keep *)

Section Writes.
Context {X Y : Type} (view : Comp.t -> X) (target_view : TCalcValues.t -> Y).
Variable written : Comp.value_key -> Prop.
Variable target_written : TCalcValues.key -> Prop.
Hypothesis view_set_value :
  forall field val c, written field -> view (Comp.set_value field val c) = view c.
Hypothesis target_view_set :
  forall field val t, target_written field ->
                      target_view (TCalcValues.set field val t) = target_view t.

Lemma keeps_with_dic kd d (st : state) :
  viewed view d = viewed view (dic_of kd st) ->
  keeps view target_view st (with_dic kd d st).
Proof.
  intros H. split.
  - intros kd'. rewrite dic_of_with_dic. now destruct (kind_eq_dec kd' kd) as [->|].
  - now destruct kd.
Qed.

Lemma keeps_set_component_field id field val :
  written field -> preserves (keeps view target_view) (set_component_field id field val).
Proof.
  intros Hw st. rewrite set_component_field_route.
  destruct (route id) as [kd|]; [|apply frame_refl].
  destruct (dict_get id (dic_of kd st)); [|apply frame_refl].
  simpl. apply keeps_with_dic. apply viewed_alter. intros c. now apply view_set_value.
Qed.

Lemma keeps_map_ids ids combination field :
  written field ->
  preserves (keeps view target_view)
            (map_ids_and_component_combination_vals__set_fields ids combination field).
Proof.
  intros Hw. revert combination.
  induction ids as [|id ids IH]; intros [|val vals]; simpl;
    try (apply preserves_ret; typeclasses eauto).
  apply preserves_bind;
    [typeclasses eauto | now apply keeps_set_component_field | intros _; apply IH].
Qed.

Lemma keeps_set_dic_target_calc_values id field val :
  target_written field ->
  preserves (keeps view target_view) (set_dic_target_calc_values id field val).
Proof.
  intros Hw st. unfold set_dic_target_calc_values.
  destruct (dict_get id (dic_target_calc_values st)); [|apply frame_refl].
  simpl. split.
  - intros kd. now destruct kd.
  - simpl. apply viewed_alter. intros t0. now apply target_view_set.
Qed.

Lemma keeps_same_dictionaries (st st' : state) :
  dic_resistors st' = dic_resistors st ->
  dic_capacitors st' = dic_capacitors st ->
  dic_inductors st' = dic_inductors st ->
  dic_target_calc_values st' = dic_target_calc_values st ->
  keeps view target_view st st'.
Proof.
  intros Hr Hc Hl Ht. split; [|now rewrite Ht].
  intros kd. destruct kd; simpl; congruence.
Qed.

Lemma keeps_calc_evaluation :
  target_written TCalcValues.C_CALC_VALUE ->
  preserves (keeps view target_view) calc_evaluation_of_circuit_equations.
Proof.
  intros Hw. unfold calc_evaluation_of_circuit_equations.
  repeat first
    [ frame_step
    | apply preserves_circuit_equations; typeclasses eauto
    | now apply keeps_set_dic_target_calc_values ].
  intros st. now apply keeps_same_dictionaries.
Qed.

Lemma keeps_calc_distance_error_best math_pow :
  target_written TCalcValues.C_BEST_VALUE ->
  preserves (keeps view target_view) (calc_distance_error_best math_pow).
Proof.
  intros Hw. unfold calc_distance_error_best.
  repeat first
    [ frame_step
    | apply preserves_get_best_prev_error; typeclasses eauto
    | apply preserves_read_targets_and_obtained; typeclasses eauto
    | now apply keeps_set_dic_target_calc_values ].
  intros st. now apply keeps_same_dictionaries.
Qed.

Lemma keeps_calc_absolute_distance_error_worst :
  target_written TCalcValues.C_WORST_VALUE ->
  preserves (keeps view target_view) calc_absolute_distance_error_worst.
Proof.
  intros Hw. unfold calc_absolute_distance_error_worst.
  repeat first
    [ frame_step
    | apply preserves_get_worst_prev_error; typeclasses eauto
    | apply preserves_read_targets_and_obtained; typeclasses eauto
    | now apply keeps_set_dic_target_calc_values ].
  intros st. now apply keeps_same_dictionaries.
Qed.

Lemma keeps_best_iteration math_pow ids combination :
  written Comp.C_CURR_VALUE -> written Comp.C_BEST_VALUE ->
  target_written TCalcValues.C_CALC_VALUE -> target_written TCalcValues.C_BEST_VALUE ->
  preserves (keeps view target_view) (best_iteration math_pow ids combination).
Proof.
  intros W1 W2 T1 T2. unfold best_iteration.
  repeat first
    [ frame_step
    | now apply keeps_map_ids
    | now apply keeps_calc_evaluation
    | now apply keeps_calc_distance_error_best ].
Qed.

Lemma keeps_worst_iteration ids combination :
  written Comp.C_CURR_VALUE -> written Comp.C_WORST_VALUE ->
  target_written TCalcValues.C_CALC_VALUE -> target_written TCalcValues.C_WORST_VALUE ->
  preserves (keeps view target_view) (worst_iteration ids combination).
Proof.
  intros W1 W2 T1 T2. unfold worst_iteration.
  repeat first
    [ frame_step
    | now apply keeps_map_ids
    | now apply keeps_calc_evaluation
    | now apply keeps_calc_absolute_distance_error_worst ].
Qed.

Lemma keeps_enumerate iteration ids lists :
  (forall c, preserves (keeps view target_view) (iteration ids c)) ->
  preserves (keeps view target_view) (enumerate iteration ids lists).
Proof.
  intros Hi. unfold enumerate.
  apply preserves_bind; [typeclasses eauto | apply preserves_lift; typeclasses eauto |].
  intros pools. apply preserves_for_each; [typeclasses eauto | exact Hi].
Qed.

Lemma keeps_same_data (st st' : state) : same_data st st' -> keeps view target_view st st'.
Proof. intros (_ & R & C & L & T & _). now apply keeps_same_dictionaries. Qed.

Lemma keeps_full_search math_pow start_time end_time :
  written Comp.C_CURR_VALUE -> written Comp.C_BEST_VALUE ->
  target_written TCalcValues.C_CALC_VALUE -> target_written TCalcValues.C_BEST_VALUE ->
  preserves (keeps view target_view)
            (full_search_of_R_C_L_component_values math_pow start_time end_time).
Proof.
  intros W1 W2 T1 T2.
  apply (preserves_full_search math_pow start_time end_time (keeps view target_view)).
  - apply keeps_same_data.
  - intros ids c. now apply keeps_best_iteration.
Qed.

End Writes.

(** ** The specification *)

Lemma preserves_weaken (R R' : state -> state -> Prop) {A} (m : M A) :
  (forall st st', R st st' -> R' st st') -> preserves R m -> preserves R' m.
Proof. intros H Hm st. apply H, Hm. Qed.

Lemma viewed_expand_component {X} (view : Comp.t -> X) series (d : dict Comp.t) :
  (forall l c, view (Comp.set_expansion Comp.C_EXPANDED_VALUES l c) = view c) ->
  viewed view (snd (expand_component d series)) = viewed view d.
Proof.
  intros Hv. induction d as [|[k c] d IH]; simpl; [reflexivity|].
  destruct (expand_values c series) as [l|e]; [|reflexivity].
  destruct (expand_component d series) as [o d']. simpl in *. now rewrite Hv, IH.
Qed.

Lemma viewed_expand_component_tolerance_value_list {X} (view : Comp.t -> X)
    (d : dict Comp.t) :
  (forall l c, view (Comp.set_expansion Comp.C_EXPANDED_TOLERANCE l c) = view c) ->
  viewed view (snd (expand_component_tolerance_value_list d)) = viewed view d.
Proof.
  intros Hv. induction d as [|[k c] d IH]; simpl; [reflexivity|].
  destruct (expand_each_component_tolerance _ _) as [l|e]; [|reflexivity].
  destruct (expand_component_tolerance_value_list d) as [o d']. simpl in *.
  now rewrite Hv, IH.
Qed.

Section Expansions.
Context {X Y : Type} (view : Comp.t -> X) (target_view : TCalcValues.t -> Y).

Lemma keeps_expand_components :
  (forall l c, view (Comp.set_expansion Comp.C_EXPANDED_VALUES l c) = view c) ->
  preserves (keeps view target_view) expand_components.
Proof.
  intros Hv. unfold expand_components.
  repeat (apply preserves_bind; [typeclasses eauto | | intros _]).
  - intros st.
    pose proof (viewed_expand_component view (Some E24_resistor_values) (dic_resistors st) Hv).
    destruct (expand_component (dic_resistors st) _) as [o d]. simpl in *.
    now apply (keeps_with_dic view target_view Resistor).
  - intros st.
    pose proof (viewed_expand_component view (Some E12_capacitor_values)
                  (dic_capacitors st) Hv).
    destruct (expand_component (dic_capacitors st) _) as [o d]. simpl in *.
    now apply (keeps_with_dic view target_view Capacitor).
  - intros st.
    pose proof (viewed_expand_component view None (dic_inductors st) Hv).
    destruct (expand_component (dic_inductors st) _) as [o d]. simpl in *.
    now apply (keeps_with_dic view target_view Inductor).
Qed.

Lemma keeps_expand_tolerances :
  (forall l c, view (Comp.set_expansion Comp.C_EXPANDED_TOLERANCE l c) = view c) ->
  preserves (keeps view target_view) expand_tolerances.
Proof.
  intros Hv. unfold expand_tolerances.
  repeat (apply preserves_bind; [typeclasses eauto | | intros _]).
  - intros st.
    pose proof (viewed_expand_component_tolerance_value_list view (dic_resistors st) Hv).
    destruct (expand_component_tolerance_value_list (dic_resistors st)) as [o d]. simpl in *.
    now apply (keeps_with_dic view target_view Resistor).
  - intros st.
    pose proof (viewed_expand_component_tolerance_value_list view (dic_capacitors st) Hv).
    destruct (expand_component_tolerance_value_list (dic_capacitors st)) as [o d]. simpl in *.
    now apply (keeps_with_dic view target_view Capacitor).
  - intros st.
    pose proof (viewed_expand_component_tolerance_value_list view (dic_inductors st) Hv).
    destruct (expand_component_tolerance_value_list (dic_inductors st)) as [o d]. simpl in *.
    now apply (keeps_with_dic view target_view Inductor).
Qed.

Lemma keeps_worst_pass (written : Comp.value_key -> Prop)
    (target_written : TCalcValues.key -> Prop) :
  (forall field val c, written field -> view (Comp.set_value field val c) = view c) ->
  (forall field val t, target_written field ->
                       target_view (TCalcValues.set field val t) = target_view t) ->
  (forall l c, view (Comp.set_expansion Comp.C_EXPANDED_TOLERANCE l c) = view c) ->
  written Comp.C_CURR_VALUE -> written Comp.C_WORST_VALUE ->
  target_written TCalcValues.C_CALC_VALUE -> target_written TCalcValues.C_WORST_VALUE ->
  preserves (keeps view target_view) worst_tolerance_component_analysis.
Proof.
  intros Hc Ht He W1 W2 T1 T2. unfold worst_tolerance_component_analysis.
  apply preserves_bind; [typeclasses eauto | now apply keeps_expand_tolerances |].
  intros _ st. cbv beta zeta.
  apply keeps_enumerate. intros c.
  now apply (keeps_worst_iteration view target_view written target_written).
Qed.

End Expansions.

(** The prints read only. *)
Lemma print_solution_reads tf f (st : state) : snd (print_solution tf f st) = st.
Proof.
  unfold print_solution, bind.
  repeat match goal with
         | |- context [print_numbers ?b st] =>
             let H := fresh in
             pose proof (print_numbers_reads b st) as H;
             destruct (print_numbers b st) as [[[]|?] ?]; simpl in H; subst
         end; reflexivity.
Qed.

Lemma preserves_main (R : state -> state -> Prop) {HR : Frame R} math_pow start_time end_time :
  preserves R expand_components ->
  preserves R (full_search_of_R_C_L_component_values math_pow start_time end_time) ->
  preserves R worst_tolerance_component_analysis ->
  preserves R (main math_pow start_time end_time).
Proof.
  intros He Hb Hw. unfold main.
  apply preserves_bind;
    [typeclasses eauto | apply preserves_reads; [typeclasses eauto|];
                         apply print_specification_reads |].
  intros _. apply preserves_bind;
    [typeclasses eauto | apply preserves_consistency_testing; typeclasses eauto |].
  intros passed. destruct (negb passed); [apply preserves_ret; typeclasses eauto|].
  apply preserves_bind; [typeclasses eauto | exact He | intros _].
  apply preserves_bind; [typeclasses eauto | exact Hb | intros _].
  apply preserves_bind;
    [typeclasses eauto | apply preserves_reads; [typeclasses eauto|];
                         apply print_solution_reads | intros _].
  apply preserves_bind; [typeclasses eauto | exact Hw | intros _].
  apply preserves_reads; [typeclasses eauto|]. apply print_solution_reads.
Qed.

#[global] Instance Frame_same_fix_param : Frame same_fix_param.
Proof. split; unfold same_fix_param; congruence. Qed.

Lemma same_fix_param_similar rem (st st' : state) : similar rem st st' -> same_fix_param st st'.
Proof. intros H. apply (sim_fix _ _ _ H). Qed.

(** The fixed parameters are written by nothing. *)
Lemma same_fix_param_main math_pow start_time end_time :
  preserves same_fix_param (main math_pow start_time end_time).
Proof.
  apply (preserves_main same_fix_param math_pow start_time end_time).
  - intros a. unfold expand_components, bind, same_fix_param.
    destruct (expand_component (dic_resistors a) _) as [[[]|?] ?]; simpl; [|reflexivity].
    destruct (expand_component (dic_capacitors a) _) as [[[]|?] ?]; simpl; [|reflexivity].
    now destruct (expand_component (dic_inductors a) _) as [[[]|?] ?].
  - apply (preserves_full_search math_pow start_time end_time same_fix_param).
    + intros a b H. apply H.
    + intros ids c a. apply (same_fix_param_similar ids). apply similar_best_iteration.
  - unfold worst_tolerance_component_analysis.
    apply preserves_bind; [typeclasses eauto | |].
    + intros a. unfold expand_tolerances, bind, same_fix_param.
      destruct (expand_component_tolerance_value_list (dic_resistors a)) as [[[]|?] ?];
        simpl; [|reflexivity].
      destruct (expand_component_tolerance_value_list (dic_capacitors a)) as [[[]|?] ?];
        simpl; [|reflexivity].
      now destruct (expand_component_tolerance_value_list (dic_inductors a)) as [[[]|?] ?].
    + intros _ a. cbv beta zeta.
      set (ids := fst (combined_lists Comp.C_EXPANDED_TOLERANCE a)).
      unfold enumerate.
      apply (preserves_bind same_fix_param); [apply preserves_lift; typeclasses eauto|].
      intros pools. apply preserves_for_each; [typeclasses eauto|].
      intros c a'. apply (same_fix_param_similar ids). apply similar_worst_iteration.
Qed.

(** X7.  The program never alters its specification.  Whatever [main]
    does (it may return, raise, or exit at the prompt) the fixed parameters
    are as they were, every dictionary has the same keys in the same
    order, every component has the name, value, value set, value scale,
    tolerance and description it was given, and every target its name,
    target value, units and description. *)
Theorem main_keeps_the_specification :
  forall (math_pow : float -> float -> outcome float) (start_time end_time : float)
         (st : state),
    same_specification st (snd (main math_pow start_time end_time st)).
Proof.
  intros math_pow start_time end_time st.
  split; [apply (same_fix_param_main math_pow start_time end_time)|].
  set (written := fun _ : Comp.value_key => True).
  set (target_written := fun f => f <> TCalcValues.C_TARGET_VALUE).
  assert (Hc : forall field val c, written field ->
                 specification_of (Comp.set_value field val c) = specification_of c)
    by (intros [] val c _; reflexivity).
  assert (Ht : forall field val t, target_written field ->
                 target_specification_of (TCalcValues.set field val t)
                 = target_specification_of t)
    by (intros [] val t H; try reflexivity; now contradiction H).
  apply (preserves_main (keeps specification_of target_specification_of) math_pow).
  - apply keeps_expand_components. intros l c. reflexivity.
  - apply (keeps_full_search _ _ written target_written Hc Ht);
      unfold written, target_written; auto; discriminate.
  - apply (keeps_worst_pass _ _ written target_written Hc Ht);
      unfold written, target_written; auto; discriminate.
Qed.

(** ** The two passes, side by side *)

Lemma same_best_set_worst_prev_error e : preserves same_best (set_worst_prev_error e).
Proof. intros st. reflexivity. Qed.

Lemma same_worst_set_best_prev_error e : preserves same_worst (set_best_prev_error e).
Proof. intros st. reflexivity. Qed.

Lemma same_best_expand_tolerances : preserves same_best expand_tolerances.
Proof.
  intros a. unfold expand_tolerances, bind, same_best.
  destruct (expand_component_tolerance_value_list (dic_resistors a)) as [[[]|?] ?];
    simpl; [|reflexivity].
  destruct (expand_component_tolerance_value_list (dic_capacitors a)) as [[[]|?] ?];
    simpl; [|reflexivity].
  now destruct (expand_component_tolerance_value_list (dic_inductors a)) as [[[]|?] ?].
Qed.

Lemma same_worst_expand_tolerances : preserves same_worst expand_tolerances.
Proof.
  intros a. unfold expand_tolerances, bind, same_worst.
  destruct (expand_component_tolerance_value_list (dic_resistors a)) as [[[]|?] ?];
    simpl; [|reflexivity].
  destruct (expand_component_tolerance_value_list (dic_capacitors a)) as [[[]|?] ?];
    simpl; [|reflexivity].
  now destruct (expand_component_tolerance_value_list (dic_inductors a)) as [[[]|?] ?].
Qed.

Lemma same_best_worst_iteration ids combination :
  preserves same_best (worst_iteration ids combination).
Proof.
  apply (preserves_worst_iteration same_best (fun _ => True)).
  - intros. apply same_best_set_component_field.
  - intros. apply same_best_set_dic_target_calc_values.
  - apply same_best_tell.
  - apply same_best_set_worst_prev_error.
  - apply Forall_True.
Qed.

Lemma same_worst_best_iteration math_pow ids combination :
  preserves same_worst (best_iteration math_pow ids combination).
Proof.
  apply (preserves_best_iteration same_worst (fun _ => True)).
  - intros. apply same_worst_set_component_field.
  - intros. apply same_worst_set_dic_target_calc_values.
  - apply same_worst_tell.
  - apply same_worst_set_best_prev_error.
  - apply Forall_True.
Qed.

(** The tolerance analysis, for a relation that its expansion and its
    iterations maintain. *)
Lemma preserves_worst_pass (R : state -> state -> Prop) {HR : Frame R} :
  preserves R expand_tolerances ->
  (forall ids c, preserves R (worst_iteration ids c)) ->
  preserves R worst_tolerance_component_analysis.
Proof.
  intros He Hi. unfold worst_tolerance_component_analysis.
  apply preserves_bind; [typeclasses eauto | exact He |].
  intros _ st. cbv beta zeta. unfold enumerate.
  apply (preserves_bind R); [apply preserves_lift; typeclasses eauto|].
  intros pools. apply preserves_for_each; [typeclasses eauto|]. apply Hi.
Qed.

(** X8.  The two passes do not disturb each other's results, whatever
    their outcome.  The best pass leaves the worst error, the worst value
    of every component and of every target, and the tolerance bands as they
    were; the tolerance analysis leaves the best error, the best value of
    every component and of every target, and the candidate lists as they
    were. *)
Theorem passes_keep_each_other_s_results :
  forall (math_pow : float -> float -> outcome float) (start_time end_time : float)
         (st : state),
    same_worst_case
      st (snd (full_search_of_R_C_L_component_values math_pow start_time end_time st))
    /\ same_best_solution st (snd (worst_tolerance_component_analysis st)).
Proof.
  intros math_pow start_time end_time st. split; split.
  - apply (preserves_full_search math_pow start_time end_time same_worst).
    + intros a b H. apply H.
    + intros ids c. apply same_worst_best_iteration.
  - apply (keeps_full_search _ _
             (fun f => f <> Comp.C_WORST_VALUE)
             (fun f => f <> TCalcValues.C_WORST_VALUE)); try discriminate.
    + intros [] val c H; try reflexivity; now contradiction H.
    + intros [] val t H; try reflexivity; now contradiction H.
  - apply (preserves_worst_pass same_best).
    + apply same_best_expand_tolerances.
    + apply same_best_worst_iteration.
  - apply (keeps_worst_pass _ _
             (fun f => f <> Comp.C_BEST_VALUE)
             (fun f => f <> TCalcValues.C_BEST_VALUE)); try discriminate.
    + intros [] val c H; try reflexivity; now contradiction H.
    + intros [] val t H; try reflexivity; now contradiction H.
    + intros l c. reflexivity.
Qed.

Lemma best_not_above_same_best (st st' : state) : same_best st st' -> best_not_above st st'.
Proof. intros H. now left. Qed.

Lemma worst_not_below_same_worst (st st' : state) :
  same_worst st st' -> worst_not_below st st'.
Proof. intros H. now left. Qed.

Lemma best_not_above_calc_distance_error_best math_pow :
  preserves best_not_above (calc_distance_error_best math_pow).
Proof.
  intros st. unfold calc_distance_error_best.
  rewrite (bind_run_Return _ _ st (g_best_prev_error st) st) by reflexivity.
  pose proof (read_targets_and_obtained_reads st) as Hr.
  destruct (read_targets_and_obtained st) as [[[[[tl th] ol] oh]|x] s1] eqn:E;
    simpl in Hr; subst s1.
  2:{ rewrite (bind_run_Raise _ _ _ _ _ E). now left. }
  rewrite (bind_run_Return _ _ _ _ _ E). cbv beta iota.
  destruct (distance math_pow tl th ol oh) as [e|x] eqn:D.
  2:{ rewrite (bind_run_Raise _ _ st x st) by reflexivity. now left. }
  rewrite (bind_run_Return _ _ st e st) by reflexivity.
  destruct (e <? g_best_prev_error st)%float eqn:B; [|now left].
  rewrite (bind_run_Return _ _ st tt (with_best_prev_error e st)) by reflexivity.
  right.
  assert (P : preserves same_best
                (set_dic_target_calc_values "V_low_threshold" TCalcValues.C_BEST_VALUE ol ;;;
                 set_dic_target_calc_values "V_high_threshold" TCalcValues.C_BEST_VALUE oh ;;;
                 ret true)).
  { repeat first [ frame_step | apply same_best_set_dic_target_calc_values ]. }
  specialize (P (with_best_prev_error e st)). unfold same_best in P.
  rewrite P. exact B.
Qed.

Lemma worst_not_below_calc_absolute_distance_error_worst :
  preserves worst_not_below calc_absolute_distance_error_worst.
Proof.
  intros st. unfold calc_absolute_distance_error_worst.
  rewrite (bind_run_Return _ _ st (g_worst_prev_error st) st) by reflexivity.
  pose proof (read_targets_and_obtained_reads st) as Hr.
  destruct (read_targets_and_obtained st) as [[[[[tl th] ol] oh]|x] s1] eqn:E;
    simpl in Hr; subst s1.
  2:{ rewrite (bind_run_Raise _ _ _ _ _ E). now left. }
  rewrite (bind_run_Return _ _ _ _ _ E). cbv beta iota zeta.
  destruct (g_worst_prev_error st <? absolute_distance tl th ol oh)%float eqn:B; [|now left].
  rewrite (bind_run_Return _ _ st tt
             (with_worst_prev_error (absolute_distance tl th ol oh) st)) by reflexivity.
  right.
  assert (P : preserves same_worst
                (set_dic_target_calc_values "V_low_threshold" TCalcValues.C_WORST_VALUE ol ;;;
                 set_dic_target_calc_values "V_high_threshold" TCalcValues.C_WORST_VALUE oh ;;;
                 ret true)).
  { repeat first [ frame_step | apply same_worst_set_dic_target_calc_values ]. }
  specialize (P (with_worst_prev_error (absolute_distance tl th ol oh) st)).
  unfold same_worst in P. rewrite P. exact B.
Qed.

(** X9.  The extrema only move one way, whatever the outcome of a pass (a
    return, an exception in the middle of the enumeration, an exit at the
    prompt): after the best pass the best error is the one before or
    strictly below it, after the tolerance analysis the worst error is the
    one before or strictly above it.  Neither pass resets its extremum, so
    a second run starts from what the first one left. *)
Theorem extrema_move_one_way :
  forall (math_pow : float -> float -> outcome float) (start_time end_time : float)
         (st : state),
    best_not_above
      st (snd (full_search_of_R_C_L_component_values math_pow start_time end_time st))
    /\ worst_not_below st (snd (worst_tolerance_component_analysis st)).
Proof.
  intros math_pow start_time end_time st. split.
  - apply (preserves_full_search math_pow start_time end_time best_not_above).
    + intros a b H. left. apply H.
    + intros ids c. unfold best_iteration.
      repeat first
        [ frame_step
        | apply (preserves_weaken same_best); [exact best_not_above_same_best|];
          first [ apply same_best_map_ids | apply same_best_calc_evaluation ]
        | apply best_not_above_calc_distance_error_best ].
  - apply (preserves_worst_pass worst_not_below).
    + apply (preserves_weaken same_worst); [exact worst_not_below_same_worst|].
      apply same_worst_expand_tolerances.
    + intros ids c. unfold worst_iteration.
      repeat first
        [ frame_step
        | apply (preserves_weaken same_worst); [exact worst_not_below_same_worst|];
          first [ apply same_worst_map_ids | apply same_worst_calc_evaluation ]
        | apply worst_not_below_calc_absolute_distance_error_worst ].
Qed.

(** ** The evaluations of a pass *)

Lemma number_of_combinations_bands (pools : list (list float)) :
  Forall (fun pool => List.length pool = 3) pools ->
  number_of_combinations pools = 3 ^ List.length pools.
Proof.
  induction 1 as [|pool pools Hp _ IH]; [reflexivity|].
  cbn [number_of_combinations fold_right List.length]. fold (number_of_combinations pools).
  rewrite Hp, IH, Nat.pow_succ_r'. reflexivity.
Qed.

Lemma length_band (d : dict Comp.t) (pool : list float) :
  band_of d pool -> List.length pool = 3.
Proof.
  intros (k & c & _ & H). unfold expand_each_component_tolerance, obind in H.
  destruct (py_mul _ _); [|discriminate].
  destruct (Comp.best_value c); [|discriminate].
  injection H as <-. reflexivity.
Qed.

Lemma length_snd_expand_component_tolerance_value_list (d : dict Comp.t) :
  List.length (snd (expand_component_tolerance_value_list d)) = List.length d.
Proof.
  rewrite <- (length_map (fun kv => (fst kv, tt)) d).
  rewrite <- (length_map (fun kv => (fst kv, tt))
                (snd (expand_component_tolerance_value_list d))).
  f_equal. apply (viewed_expand_component_tolerance_value_list (fun _ => tt)). reflexivity.
Qed.

Lemma length_combined_lists (field : Comp.expansion_key) (st : state) :
  List.length (snd (combined_lists field st)) = number_of_components st.
Proof.
  unfold combined_lists, number_of_components.
  rewrite make_two_combined_list_of_components_spec. simpl.
  rewrite length_map, !length_app.
  pose proof (make_list_component_expanded_values_spec (dic_resistors st) field) as [_ Pr].
  pose proof (make_list_component_expanded_values_spec (dic_capacitors st) field) as [_ Pc].
  pose proof (make_list_component_expanded_values_spec (dic_inductors st) field) as [_ Pl].
  rewrite (Permutation_length Pr), (Permutation_length Pc), (Permutation_length Pl).
  unfold entries. rewrite !length_map. lia.
Qed.

Lemma expand_tolerances_number_of_components (st s1 : state) :
  expand_tolerances st = (Return tt, s1) ->
  number_of_components s1 = number_of_components st
  /\ same_interaction st s1.
Proof.
  intros H.
  pose proof (length_snd_expand_component_tolerance_value_list (dic_resistors st)) as Lr.
  pose proof (length_snd_expand_component_tolerance_value_list (dic_capacitors st)) as Lc.
  pose proof (length_snd_expand_component_tolerance_value_list (dic_inductors st)) as Ll.
  unfold expand_tolerances, bind in H.
  destruct (expand_component_tolerance_value_list (dic_resistors st)) as [[[]|e] dr];
    [|discriminate].
  simpl in H.
  destruct (expand_component_tolerance_value_list (dic_capacitors st)) as [[[]|e] dc];
    [|discriminate].
  simpl in H.
  destruct (expand_component_tolerance_value_list (dic_inductors st)) as [[[]|e] dl];
    [|discriminate].
  injection H as <-. unfold number_of_components. simpl in *.
  split; [lia | split; reflexivity].
Qed.

(** X10.  A pass that returns has evaluated the circuit once for every
    combination, and done nothing else that shows.  After the best pass the
    log is the one before, then the prompts of the safety gate (none when
    the count is at most 25,000,000, and then no line of input is read),
    then as many evaluations as the count computed beforehand, the product
    of the lengths of the candidate lists.  After the tolerance analysis it
    is the log before and [3 ^ n] evaluations, for the [n] components of
    the three dictionaries, with no line of input read. *)
Theorem passes_evaluate_every_combination_once :
  forall (math_pow : float -> float -> outcome float) (start_time end_time : float)
         (st st' : state),
    (full_search_of_R_C_L_component_values math_pow start_time end_time st = (Return tt, st') ->
     exists pools asked,
       iterables (snd (combined_lists Comp.C_EXPANDED_VALUES st)) = Return pools
       /\ count_evaluations (snd (combined_lists Comp.C_EXPANDED_VALUES st)) 1%Z
          = Return (Z.of_nat (number_of_combinations pools))
       /\ log st' = log st
                    ++ repeat (Prompt (Z.of_nat (number_of_combinations pools))) asked
                    ++ repeat Evaluate (number_of_combinations pools)
       /\ ((Z.of_nat (number_of_combinations pools) <= 25000000)%Z ->
           asked = 0 /\ stdin st' = stdin st))
    /\ (worst_tolerance_component_analysis st = (Return tt, st') ->
        stdin st' = stdin st
        /\ log st' = log st ++ repeat Evaluate (3 ^ number_of_components st)).
Proof.
  intros math_pow start_time end_time st st'. split.
  - intros H.
    apply full_search_inv in H as (n & five_perc & sg & pools & Hn & _ & Hg & Hp & Hloop).
    pose proof (iterables_inv _ _ Hp) as El.
    assert (En : n = Z.of_nat (number_of_combinations pools)).
    { rewrite El, count_evaluations_spec in Hn. apply Return_inj in Hn. lia. }
    destruct (for_each_logs _ _ (best_iteration_logs math_pow _) _ _ Hloop) as [S L].
    rewrite length_itertools_product in L.
    exists pools.
    destruct (Z.ltb_spec 25000000 n) as [Hlt|Hle].
    + rewrite (safety_gate_closed n st Hlt) in Hg.
      destruct (confirm_spec n (stdin st) st) as [_ (asked & _ & Hl & _)].
      rewrite Hg in Hl. simpl in Hl.
      exists asked. split; [assumption|]. split; [now rewrite Hn, En|].
      split; [now rewrite L, Hl, <- app_assoc, En | intros ?; exfalso; lia].
    + rewrite (safety_gate_open n st Hle) in Hg. injection Hg as <-.
      exists 0. split; [assumption|]. split; [now rewrite Hn, En|].
      split; [exact L | intros _; split; [reflexivity | exact S]].
  - intros H. unfold worst_tolerance_component_analysis in H.
    apply bind_Return in H as ([] & s1 & He & H). cbv beta zeta in H.
    apply enumerate_inv in H as (pools & Hp & Hlen & Hloop).
    destruct (for_each_logs _ _ (worst_iteration_logs _) _ _ Hloop) as [S L].
    destruct (expand_tolerances_number_of_components _ _ He) as [Hn [S1 L1]].
    pose proof (pools_are_bands st s1 pools He Hp) as Hb.
    rewrite length_itertools_product, number_of_combinations_bands in L.
    2:{ eapply Forall_impl; [|exact Hb]. intros pool. apply length_band. }
    rewrite <- Hlen, length_combined_lists, Hn in L.
    split; congruence.
Qed.

(** ** The enumeration *)

Section Enumeration.
Context {A : Type}.

Lemma In_itertools_product (pools : list (list A)) (c : list A) :
  In c (itertools_product pools) <-> Forall2 (fun x pool => In x pool) c pools.
Proof.
  revert c. induction pools as [|pool pools IH]; intros c.
  - simpl. split.
    + intros [<-|[]]. constructor.
    + intros H. inversion H. now left.
  - rewrite itertools_product_cons, in_flat_map. split.
    + intros (x & Hx & Hc). apply in_map_iff in Hc as (c' & <- & Hc').
      constructor; [assumption | now apply IH].
    + intros H. inversion H as [|x p c' ps Hx Hc']; subst.
      exists x. split; [assumption|]. apply in_map. now apply IH.
Qed.

Lemma NoDup_itertools_product (pools : list (list A)) :
  Forall (fun pool => NoDup pool) pools -> NoDup (itertools_product pools).
Proof.
  induction 1 as [|pool pools Hp _ IH].
  - repeat constructor. intros [].
  - rewrite itertools_product_cons.
    induction Hp as [|x pool Hx Hp IHp]; simpl; [constructor|].
    apply NoDup_app.
    + clear -IH. induction IH as [|c cs Hc _ IHc]; simpl; constructor; [|assumption].
      intros H. apply in_map_iff in H as (c' & [= <-] & Hc'). contradiction.
    + exact IHp.
    + intros c Hc Hc'. apply in_map_iff in Hc as (c1 & <- & _).
      apply in_flat_map in Hc' as (y & Hy & Hc').
      apply in_map_iff in Hc' as (c2 & [= <- _] & _). contradiction.
Qed.

Lemma itertools_product_empty (pools : list (list A)) :
  In [] pools -> itertools_product pools = [].
Proof.
  induction pools as [|pool pools IH]; [intros []|].
  rewrite itertools_product_cons.
  intros [->|Hin]; [reflexivity|].
  rewrite (IH Hin). clear. induction pool; simpl; auto.
Qed.

(** X11.  The enumeration is the cartesian product, no more and no less: a
    list is enumerated exactly when it takes one value from each pool, in
    the order of the pools; when no pool repeats a value, no combination is
    enumerated twice; and a pool that is empty leaves nothing to
    enumerate. *)
Theorem itertools_product_exhaustive :
  forall (pools : list (list A)),
    (forall c, In c (itertools_product pools) <-> Forall2 (fun x pool => In x pool) c pools)
    /\ (Forall (fun pool => NoDup pool) pools -> NoDup (itertools_product pools))
    /\ (In [] pools -> itertools_product pools = []).
Proof.
  intros pools. split; [|split].
  - intros c. apply In_itertools_product.
  - apply NoDup_itertools_product.
  - apply itertools_product_empty.
Qed.

End Enumeration.

Lemma number_of_combinations_empty (pools : list (list float)) :
  In [] pools -> number_of_combinations pools = 0.
Proof.
  intros H. rewrite <- length_itertools_product.
  now rewrite (itertools_product_empty pools H).
Qed.

(** ** The best pass at its edges *)

(** X12.  A candidate list that is empty (an empty value set or an empty
    scale list) ends the search before it starts: the count is zero, so
    nothing is asked, nothing is enumerated or evaluated, and the pass
    returns with every global as it was; no best value is recorded. *)
Theorem empty_candidate_list_ends_the_search :
  forall (math_pow : float -> float -> outcome float) (start_time end_time : float)
         (st : state) (pools : list (list float)),
    iterables (snd (combined_lists Comp.C_EXPANDED_VALUES st)) = Return pools ->
    In [] pools ->
    count_evaluations (snd (combined_lists Comp.C_EXPANDED_VALUES st)) 1%Z = Return 0%Z
    /\ full_search_of_R_C_L_component_values math_pow start_time end_time st = (Return tt, st).
Proof.
  intros math_pow start_time end_time st pools Hp He.
  pose proof (iterables_inv _ _ Hp) as El.
  assert (Hn : count_evaluations (snd (combined_lists Comp.C_EXPANDED_VALUES st)) 1%Z
               = Return 0%Z).
  { rewrite El, count_evaluations_spec, (number_of_combinations_empty pools He).
    reflexivity. }
  split; [exact Hn|].
  rewrite (full_search_run math_pow start_time end_time st 0 0 Hn eq_refl).
  rewrite (bind_run_Return _ _ st tt st) by (apply safety_gate_open; lia).
  unfold search.
  rewrite (bind_run_Return _ _ st pools st) by (unfold lift; now rewrite Hp).
  now rewrite (itertools_product_empty pools He).
Qed.

Lemma prompted_input (n : Z) (asked : nat) (lines more : list string) (st : state) :
  prompted n asked lines (input n more st) = prompted n (S asked) lines st.
Proof.
  unfold prompted, input, with_event, with_stdin. simpl.
  f_equal. now rewrite <- app_assoc.
Qed.

Lemma no_answer_inv (resp : string) :
  no_answer resp = true ->
  (String.eqb resp "y" || String.eqb resp "Y") = false
  /\ (String.eqb resp "n" || String.eqb resp "N") = false.
Proof.
  unfold no_answer, accepts, declines. intros H.
  apply andb_prop in H as [Ha Hd]. now apply negb_true_iff in Ha, Hd.
Qed.

(** Lines that are no answer, then a yes. *)
Lemma confirm_accepted (n : Z) (junk : list string) (resp : string) (rest : list string)
    (st : state) :
  forallb no_answer junk = true ->
  accepts resp = true ->
  confirm n (junk ++ resp :: rest) st
  = (Return tt, prompted n (S (List.length junk)) rest st).
Proof.
  intros Hj Ha. revert st.
  induction junk as [|x junk IH]; intros st; simpl.
  - unfold accepts in Ha. rewrite Ha. reflexivity.
  - simpl in Hj. apply andb_prop in Hj as [Hx Hj].
    destruct (no_answer_inv x Hx) as [Hy Hn]. rewrite Hy, Hn.
    rewrite (IH Hj). now rewrite prompted_input.
Qed.

(** Lines that are no answer, to the end of the input. *)
Lemma confirm_exhausted (n : Z) (lines : list string) (st : state) :
  forallb no_answer lines = true ->
  confirm n lines st = (Raise EOFError, prompted n (S (List.length lines)) [] st).
Proof.
  intros Hj. revert st.
  induction lines as [|x lines IH]; intros st; simpl.
  - reflexivity.
  - simpl in Hj. apply andb_prop in Hj as [Hx Hj].
    destruct (no_answer_inv x Hx) as [Hy Hn]. rewrite Hy, Hn.
    rewrite (IH Hj). now rewrite prompted_input.
Qed.

(** X13.  The prompt of the safety gate, when the count exceeds
    25,000,000 and its twentieth has been computed, the count being within
    the range of a double.  Every line that is none of y, Y, n, N is asked
    again.  At the first answer, if it is y or Y the pass is the search:
    the product of the lists and the loop over it, run with the lines that
    follow still to be read and one prompt logged for each line read; if
    the input ends before any answer, the pass raises [EOFError], with one
    prompt more than there were lines, and nothing else changed: no
    combination is evaluated. *)
Theorem safety_gate_accepted_or_exhausted :
  forall (math_pow : float -> float -> outcome float) (start_time end_time : float)
         (st : state) (n five_perc : Z),
    count_evaluations (snd (combined_lists Comp.C_EXPANDED_VALUES st)) 1%Z = Return n ->
    five_percent n = Return five_perc ->
    (25000000 < n)%Z ->
    let ids := fst (combined_lists Comp.C_EXPANDED_VALUES st) in
    let lists := snd (combined_lists Comp.C_EXPANDED_VALUES st) in
    (forall junk resp rest,
        stdin st = junk ++ resp :: rest ->
        forallb no_answer junk = true ->
        accepts resp = true ->
        full_search_of_R_C_L_component_values math_pow start_time end_time st
        = search math_pow start_time end_time n five_perc ids lists
                 (prompted n (S (List.length junk)) rest st))
    /\ (forallb no_answer (stdin st) = true ->
        full_search_of_R_C_L_component_values math_pow start_time end_time st
        = (Raise EOFError, prompted n (S (List.length (stdin st))) [] st)).
Proof.
  intros math_pow start_time end_time st n five_perc Hn Hf Hlt ids lists.
  rewrite (full_search_run math_pow start_time end_time st n five_perc Hn Hf). unfold bind.
  rewrite (safety_gate_closed n st Hlt).
  split.
  - intros junk resp rest Hs Hj Ha. rewrite Hs.
    now rewrite (confirm_accepted n junk resp rest st Hj Ha).
  - intros Hj. now rewrite (confirm_exhausted n (stdin st) st Hj).
Qed.

Lemma count_evaluations_None (lists : list (option (list float))) (acc : Z) :
  In None lists -> count_evaluations lists acc = Raise TypeError.
Proof.
  revert acc. induction lists as [|[l|] lists IH]; intros acc Hin; simpl.
  - contradiction.
  - destruct Hin as [Hin|Hin]; [discriminate | now apply IH].
  - reflexivity.
Qed.

Lemma In_combined_lists (field : Comp.expansion_key) (st : state) (k : string) (c : Comp.t) :
  In (k, c) (dic_resistors st ++ dic_capacitors st ++ dic_inductors st) ->
  In (Comp.get_expansion field c) (snd (combined_lists field st)).
Proof.
  intros Hin. unfold combined_lists.
  rewrite make_two_combined_list_of_components_spec. simpl.
  rewrite !map_app, !in_app_iff.
  assert (G : forall d, In (k, c) d ->
                        In (Comp.get_expansion field c)
                           (map snd (make_list_component_expanded_values d field))).
  { intros d Hd. apply in_map_iff.
    exists (Comp.name c, Comp.get_expansion field c). split; [reflexivity|].
    eapply Permutation_in;
      [apply Permutation_sym, make_list_component_expanded_values_spec|].
    unfold entries. apply in_map_iff. now exists (k, c). }
  rewrite !in_app_iff in Hin. destruct Hin as [H|[H|H]]; auto.
Qed.

(** X14.  The best pass run before the expansion: a component that has no
    list of expanded values (the field is absent until [expand_component]
    has stored it) makes the count of the combinations raise [TypeError], on
    the length of [None]; nothing is asked, evaluated or changed. *)
Theorem search_before_expansion_fails :
  forall (math_pow : float -> float -> outcome float) (start_time end_time : float)
         (st : state) (k : string) (c : Comp.t),
    In (k, c) (dic_resistors st ++ dic_capacitors st ++ dic_inductors st) ->
    Comp.expanded_values c = None ->
    full_search_of_R_C_L_component_values math_pow start_time end_time st
    = (Raise TypeError, st).
Proof.
  intros math_pow start_time end_time st k c Hin Hc.
  apply (In_combined_lists Comp.C_EXPANDED_VALUES) in Hin. simpl in Hin. rewrite Hc in Hin.
  unfold full_search_of_R_C_L_component_values. cbv beta zeta.
  apply bind_run_Raise. unfold lift.
  now rewrite (count_evaluations_None _ 1%Z Hin).
Qed.

(** ** What a pass puts on record *)

Lemma viewed_dict_get {V X} (view : V -> X) (k : string) (d d' : dict V) :
  viewed view d' = viewed view d ->
  option_map view (dict_get k d') = option_map view (dict_get k d).
Proof.
  revert d'. induction d as [|[x v] d IH]; intros [|[x' v'] d'] H; simpl in *;
    try discriminate; [reflexivity|].
  injection H as -> Hv Hd. destruct (String.eqb k x); simpl; [now rewrite Hv | now apply IH].
Qed.

Lemma get_dic_target_view (id : string) (field : TCalcValues.key) (st : state) :
  get_dic_target_calc_values id field st
  = (match option_map (TCalcValues.get field) (dict_get id (dic_target_calc_values st)) with
     | Some (Some v) => Return v
     | _ => Raise ValueError
     end, st).
Proof.
  unfold get_dic_target_calc_values, process_inner_dic.
  destruct (dict_get id _) as [t|]; simpl; [|reflexivity].
  now destruct (TCalcValues.get field t).
Qed.

(** What is on record stays on record when the fields that hold it show
    the same. *)
Lemma recorded_kept (field : Comp.value_key) (target_field : TCalcValues.key)
    ids c from (st st' : state) :
  keeps (Comp.get_value field) (TCalcValues.get target_field) st st' ->
  recorded field target_field ids c from st -> recorded field target_field ids c from st'.
Proof.
  intros [Hc Ht] [Hv (vl & vh & Hl & Hh & Tl & Th)]. split.
  - eapply Forall2_impl; [|exact Hv].
    intros id v (kd & Hr & Hg). exists kd. split; [assumption|].
    rewrite get_dic_value_at in Hg |- *. injection Hg as Hg.
    unfold value_at in *. rewrite (viewed_dict_get _ id _ _ (Hc kd)).
    now rewrite Hg.
  - exists vl, vh. split; [assumption|]. split; [assumption|].
    rewrite get_dic_target_view in Tl, Th. rewrite !get_dic_target_view.
    injection Tl as Tl. injection Th as Th.
    rewrite (viewed_dict_get _ "V_low_threshold" _ _ Ht),
      (viewed_dict_get _ "V_high_threshold" _ _ Ht).
    now rewrite Tl, Th.
Qed.

Lemma recorded_from (field : Comp.value_key) (target_field : TCalcValues.key)
    ids c (from from' st : state) :
  similar ids from from' -> List.length ids <= List.length c ->
  recorded field target_field ids c from' st -> recorded field target_field ids c from st.
Proof.
  intros Hs Hlen [Hv (vl & vh & Hl & Hh & Tl & Th)]. split; [assumption|].
  exists vl, vh. unfold obtained_low, obtained_high in *.
  rewrite (scored_similar _ ids c from from' Hs Hlen) in Hl.
  rewrite (scored_similar _ ids c from from' Hs Hlen) in Hh. auto.
Qed.

(** *** The record a pass keeps *)

Section Snapshot.
Variable beats : float -> float -> bool.
Variable kept : state -> float.
Variable ids : list string.
Variable iteration : list float -> M unit.
Variable error_of : list float -> state -> outcome float.
Variable on_record : list float -> state -> state -> Prop.
Hypothesis iteration_records :
  forall c st st',
    List.length ids = List.length c ->
    iteration c st = (Return tt, st') ->
    exists e,
      error_of c st = Return e
      /\ kept st' = (if beats e (kept st) then e else kept st)
      /\ (if beats e (kept st) then on_record c st st'
          else forall c' from, on_record c' from st -> on_record c' from st').
Hypothesis iteration_similar : forall c, preserves (similar ids) (iteration c).
Hypothesis error_similar :
  forall c st st',
    similar ids st st' -> List.length ids <= List.length c -> error_of c st' = error_of c st.
Hypothesis on_record_from :
  forall c from from' st,
    similar ids from from' -> List.length ids <= List.length c ->
    on_record c from' st -> on_record c from st.

Lemma snapshot_loop (combos : list (list float)) :
  forall st0 st st',
    similar ids st0 st ->
    (forall c, In c combos -> List.length ids = List.length c) ->
    for_each combos iteration st = (Return tt, st') ->
    (kept st' = kept st /\ forall c from, on_record c from st -> on_record c from st')
    \/ exists c, In c combos /\ error_of c st0 = Return (kept st') /\ on_record c st0 st'.
Proof.
  induction combos as [|c combos IH]; intros st0 st st' Hs Hlen H; simpl in H.
  - injection H as <-. left. split; [reflexivity | auto].
  - apply bind_Return in H as ([] & s1 & Hi & H).
    assert (Hc : List.length ids = List.length c) by (apply Hlen; now left).
    destruct (iteration_records c st s1 Hc Hi) as (e & He & Hk & Hrec).
    assert (Hs1 : similar ids st0 s1).
    { eapply frame_trans; [exact Hs|].
      pose proof (iteration_similar c st) as F. now rewrite Hi in F. }
    destruct (IH st0 s1 st' Hs1 (fun c' Hc' => Hlen c' (or_intror Hc')) H)
      as [[Hsame Hkeep]|(c' & Hc' & He' & Hr')].
    + destruct (beats e (kept st)) eqn:B.
      * right. exists c. split; [now left|]. split.
        -- rewrite Hsame, Hk, <- He. symmetry. apply error_similar; [assumption | lia].
        -- apply Hkeep. apply (on_record_from c st0 st s1 Hs); [lia | exact Hrec].
      * left. split; [congruence|]. intros c' from Hr. apply Hkeep. now apply Hrec.
    + right. exists c'. split; [now right | auto].
Qed.

End Snapshot.

(** The state [calc_distance_error_best] leaves. *)
Lemma calc_distance_error_best_state math_pow (st st' : state) (b : bool) tl th ol oh :
  calc_distance_error_best math_pow st = (Return b, st') ->
  read_targets_and_obtained st = (Return (tl, th, ol, oh), st) ->
  if b
  then get_dic_target_calc_values "V_low_threshold" TCalcValues.C_BEST_VALUE st'
       = (Return ol, st')
       /\ get_dic_target_calc_values "V_high_threshold" TCalcValues.C_BEST_VALUE st'
          = (Return oh, st')
       /\ forall kd, dic_of kd st' = dic_of kd st
  else st' = st.
Proof.
  intros H Hr.
  destruct (read_targets_present st _ Hr) as [Hl Hh].
  unfold calc_distance_error_best in H.
  rewrite (bind_run_Return _ _ st (g_best_prev_error st) st) in H by reflexivity.
  rewrite (bind_run_Return _ _ st _ st Hr) in H. cbv beta iota in H.
  destruct (distance math_pow tl th ol oh) as [e|x].
  2:{ rewrite (bind_run_Raise _ _ st x st) in H by reflexivity. discriminate H. }
  rewrite (bind_run_Return _ _ st e st) in H by reflexivity.
  destruct (e <? g_best_prev_error st)%float.
  - unfold bind, set_best_prev_error, set_dic_target_calc_values, ret in H. simpl in H.
    destruct (dict_get "V_low_threshold" (dic_target_calc_values st)) as [rl|] eqn:El;
      [|contradiction].
    simpl in H. rewrite dict_get_alter in H. simpl in H.
    destruct (dict_get "V_high_threshold" (dic_target_calc_values st)) as [rh|] eqn:Eh;
      [|contradiction].
    simpl in H. injection H as <- <-.
    unfold get_dic_target_calc_values. simpl.
    rewrite !dict_get_alter. simpl. rewrite El, Eh. simpl.
    split; [reflexivity|]. split; [reflexivity|].
    intros kd. now destruct kd.
  - now injection H as <- <-.
Qed.

Lemma calc_absolute_distance_error_worst_state (st st' : state) (b : bool) tl th ol oh :
  calc_absolute_distance_error_worst st = (Return b, st') ->
  read_targets_and_obtained st = (Return (tl, th, ol, oh), st) ->
  if b
  then get_dic_target_calc_values "V_low_threshold" TCalcValues.C_WORST_VALUE st'
       = (Return ol, st')
       /\ get_dic_target_calc_values "V_high_threshold" TCalcValues.C_WORST_VALUE st'
          = (Return oh, st')
       /\ forall kd, dic_of kd st' = dic_of kd st
  else st' = st.
Proof.
  intros H Hr.
  destruct (read_targets_present st _ Hr) as [Hl Hh].
  unfold calc_absolute_distance_error_worst in H.
  rewrite (bind_run_Return _ _ st (g_worst_prev_error st) st) in H by reflexivity.
  rewrite (bind_run_Return _ _ st _ st Hr) in H. cbv beta iota zeta in H.
  destruct (g_worst_prev_error st <? absolute_distance tl th ol oh)%float.
  - unfold bind, set_worst_prev_error, set_dic_target_calc_values, ret in H. simpl in H.
    destruct (dict_get "V_low_threshold" (dic_target_calc_values st)) as [rl|] eqn:El;
      [|contradiction].
    simpl in H. rewrite dict_get_alter in H. simpl in H.
    destruct (dict_get "V_high_threshold" (dic_target_calc_values st)) as [rh|] eqn:Eh;
      [|contradiction].
    simpl in H. injection H as <- <-.
    unfold get_dic_target_calc_values. simpl.
    rewrite !dict_get_alter. simpl. rewrite El, Eh. simpl.
    split; [reflexivity|]. split; [reflexivity|].
    intros kd. now destruct kd.
  - now injection H as <- <-.
Qed.

(** The values a combination leaves under the field it is written to. *)
Lemma map_ids_records (field : Comp.value_key) ids c (st st' : state) :
  map_ids_and_component_combination_vals__set_fields ids c field st = (Return tt, st') ->
  NoDup ids -> List.length ids = List.length c ->
  Forall2 (fun id v => exists kd, route id = Some kd
                                  /\ get_dic kd id field st' = (Return v, st'))
          ids c
  /\ dic_target_calc_values st' = dic_target_calc_values st.
Proof.
  intros H Hnd Hlen.
  destruct (map_ids_read_back_aux field ids c st st' H Hnd) as (Hread & _ & Hsame).
  split; [|apply Hsame].
  clear H Hnd Hsame. revert c Hlen Hread.
  induction ids as [|id ids IH]; intros [|v c] Hlen Hread; simpl in Hlen; try lia;
    constructor.
  - destruct (Hread 0 id v eq_refl eq_refl) as (kd & Hr & Hv).
    exists kd. split; [assumption|]. now rewrite get_dic_value_at, Hv.
  - apply IH; [lia|]. intros i id' v' Hi Hc. apply (Hread (S i)); assumption.
Qed.

(** ** The solution on record *)

Lemma get_dic_target_same_dictionary id field (st st' : state) v :
  dic_target_calc_values st' = dic_target_calc_values st ->
  get_dic_target_calc_values id field st = (Return v, st) ->
  get_dic_target_calc_values id field st' = (Return v, st').
Proof.
  unfold get_dic_target_calc_values. intros -> H. injection H as H. now rewrite H.
Qed.

(** An iteration of the best pass, with what it puts on record. *)
Lemma best_iteration_records math_pow ids c (a b : state) :
  NoDup ids -> List.length ids = List.length c ->
  best_iteration math_pow ids c a = (Return tt, b) ->
  exists e,
    best_error_of math_pow ids c a = Return e
    /\ g_best_prev_error b
       = (if (e <? g_best_prev_error a)%float then e else g_best_prev_error a)
    /\ (if (e <? g_best_prev_error a)%float
        then recorded Comp.C_BEST_VALUE TCalcValues.C_BEST_VALUE ids c a b
        else forall c' from,
            recorded Comp.C_BEST_VALUE TCalcValues.C_BEST_VALUE ids c' from a ->
            recorded Comp.C_BEST_VALUE TCalcValues.C_BEST_VALUE ids c' from b).
Proof.
  intros Hnd Hlen H0.
  destruct (best_iteration_spec math_pow ids c a b H0) as (e0 & He0 & Hg0).
  unfold best_iteration in H0.
  apply bind_Return in H0 as ([] & s1 & Hm & H).
  apply bind_Return in H as ([] & s2 & Hc & H).
  apply bind_Return in H as (better & s3 & Hd & H).
  pose proof Hd as Hd'.
  apply calc_distance_error_best_inv in Hd' as (tl & th & ol & oh & e & Hr & He & Hb & Hg).
  assert (E1 : g_best_prev_error s1 = g_best_prev_error a).
  { pose proof (same_best_map_ids ids c Comp.C_CURR_VALUE a) as F. now rewrite Hm in F. }
  assert (E2 : g_best_prev_error s2 = g_best_prev_error s1).
  { pose proof (same_best_calc_evaluation s1) as F. now rewrite Hc in F. }
  assert (Ee : e0 = e).
  { unfold best_error_of in He0.
    rewrite (scored_run_Return _ _ _ _ _ _ _ _ _ _ Hm Hc Hr) in He0. congruence. }
  subst e0. exists e. split; [assumption|]. split; [assumption|].
  rewrite E2, E1 in Hb. rewrite <- Hb.
  pose proof (calc_distance_error_best_state math_pow s2 s3 better tl th ol oh Hd Hr) as Hst.
  destruct better.
  - destruct Hst as (Tl & Th & _).
    destruct (map_ids_records Comp.C_BEST_VALUE ids c s3 b H Hnd Hlen) as [Hv Ht].
    split; [exact Hv|].
    exists ol, oh. unfold obtained_low, obtained_high.
    rewrite !(scored_run_Return _ _ _ _ _ _ _ _ _ _ Hm Hc Hr).
    split; [reflexivity|]. split; [reflexivity|].
    split; eapply get_dic_target_same_dictionary; eassumption.
  - injection H as <-. subst s3.
    intros c' from. apply recorded_kept.
    eapply frame_trans.
    + eapply run_preserved; [|exact Hm].
      apply (keeps_map_ids _ _ (fun f => f <> Comp.C_BEST_VALUE)); [|discriminate].
      intros [] val x Hf; try reflexivity. now contradiction Hf.
    + eapply run_preserved; [|exact Hc].
      apply (keeps_calc_evaluation _ _ (fun f => f <> TCalcValues.C_BEST_VALUE));
        [|discriminate].
      intros [] val x Hf; try reflexivity. now contradiction Hf.
Qed.

Lemma worst_iteration_records ids c (a b : state) :
  NoDup ids -> List.length ids = List.length c ->
  worst_iteration ids c a = (Return tt, b) ->
  exists e,
    worst_error_of ids c a = Return e
    /\ g_worst_prev_error b
       = (if (g_worst_prev_error a <? e)%float then e else g_worst_prev_error a)
    /\ (if (g_worst_prev_error a <? e)%float
        then recorded Comp.C_WORST_VALUE TCalcValues.C_WORST_VALUE ids c a b
        else forall c' from,
            recorded Comp.C_WORST_VALUE TCalcValues.C_WORST_VALUE ids c' from a ->
            recorded Comp.C_WORST_VALUE TCalcValues.C_WORST_VALUE ids c' from b).
Proof.
  intros Hnd Hlen H0.
  destruct (worst_iteration_spec ids c a b H0) as (e0 & He0 & Hg0 & _).
  unfold worst_iteration in H0.
  apply bind_Return in H0 as ([] & s1 & Hm & H).
  apply bind_Return in H as ([] & s2 & Hc & H).
  apply bind_Return in H as (worse & s3 & Hd & H).
  pose proof Hd as Hd'.
  apply calc_absolute_distance_error_worst_inv in Hd' as (tl & th & ol & oh & Hr & Hb & Hg).
  assert (E1 : g_worst_prev_error s1 = g_worst_prev_error a).
  { pose proof (same_worst_map_ids ids c Comp.C_CURR_VALUE a) as F. now rewrite Hm in F. }
  assert (E2 : g_worst_prev_error s2 = g_worst_prev_error s1).
  { pose proof (same_worst_calc_evaluation s1) as F. now rewrite Hc in F. }
  assert (Ee : e0 = absolute_distance tl th ol oh).
  { unfold worst_error_of in He0.
    rewrite (scored_run_Return _ _ _ _ _ _ _ _ _ _ Hm Hc Hr) in He0. congruence. }
  subst e0. exists (absolute_distance tl th ol oh).
  split; [assumption|]. split; [assumption|].
  rewrite E2, E1 in Hb. rewrite <- Hb.
  pose proof (calc_absolute_distance_error_worst_state s2 s3 worse tl th ol oh Hd Hr) as Hst.
  destruct worse.
  - destruct Hst as (Tl & Th & _).
    destruct (map_ids_records Comp.C_WORST_VALUE ids c s3 b H Hnd Hlen) as [Hv Ht].
    split; [exact Hv|].
    exists ol, oh. unfold obtained_low, obtained_high.
    rewrite !(scored_run_Return _ _ _ _ _ _ _ _ _ _ Hm Hc Hr).
    split; [reflexivity|]. split; [reflexivity|].
    split; eapply get_dic_target_same_dictionary; eassumption.
  - injection H as <-. subst s3.
    intros c' from. apply recorded_kept.
    eapply frame_trans.
    + eapply run_preserved; [|exact Hm].
      apply (keeps_map_ids _ _ (fun f => f <> Comp.C_WORST_VALUE)); [|discriminate].
      intros [] val x Hf; try reflexivity. now contradiction Hf.
    + eapply run_preserved; [|exact Hc].
      apply (keeps_calc_evaluation _ _ (fun f => f <> TCalcValues.C_WORST_VALUE));
        [|discriminate].
      intros [] val x Hf; try reflexivity. now contradiction Hf.
Qed.

Lemma combination_length (field : Comp.expansion_key) (st : state)
    (pools : list (list float)) (c : list float) :
  iterables (snd (combined_lists field st)) = Return pools ->
  In c (itertools_product pools) ->
  List.length (fst (combined_lists field st)) = List.length c.
Proof.
  intros Hp Hc.
  rewrite (length_combination pools c Hc), combined_lists_length.
  apply iterables_inv in Hp. now rewrite Hp, length_map.
Qed.

(** X15.  The solution the best pass reports is a combination that
    attains the error it reports.  When the pass returns, the identifiers
    being distinct and the best error having changed, there is an
    enumerated combination whose Euclidean error is the final best error,
    whose values are the best values the getters read for the identifiers,
    one for one, and whose two thresholds, as the circuit equations obtain
    them, are the best values of the two targets. *)
Theorem best_solution_is_recorded :
  forall (math_pow : float -> float -> outcome float) (start_time end_time : float)
         (st st' : state),
    full_search_of_R_C_L_component_values math_pow start_time end_time st = (Return tt, st') ->
    NoDup (fst (combined_lists Comp.C_EXPANDED_VALUES st)) ->
    g_best_prev_error st' <> g_best_prev_error st ->
    let ids := fst (combined_lists Comp.C_EXPANDED_VALUES st) in
    exists pools c,
      iterables (snd (combined_lists Comp.C_EXPANDED_VALUES st)) = Return pools
      /\ In c (itertools_product pools)
      /\ best_error_of math_pow ids c st = Return (g_best_prev_error st')
      /\ recorded Comp.C_BEST_VALUE TCalcValues.C_BEST_VALUE ids c st st'.
Proof.
  intros math_pow start_time end_time st st' H Hnd Hne ids.
  apply full_search_inv in H as (n & five_perc & sg & pools & Hn & _ & Hg & Hp & Hloop).
  pose proof (safety_gate_same_data n st) as Hd. rewrite Hg in Hd. simpl in Hd.
  assert (Hbest : g_best_prev_error sg = g_best_prev_error st) by apply Hd.
  destruct (snapshot_loop (fun e b => (e <? b)%float) g_best_prev_error ids
              (best_iteration math_pow ids) (best_error_of math_pow ids)
              (recorded Comp.C_BEST_VALUE TCalcValues.C_BEST_VALUE ids)
              (fun c a b Hl Hi => best_iteration_records math_pow ids c a b Hnd Hl Hi)
              (similar_best_iteration math_pow ids)
              (fun c a b => scored_similar (distance math_pow) ids c a b)
              (fun c from from' s => recorded_from _ _ ids c from from' s)
              (itertools_product pools) st sg st'
              (same_data_similar ids st sg Hd)
              (fun c Hc => combination_length _ st pools c Hp Hc)
              Hloop)
    as [[Hsame _]|(c & Hc & He & Hr)].
  - congruence.
  - exists pools, c. auto.
Qed.

(** X16.  The worst case the tolerance analysis reports is a combination
    of the bands that attains the error it reports.  When the analysis
    returns, the identifiers being distinct and the worst error having
    changed, there is a combination of the tolerance bands whose Manhattan
    error is the final worst error, whose values are the worst values the
    getters read for the identifiers, and whose two thresholds are the
    worst values of the two targets. *)
Theorem worst_case_is_recorded :
  forall (st st' : state),
    worst_tolerance_component_analysis st = (Return tt, st') ->
    let s1 := snd (expand_tolerances st) in
    let ids := fst (combined_lists Comp.C_EXPANDED_TOLERANCE s1) in
    NoDup ids ->
    g_worst_prev_error st' <> g_worst_prev_error st ->
    exists pools c,
      iterables (snd (combined_lists Comp.C_EXPANDED_TOLERANCE s1)) = Return pools
      /\ In c (itertools_product pools)
      /\ worst_error_of ids c s1 = Return (g_worst_prev_error st')
      /\ recorded Comp.C_WORST_VALUE TCalcValues.C_WORST_VALUE ids c s1 st'.
Proof.
  intros st st' H s1 ids Hnd Hne.
  unfold worst_tolerance_component_analysis in H.
  apply bind_Return in H as ([] & s1' & He & H).
  assert (Es : s1 = s1') by (unfold s1; now rewrite He).
  clearbody s1. subst s1'.
  cbv beta zeta in H.
  apply enumerate_inv in H as (pools & Hp & _ & Hloop).
  pose proof (expand_tolerances_inv _ _ He) as (_ & _ & _ & Hw & _).
  destruct (snapshot_loop (fun e b => (b <? e)%float) g_worst_prev_error ids
              (worst_iteration ids) (worst_error_of ids)
              (recorded Comp.C_WORST_VALUE TCalcValues.C_WORST_VALUE ids)
              (fun c a b Hl Hi => worst_iteration_records ids c a b Hnd Hl Hi)
              (similar_worst_iteration ids)
              (fun c a b => scored_similar _ ids c a b)
              (fun c from from' s => recorded_from _ _ ids c from from' s)
              (itertools_product pools) s1 s1 st'
              (frame_refl s1)
              (fun c Hc => combination_length _ s1 pools c Hp Hc)
              Hloop)
    as [[Hsame _]|(c & Hc & He' & Hr)].
  - congruence.
  - exists pools, c. auto.
Qed.

(** ** The expansion *)

Lemma expand_values_set_expansion (field : Comp.expansion_key) (l : list float)
    (c : Comp.t) series :
  expand_values (Comp.set_expansion field l c) series = expand_values c series.
Proof. now destruct field. Qed.

Lemma expand_component_inv series (d d' : dict Comp.t) :
  expand_component d series = (Return tt, d') ->
  Forall2 (fun kc kc' =>
             fst kc' = fst kc
             /\ exists l,
                 expand_values (snd kc) series = Return l
                 /\ snd kc' = Comp.set_expansion Comp.C_EXPANDED_VALUES l (snd kc))
          d d'.
Proof.
  revert d'.
  induction d as [|[k c] d IH]; intros d'; simpl.
  - intros [= <-]. constructor.
  - destruct (expand_values c series) as [l|e] eqn:E; [|discriminate].
    destruct (expand_component d series) as [o d1].
    intros [= -> <-].
    constructor; [|now apply IH].
    simpl. split; [reflexivity|]. now exists l.
Qed.

Lemma expand_component_again series (d d' : dict Comp.t) :
  expand_component d series = (Return tt, d') ->
  expand_component d' series = (Return tt, d').
Proof.
  intros H. apply expand_component_inv in H.
  induction H as [|[k c] [k' c'] d d' (Hk & l & Hl & Hc) _ IH]; [reflexivity|].
  cbn [fst snd] in *. subst k' c'. cbn [expand_component].
  rewrite expand_values_set_expansion, Hl, IH. reflexivity.
Qed.

Lemma expand_component_app series (d1 d2 d1' : dict Comp.t) :
  expand_component d1 series = (Return tt, d1') ->
  expand_component (d1 ++ d2) series
  = (fst (expand_component d2 series), d1' ++ snd (expand_component d2 series)).
Proof.
  revert d1'. induction d1 as [|[k c] d1 IH]; intros d1'; simpl.
  - intros [= <-]. now destruct (expand_component d2 series).
  - destruct (expand_values c series) as [l|e]; [|discriminate].
    destruct (expand_component d1 series) as [o d] eqn:E.
    intros [= -> <-]. now rewrite (IH d eq_refl).
Qed.

(** X17.  What [expand_component] changes, and when.  A call that returns
    has changed nothing but the lists of expanded values: keys, order and
    every other field are as they were; and a second call with the same
    series returns the same dictionary.  A call that fails on a component
    has expanded the components before it and left that component and
    those after it untouched, and the exception is [TypeError]. *)
Theorem expand_component_changes :
  forall (series : option (list float)) (d : dict Comp.t),
    (forall d',
        expand_component d series = (Return tt, d') ->
        expand_component d' series = (Return tt, d')
        /\ viewed but_expanded_values d' = viewed but_expanded_values d)
    /\ (forall d1 k c d2 d1' e,
           d = d1 ++ (k, c) :: d2 ->
           expand_component d1 series = (Return tt, d1') ->
           expand_values c series = Raise e ->
           expand_component d series = (Raise TypeError, d1' ++ (k, c) :: d2)).
Proof.
  intros series d. split.
  - intros d' H. split; [exact (expand_component_again series d d' H)|].
    pose proof (viewed_expand_component but_expanded_values series d
                  (fun l c => eq_refl)) as V.
    now rewrite H in V.
  - intros d1 k c d2 d1' e -> H1 He.
    rewrite (expand_component_app series d1 _ d1' H1). simpl. rewrite He.
    now rewrite (expand_values_raises_TypeError c series e He).
Qed.

Lemma expand_components_inv (st st1 : state) :
  expand_components st = (Return tt, st1) ->
  expand_component (dic_resistors st) (Some E24_resistor_values)
  = (Return tt, dic_resistors st1)
  /\ expand_component (dic_capacitors st) (Some E12_capacitor_values)
     = (Return tt, dic_capacitors st1)
  /\ expand_component (dic_inductors st) None = (Return tt, dic_inductors st1).
Proof.
  unfold expand_components, bind.
  destruct (expand_component (dic_resistors st) _) as [[[]|e] dr] eqn:Er; [|discriminate].
  simpl.
  destruct (expand_component (dic_capacitors st) _) as [[[]|e] dc] eqn:Ec; [|discriminate].
  simpl.
  destruct (expand_component (dic_inductors st) _) as [[[]|e] dl] eqn:El; [|discriminate].
  intros [= <-]. simpl. repeat split.
Qed.

Lemma expanded_values_entries series (d d' : dict Comp.t) (o : option (list float))
    (name : string) :
  expand_component d series = (Return tt, d') ->
  In (name, o) (entries Comp.C_EXPANDED_VALUES d') ->
  exists k c pool, o = Some pool /\ In (k, c) d /\ expand_values c series = Return pool.
Proof.
  intros He Hin.
  apply expand_component_inv in He.
  unfold entries in Hin. apply in_map_iff in Hin as ([k' c'] & Heq & Hin).
  destruct (Forall2_In_r _ _ _ _ He Hin) as ([k c] & Hkc & Hk & l & Hl & Hc').
  simpl in *. subst c'. simpl in Heq. injection Heq as _ <-.
  now exists k, c, l.
Qed.

Lemma iterables_Forall (lists : list (option (list float))) (P : list float -> Prop) :
  Forall (fun o => exists pool, o = Some pool /\ P pool) lists ->
  exists pools, iterables lists = Return pools /\ Forall P pools.
Proof.
  induction 1 as [|o lists (pool & -> & Hp) _ (pools & Hi & Hf)]; simpl.
  - exists []. split; [reflexivity | constructor].
  - rewrite Hi. simpl. exists (pool :: pools). split; [reflexivity | now constructor].
Qed.

(** X18.  The expansion and the best pass compose.  When the three calls
    of [expand_component] of [main] return, every component has a list of
    expanded values, so that the count and the enumeration of the best pass
    find a list for each: there is one pool for each component, and each
    pool is the expansion of a component with the standard series of its
    dictionary. *)
Theorem expansion_provides_the_pools :
  forall (st st1 : state),
    expand_components st = (Return tt, st1) ->
    exists pools,
      iterables (snd (combined_lists Comp.C_EXPANDED_VALUES st1)) = Return pools
      /\ List.length pools = number_of_components st
      /\ Forall (expansion_of st) pools
      /\ count_evaluations (snd (combined_lists Comp.C_EXPANDED_VALUES st1)) 1%Z
         = Return (Z.of_nat (number_of_combinations pools)).
Proof.
  intros st st1 H.
  destruct (expand_components_inv st st1 H) as (Hr & Hc & Hl).
  assert (F : Forall (fun o => exists pool, o = Some pool /\ expansion_of st pool)
                     (snd (combined_lists Comp.C_EXPANDED_VALUES st1))).
  { apply Forall_forall. intros o Ho.
    unfold combined_lists in Ho.
    rewrite make_two_combined_list_of_components_spec in Ho. simpl in Ho.
    apply in_map_iff in Ho as ([name o'] & Heq & Hin). simpl in Heq. subst o'.
    assert (G : forall series d d',
               expand_component d series = (Return tt, d') ->
               In (name, o) (make_list_component_expanded_values d' Comp.C_EXPANDED_VALUES) ->
               exists k c pool,
                 o = Some pool /\ In (k, c) d /\ expand_values c series = Return pool).
    { intros series d d' Hd Hi. apply (expanded_values_entries series d d' o name Hd).
      eapply Permutation_in; [|exact Hi].
      apply make_list_component_expanded_values_spec. }
    apply in_app_or in Hin as [Hin|Hin]; [|apply in_app_or in Hin as [Hin|Hin]].
    - destruct (G _ _ _ Hr Hin) as (k & c & pool & -> & Hk & He).
      exists pool. split; [reflexivity|]. exists k, c, (Some E24_resistor_values). tauto.
    - destruct (G _ _ _ Hc Hin) as (k & c & pool & -> & Hk & He).
      exists pool. split; [reflexivity|]. exists k, c, (Some E12_capacitor_values). tauto.
    - destruct (G _ _ _ Hl Hin) as (k & c & pool & -> & Hk & He).
      exists pool. split; [reflexivity|]. exists k, c, (@None (list float)). tauto. }
  destruct (iterables_Forall _ _ F) as (pools & Hp & Hf).
  exists pools. split; [assumption|].
  pose proof (iterables_inv _ _ Hp) as El.
  split; [|split; [assumption|]].
  - rewrite <- (length_map Some pools), <- El, length_combined_lists.
    unfold number_of_components.
    pose proof (expand_component_inv _ _ _ Hr) as Fr.
    pose proof (expand_component_inv _ _ _ Hc) as Fc.
    pose proof (expand_component_inv _ _ _ Hl) as Fl.
    rewrite <- (Forall2_length Fr), <- (Forall2_length Fc), <- (Forall2_length Fl).
    reflexivity.
  - rewrite El, count_evaluations_spec. f_equal. lia.
Qed.

(** X19.  A specification that fails the consistency test is not
    searched: once the specification is printed, [main] returns at the
    test, with no component expanded, no combination evaluated and every
    global as it was. *)
Theorem main_stops_at_the_consistency_test :
  forall (math_pow : float -> float -> outcome float) (start_time end_time : float)
         (st : state),
    fst (print_specification st) = Return tt ->
    fst (consistency_testing_of_fixed_parameters st) = Return false ->
    main math_pow start_time end_time st = (Return tt, st).
Proof.
  intros math_pow start_time end_time st Hp Hc. unfold main.
  pose proof (print_specification_reads st) as Sp.
  destruct (print_specification st) as [o s] eqn:Ep. simpl in Hp, Sp. subst o s.
  rewrite (bind_run_Return _ _ _ _ _ Ep).
  pose proof (consistency_testing_reads st) as Sc.
  destruct (consistency_testing_of_fixed_parameters st) as [o s] eqn:Ec.
  simpl in Hc, Sc. subst o s.
  rewrite (bind_run_Return _ _ _ _ _ Ec). reflexivity.
Qed.

(** ** The order of the identifiers *)

Lemma string_compare_refl (a : string) : String.compare a a = Eq.
Proof.
  induction a as [|x a IH]; simpl; [reflexivity|].
  unfold Ascii.compare. now rewrite N.compare_refl.
Qed.

Lemma string_leb_trans (a b c : string) :
  String.leb a b = true -> String.leb b c = true -> String.leb a c = true.
Proof.
  unfold String.leb. revert b c.
  induction a as [|x a IH]; intros [|y b] [|z c]; simpl; try easy.
  unfold Ascii.compare.
  destruct (N.compare_spec (N_of_ascii x) (N_of_ascii y)) as [Exy|Lxy|Gxy];
    destruct (N.compare_spec (N_of_ascii y) (N_of_ascii z)) as [Eyz|Lyz|Gyz];
    try easy.
  - rewrite Exy, Eyz, N.compare_refl. apply IH.
  - intros _ _. rewrite Exy. now apply N.compare_lt_iff in Lyz as ->.
  - intros _ _. rewrite <- Eyz. now apply N.compare_lt_iff in Lxy as ->.
  - intros _ _. assert (L : (N_of_ascii x < N_of_ascii z)%N) by lia.
    now apply N.compare_lt_iff in L as ->.
Qed.

Section Canonical.
Context {V : Type}.

Lemma name_le_trans : Relations_1.Transitive (@name_le V).
Proof. intros x y z. unfold name_le. apply string_leb_trans. Qed.

(** A list sorted by names that are distinct is the only one among its
    permutations. *)
Lemma sorted_unique (l1 : list (string * V)) :
  forall l2,
    Sorted name_le l1 -> Sorted name_le l2 -> Permutation l1 l2 ->
    NoDup (map fst l1) -> l1 = l2.
Proof.
  induction l1 as [|x l1 IH]; intros l2 S1 S2 P Hnd.
  - apply Permutation_nil in P. now subst.
  - destruct l2 as [|y l2]; [apply Permutation_sym, Permutation_nil in P; discriminate|].
    apply (Sorted_StronglySorted name_le_trans) in S1, S2.
    inversion S1 as [|? ? S1' F1]; subst. inversion S2 as [|? ? S2' F2]; subst.
    inversion Hnd as [|? ? Hx Hnd']; subst.
    assert (E : x = y).
    { assert (Hxin : In x (y :: l2)) by (eapply Permutation_in; [exact P | now left]).
      assert (Hyin : In y (x :: l1))
        by (eapply Permutation_in; [apply Permutation_sym; exact P | now left]).
      destruct Hxin as [->|Hxin]; [reflexivity|].
      destruct Hyin as [->|Hyin]; [reflexivity|].
      rewrite Forall_forall in F1, F2.
      pose proof (String.leb_antisym _ _ (F1 y Hyin) (F2 x Hxin)) as En.
      exfalso. apply Hx. rewrite En. now apply in_map. }
    subst y. f_equal.
    apply IH; try assumption.
    + now apply StronglySorted_Sorted.
    + now apply StronglySorted_Sorted.
    + eapply Permutation_cons_inv; exact P.
Qed.

End Canonical.

Lemma map_fst_entries (field : Comp.expansion_key) (d : dict Comp.t) :
  map fst (entries field d) = names d.
Proof. unfold entries, names. rewrite map_map. reflexivity. Qed.

(** The sorted list of a dictionary does not depend on the order of its
    entries, when its components have distinct names. *)
Lemma make_list_component_expanded_values_Permutation (field : Comp.expansion_key)
    (d d' : dict Comp.t) :
  Permutation d d' -> NoDup (names d) ->
  make_list_component_expanded_values d field
  = make_list_component_expanded_values d' field.
Proof.
  intros P Hnd.
  destruct (make_list_component_expanded_values_spec d field) as [S1 P1].
  destruct (make_list_component_expanded_values_spec d' field) as [S2 P2].
  apply sorted_unique; try assumption.
  - rewrite P1, P2. unfold entries. now apply Permutation_map.
  - eapply Permutation_NoDup; [|rewrite <- (map_fst_entries field d) in Hnd; exact Hnd].
    apply Permutation_map. now apply Permutation_sym.
Qed.

(** X20.  The order of the identifiers, and with it the order of the
    enumeration, does not depend on the order in which the components were
    written in their dictionaries: two states whose dictionaries hold the
    same entries in any order, the names being distinct within each
    dictionary, give both passes the same identifiers and the same lists. *)
Theorem identifier_order_ignores_dictionary_order :
  forall (field : Comp.expansion_key) (st st' : state),
    Permutation (dic_resistors st) (dic_resistors st') ->
    Permutation (dic_capacitors st) (dic_capacitors st') ->
    Permutation (dic_inductors st) (dic_inductors st') ->
    NoDup (names (dic_resistors st)) ->
    NoDup (names (dic_capacitors st)) ->
    NoDup (names (dic_inductors st)) ->
    combined_lists field st' = combined_lists field st.
Proof.
  intros field st st' Pr Pc Pl Nr Nc Nl. unfold combined_lists.
  now rewrite (make_list_component_expanded_values_Permutation field _ _ Pr Nr),
    (make_list_component_expanded_values_Permutation field _ _ Pc Nc),
    (make_list_component_expanded_values_Permutation field _ _ Pl Nl).
Qed.

(** ** The tolerance bands *)

Lemma expand_component_tolerance_value_list_again (d d' : dict Comp.t) :
  expand_component_tolerance_value_list d = (Return tt, d') ->
  expand_component_tolerance_value_list d' = (Return tt, d') /\ Forall has_band d'.
Proof.
  intros H. apply expand_component_tolerance_value_list_returns in H.
  induction H as [|[k c] [k' c'] d d' (Hk & l & Hl & Hc) _ [IH IHb]];
    [split; [reflexivity | constructor]|].
  cbn [fst snd] in *. subst k' c'. cbn [expand_component_tolerance_value_list].
  assert (E : Comp.best_value (Comp.set_expansion Comp.C_EXPANDED_TOLERANCE l c)
              = Comp.best_value c) by reflexivity.
  assert (E' : Comp.tolerance (Comp.set_expansion Comp.C_EXPANDED_TOLERANCE l c)
               = Comp.tolerance c) by reflexivity.
  rewrite E, E', Hl, IH. split; [reflexivity|].
  constructor; [|assumption].
  unfold expand_each_component_tolerance, obind in Hl.
  destruct (py_mul _ _) as [p|]; [|discriminate].
  destruct (Comp.best_value c) as [v|] eqn:Ev; [|discriminate].
  injection Hl as <-.
  unfold has_band. cbn [snd]. eexists _, v, _.
  split; [change (Comp.best_value c = Some v); exact Ev | reflexivity].
Qed.

Lemma expand_component_tolerance_value_list_app (d1 d2 d1' : dict Comp.t) :
  expand_component_tolerance_value_list d1 = (Return tt, d1') ->
  expand_component_tolerance_value_list (d1 ++ d2)
  = (fst (expand_component_tolerance_value_list d2),
     d1' ++ snd (expand_component_tolerance_value_list d2)).
Proof.
  revert d1'. induction d1 as [|[k c] d1 IH]; intros d1'; simpl.
  - intros [= <-]. now destruct (expand_component_tolerance_value_list d2).
  - destruct (expand_each_component_tolerance _ _) as [l|e]; [|discriminate].
    destruct (expand_component_tolerance_value_list d1) as [o d] eqn:E.
    intros [= -> <-]. now rewrite (IH d eq_refl).
Qed.

(** X21.  What [expand_component_tolerance_value_list] changes, and when.
    A call that returns has changed nothing but the tolerance bands: keys,
    order and every other field are as they were; every component then has
    a best value and a band of three values with the best value in the
    middle; and a second call returns the same dictionary.  A component
    without a best value, or without a tolerance, makes the call raise
    [TypeError], with the components before it expanded and that component
    and those after it untouched. *)
Theorem expand_component_tolerance_value_list_changes :
  forall (d : dict Comp.t),
    (forall d',
        expand_component_tolerance_value_list d = (Return tt, d') ->
        expand_component_tolerance_value_list d' = (Return tt, d')
        /\ viewed but_expanded_tolerance d' = viewed but_expanded_tolerance d
        /\ Forall has_band d')
    /\ (forall d1 k c d2 d1',
           d = d1 ++ (k, c) :: d2 ->
           expand_component_tolerance_value_list d1 = (Return tt, d1') ->
           Comp.best_value c = None \/ Comp.tolerance c = None ->
           expand_component_tolerance_value_list d = (Raise TypeError, d1' ++ (k, c) :: d2)).
Proof.
  intros d. split.
  - intros d' H.
    destruct (expand_component_tolerance_value_list_again d d' H) as [Ha Hb].
    split; [exact Ha|]. split; [|exact Hb].
    pose proof (viewed_expand_component_tolerance_value_list but_expanded_tolerance d
                  (fun l c => eq_refl)) as V.
    now rewrite H in V.
  - intros d1 k c d2 d1' -> H1 Hn.
    rewrite (expand_component_tolerance_value_list_app d1 _ d1' H1).
    cbn [expand_component_tolerance_value_list].
    assert (E : expand_each_component_tolerance (Comp.best_value c) (Comp.tolerance c)
                = Raise TypeError).
    { destruct Hn as [-> | ->]; [reflexivity|]. now destruct (Comp.best_value c). }
    now rewrite E.
Qed.

(** ** Runs of the further properties *)

(** Distinct strings, one after the other. *)
Ltac distinct :=
  repeat (constructor; [simpl; intuition discriminate|]); constructor.

(** The first combination written on the bench: R2 reads 100. *)
Lemma map_ids_then_get_witness :
  map_ids_and_component_combination_vals__set_fields
    bench_ids bench_first_combination Comp.C_CURR_VALUE bench_expanded
  = (Return tt, bench_first)
  /\ NoDup bench_ids
  /\ get_dic_resistors "R2" Comp.C_CURR_VALUE bench_first = (Return 100%float, bench_first).
Proof.
  assert (H : map_ids_and_component_combination_vals__set_fields
                bench_ids bench_first_combination Comp.C_CURR_VALUE bench_expanded
              = (Return tt, bench_first)) by (vm_compute; reflexivity).
  assert (Hnd : NoDup bench_ids) by (unfold bench_ids; distinct).
  destruct (map_ids_then_get bench_ids bench_first_combination Comp.C_CURR_VALUE
              bench_expanded bench_first H Hnd) as (Hread & _).
  destruct (Hread 1 "R2"%string 100%float eq_refl eq_refl) as (kd & Hr & Hv).
  assert (E : kd = Resistor) by (vm_compute in Hr; congruence).
  subst kd.
  split; [exact H|]. split; [exact Hnd | exact Hv].
Defined.

(** The bench without candidates for R3: the count is zero and the pass
    returns at once. *)
Lemma empty_candidate_list_ends_the_search_witness :
  iterables (snd (combined_lists Comp.C_EXPANDED_VALUES bench_without_candidates))
  = Return [[1000; 2200]; [100; 120; 150]; []; [1e-6]; [1e-6; 10e-6]; [1e-3]]%float
  /\ In [] [[1000; 2200]; [100; 120; 150]; []; [1e-6]; [1e-6; 10e-6]; [1e-3]]%float
  /\ full_search_of_R_C_L_component_values pow_of_product 0 1 bench_without_candidates
     = (Return tt, bench_without_candidates).
Proof.
  assert (Hp : iterables (snd (combined_lists Comp.C_EXPANDED_VALUES
                                 bench_without_candidates))
               = Return [[1000; 2200]; [100; 120; 150]; []; [1e-6]; [1e-6; 10e-6];
                         [1e-3]]%float) by (vm_compute; reflexivity).
  assert (He : In [] [[1000; 2200]; [100; 120; 150]; []; [1e-6]; [1e-6; 10e-6];
                      [1e-3]]%float) by (right; right; left; reflexivity).
  split; [exact Hp|]. split; [exact He|].
  exact (proj2 (empty_candidate_list_ends_the_search pow_of_product 0 1
                  bench_without_candidates _ Hp He)).
Defined.

(** The large configuration, with a line that is no answer, then a yes:
    the pass is the search, two prompts logged and no line left. *)
Lemma safety_gate_accepted_or_exhausted_witness :
  count_evaluations
    (snd (combined_lists Comp.C_EXPANDED_VALUES (large_expanded ["maybe"; "Y"]%string)))
    1%Z = Return 31850496%Z
  /\ five_percent 31850496 = Return 1592524%Z
  /\ (25000000 < 31850496)%Z
  /\ full_search_of_R_C_L_component_values
       pow_of_product 0 1 (large_expanded ["maybe"; "Y"]%string)
     = search pow_of_product 0 1 31850496 1592524
         (fst (combined_lists Comp.C_EXPANDED_VALUES (large_expanded ["maybe"; "Y"]%string)))
         (snd (combined_lists Comp.C_EXPANDED_VALUES (large_expanded ["maybe"; "Y"]%string)))
         (prompted 31850496 2 [] (large_expanded ["maybe"; "Y"]%string)).
Proof.
  assert (Hf : five_percent 31850496 = Return 1592524%Z) by (vm_compute; reflexivity).
  assert (Hn : count_evaluations
                 (snd (combined_lists Comp.C_EXPANDED_VALUES
                         (large_expanded ["maybe"; "Y"]%string)))
                 1%Z = Return 31850496%Z) by (vm_compute; reflexivity).
  assert (Hlt : (25000000 < 31850496)%Z) by lia.
  assert (Hs : stdin (large_expanded ["maybe"; "Y"]%string)
               = ["maybe"%string] ++ "Y"%string :: []) by (vm_compute; reflexivity).
  destruct (safety_gate_accepted_or_exhausted pow_of_product 0 1 _ _ _ Hn Hf Hlt)
    as [Hacc _].
  split; [exact Hn|]. split; [exact Hf|]. split; [exact Hlt|].
  exact (Hacc ["maybe"%string] "Y"%string [] Hs eq_refl eq_refl).
Defined.

(** The configuration that comes with the program, just loaded: R1 has no
    expanded values yet, and the best pass raises [TypeError]. *)
Lemma search_before_expansion_fails_witness :
  In (component "R1" None None (Some [100; 1000; 10000; 100000]%float) 1.0
                "Upper resistor of voltage divider.")
     (dic_resistors (configured []) ++ dic_capacitors (configured [])
        ++ dic_inductors (configured []))
  /\ Comp.expanded_values
       (snd (component "R1" None None (Some [100; 1000; 10000; 100000]%float) 1.0
                       "Upper resistor of voltage divider.")) = None
  /\ full_search_of_R_C_L_component_values pow_of_product 0 1 (configured [])
     = (Raise TypeError, configured []).
Proof.
  assert (Hin : In (component "R1" None None (Some [100; 1000; 10000; 100000]%float) 1.0
                              "Upper resistor of voltage divider.")
                   (dic_resistors (configured []) ++ dic_capacitors (configured [])
                      ++ dic_inductors (configured []))).
  { apply in_or_app. left. left. reflexivity. }
  split; [exact Hin|]. split; [reflexivity|].
  exact (search_before_expansion_fails pow_of_product 0 1 (configured []) _ _ Hin eq_refl).
Defined.

(** The best pass on the bench: the combination on record attains the
    final best error. *)
Lemma best_solution_is_recorded_witness :
  full_search_of_R_C_L_component_values pow_of_product 0 1 bench_expanded
  = (Return tt, bench_searched)
  /\ NoDup (fst (combined_lists Comp.C_EXPANDED_VALUES bench_expanded))
  /\ g_best_prev_error bench_searched <> g_best_prev_error bench_expanded
  /\ exists pools c,
      In c (itertools_product pools)
      /\ best_error_of pow_of_product
           (fst (combined_lists Comp.C_EXPANDED_VALUES bench_expanded)) c bench_expanded
         = Return (g_best_prev_error bench_searched)
      /\ recorded Comp.C_BEST_VALUE TCalcValues.C_BEST_VALUE
           (fst (combined_lists Comp.C_EXPANDED_VALUES bench_expanded)) c
           bench_expanded bench_searched.
Proof.
  assert (H : full_search_of_R_C_L_component_values pow_of_product 0 1 bench_expanded
              = (Return tt, bench_searched)) by (vm_compute; reflexivity).
  assert (Hids : fst (combined_lists Comp.C_EXPANDED_VALUES bench_expanded) = bench_ids)
    by (vm_compute; reflexivity).
  assert (Hnd : NoDup (fst (combined_lists Comp.C_EXPANDED_VALUES bench_expanded))).
  { rewrite Hids. unfold bench_ids. distinct. }
  assert (Hne : g_best_prev_error bench_searched <> g_best_prev_error bench_expanded).
  { intros E. apply (f_equal (fun x => (x <? 1)%float)) in E.
    vm_compute in E. discriminate E. }
  destruct (best_solution_is_recorded pow_of_product 0 1 bench_expanded bench_searched
              H Hnd Hne) as (pools & c & _ & Hc & He & Hr).
  split; [exact H|]. split; [exact Hnd|]. split; [exact Hne|].
  exists pools, c. split; [exact Hc|]. split; [exact He | exact Hr].
Defined.

(** The tolerance analysis on the bench, after the best pass: the
    combination on record attains the final worst error. *)
Lemma worst_case_is_recorded_witness :
  worst_tolerance_component_analysis bench_searched = (Return tt, bench_analysed)
  /\ NoDup (fst (combined_lists Comp.C_EXPANDED_TOLERANCE
                   (snd (expand_tolerances bench_searched))))
  /\ g_worst_prev_error bench_analysed <> g_worst_prev_error bench_searched
  /\ exists pools c,
      In c (itertools_product pools)
      /\ worst_error_of
           (fst (combined_lists Comp.C_EXPANDED_TOLERANCE
                   (snd (expand_tolerances bench_searched))))
           c (snd (expand_tolerances bench_searched))
         = Return (g_worst_prev_error bench_analysed).
Proof.
  assert (H : worst_tolerance_component_analysis bench_searched = (Return tt, bench_analysed))
    by (vm_compute; reflexivity).
  assert (Hids : fst (combined_lists Comp.C_EXPANDED_TOLERANCE
                        (snd (expand_tolerances bench_searched))) = bench_ids)
    by (vm_compute; reflexivity).
  assert (Hnd : NoDup (fst (combined_lists Comp.C_EXPANDED_TOLERANCE
                              (snd (expand_tolerances bench_searched))))).
  { rewrite Hids. unfold bench_ids. distinct. }
  assert (Hne : g_worst_prev_error bench_analysed <> g_worst_prev_error bench_searched).
  { intros E. apply (f_equal (fun x => (0 <? x)%float)) in E.
    vm_compute in E. discriminate E. }
  destruct (worst_case_is_recorded bench_searched bench_analysed H Hnd Hne)
    as (pools & c & _ & Hc & He & _).
  split; [exact H|]. split; [exact Hnd|]. split; [exact Hne|].
  exists pools, c. split; [exact Hc | exact He].
Defined.

(** The expansion of the bench: six pools, one for each component. *)
Lemma expansion_provides_the_pools_witness :
  expand_components (bench 5.0 []) = (Return tt, bench_expanded)
  /\ exists pools,
      iterables (snd (combined_lists Comp.C_EXPANDED_VALUES bench_expanded)) = Return pools
      /\ List.length pools = 6.
Proof.
  assert (H : expand_components (bench 5.0 []) = (Return tt, bench_expanded))
    by (vm_compute; reflexivity).
  destruct (expansion_provides_the_pools (bench 5.0 []) bench_expanded H)
    as (pools & Hp & Hlen & _).
  split; [exact H|]. exists pools. split; [exact Hp|].
  rewrite Hlen. vm_compute. reflexivity.
Defined.

(** The bench under 0.5 V, below the higher target of 0.575 V: the test
    fails and [main] returns with nothing done. *)
Lemma main_stops_at_the_consistency_test_witness :
  fst (print_specification bench_low_supply) = Return tt
  /\ fst (consistency_testing_of_fixed_parameters bench_low_supply) = Return false
  /\ main pow_of_product 0 1 bench_low_supply = (Return tt, bench_low_supply).
Proof.
  assert (Hp : fst (print_specification bench_low_supply) = Return tt)
    by (vm_compute; reflexivity).
  assert (Hc : fst (consistency_testing_of_fixed_parameters bench_low_supply) = Return false)
    by (vm_compute; reflexivity).
  split; [exact Hp|]. split; [exact Hc|].
  exact (main_stops_at_the_consistency_test pow_of_product 0 1 bench_low_supply Hp Hc).
Defined.

(** The bench with its resistors written in the opposite order: the same
    identifiers and the same lists. *)
Lemma identifier_order_ignores_dictionary_order_witness :
  Permutation (dic_resistors bench_expanded) (dic_resistors bench_reversed)
  /\ NoDup (names (dic_resistors bench_expanded))
  /\ NoDup (names (dic_capacitors bench_expanded))
  /\ NoDup (names (dic_inductors bench_expanded))
  /\ dic_resistors bench_reversed <> dic_resistors bench_expanded
  /\ combined_lists Comp.C_EXPANDED_VALUES bench_reversed
     = combined_lists Comp.C_EXPANDED_VALUES bench_expanded.
Proof.
  assert (Pr : Permutation (dic_resistors bench_expanded) (dic_resistors bench_reversed))
    by apply Permutation_rev.
  assert (Pc : Permutation (dic_capacitors bench_expanded) (dic_capacitors bench_reversed))
    by apply Permutation_refl.
  assert (Pl : Permutation (dic_inductors bench_expanded) (dic_inductors bench_reversed))
    by apply Permutation_refl.
  assert (Nr : NoDup (names (dic_resistors bench_expanded))).
  { assert (E : names (dic_resistors bench_expanded) = ["R1"; "R2"; "R3"]%string)
      by (vm_compute; reflexivity).
    rewrite E. distinct. }
  assert (Nc : NoDup (names (dic_capacitors bench_expanded))).
  { assert (E : names (dic_capacitors bench_expanded) = ["C1"; "C2"]%string)
      by (vm_compute; reflexivity).
    rewrite E. distinct. }
  assert (Nl : NoDup (names (dic_inductors bench_expanded))).
  { assert (E : names (dic_inductors bench_expanded) = ["L1"]%string)
      by (vm_compute; reflexivity).
    rewrite E. distinct. }
  split; [exact Pr|]. split; [exact Nr|]. split; [exact Nc|]. split; [exact Nl|].
  split.
  - intros E. apply (f_equal (fun d => map fst d)) in E. vm_compute in E. discriminate E.
  - exact (identifier_order_ignores_dictionary_order Comp.C_EXPANDED_VALUES
             bench_expanded bench_reversed Pr Pc Pl Nr Nc Nl).
Defined.
